(** * The process-graph Builder of the openEO JS client

    A shallow embedding of `class Builder` and the properties of its id
    generation, node storage, parameter handling, serialisation and
    construction.  The class builds on `BuilderNode` (`./node`),
    `Parameter` (`./parameter`) and the helpers `Utils` and `ProcessUtils`
    of `@openeo/js-commons`. *)

From Stdlib Require Import String Ascii NArith ZArith List Lia.
From stdpp Require Import base option list strings gmap pretty.

Set Warnings "-register-all".
Local Open Scope string_scope.
Local Open Scope list_scope.

(** ** JavaScript strings

    A JS string is modelled by the sequence of its code units; process and
    parameter names are identifiers (`^\w+$`), one [ascii] per unit. *)

(** `s.replace(pat, rep)` with a string pattern: only the FIRST occurrence
    of [pat] is replaced ([rep] contains no `$` pattern here). *)
Definition replace (pat rep s : string) : string :=
  match String.index 0 pat s with
  | Some i =>
      String.substring 0 i s +:+ rep +:+
      String.substring (i + String.length pat)
                       (String.length s - (i + String.length pat)) s
  | None => s
  end.

(** `s.substr(start, len)` for non-negative arguments. *)
Definition substr (start len : nat) (s : string) : string :=
  String.substring start len s.

(** The members every plain object `{}` inherits from `Object.prototype`;
    `o[k]` finds them when [k] is not an own property of [o]. *)
Definition Object_prototype : list string :=
  [ "constructor"; "hasOwnProperty"; "isPrototypeOf"; "propertyIsEnumerable";
    "toLocaleString"; "toString"; "valueOf"; "__proto__";
    "__defineGetter__"; "__defineSetter__"; "__lookupGetter__";
    "__lookupSetter__" ].

(** ** Data model *)

(** Object references. *)
Abbreviation loc := nat (only parsing).

(** JSON values carried around without being inspected (schemas, metadata,
    literal arguments). *)
Inductive Json :=
| JNull
| JBool (b : bool)
| JNum (z : Z)
| JStr (s : string)
| JArr (l : list Json)
| JObj (m : gmap string Json).

(** An entry of the process catalogue; the builder reads `process.id` only. *)
Record Process := { proc_id : string; proc_body : gmap string Json }.

(** A parameter descriptor `{name, description, schema, default, ...}`: its
    name and its other own enumerable properties.  Descriptors are held by
    value: one descriptor object is not shared between the declared
    parameters of two builders. *)
Record Descriptor := { d_name : string; d_fields : gmap string Json }.

(** `Object.assign(target, source)` on two descriptors of the same name:
    every property of [source] overwrites the one of [target]. *)
Definition Object_assign (target source : Descriptor) : Descriptor :=
  {| d_name := d_name source; d_fields := d_fields source ∪ d_fields target |}.

(** Argument values of a node, in the closed variant of the data model. *)
Inductive Arg :=
| ALiteral (v : Json)
| AFromNode (node : string)
| AFromParameter (param : string)
| ACallback (builder : loc)
| AList (l : list Arg)
| AObject (m : gmap string Arg).

(** `args` of `process`: an array (positional) or an object (by name). *)
Inductive Args :=
| ArgsArray (l : list Arg)
| ArgsObject (m : gmap string Arg).

(** A `BuilderNode`. *)
Record BuilderNode := {
  node_id : string;
  node_process_id : string;
  node_spec : option Process;
  node_arguments : Args;
  node_description : option string;
  node_result : bool
}.

(** An instance of the `Parameter` class: its name and the builder that
    created it. *)
Record ParameterObject := { param_name : string; param_builder : loc }.

(** Values of the dynamic own properties of a builder. *)
Inductive PropVal :=
| PMethod (pid : string)
    (* function() { return this.process(pid, [...arguments]); } *)
| PParameters (ps : list Descriptor)
    (* an array of parameter descriptors, `builder.parameters` *)
| PValue (v : Json).
    (* any other value that is neither undefined nor such an array *)

(** A `Builder` instance.  The seven fields assigned by the constructor are
    record fields; [props] holds every other own property that is not
    `undefined`: `id`, `parameters`, the metadata and the methods installed
    for the catalogue. *)
Record Builder := {
  parent : option loc;
  parentNode : option BuilderNode;
  parentParameter : option string;
  processes : list Process;
  nodes : gmap string BuilderNode;
  idCounter : gmap string N;
  callbackParameterCache : gmap string loc;
  props : gmap string PropVal
}.

Definition set_nodes (b : Builder) (ns : gmap string BuilderNode) : Builder :=
  {| parent := parent b; parentNode := parentNode b;
     parentParameter := parentParameter b; processes := processes b;
     nodes := ns; idCounter := idCounter b;
     callbackParameterCache := callbackParameterCache b; props := props b |}.

Definition set_idCounter (b : Builder) (c : gmap string N) : Builder :=
  {| parent := parent b; parentNode := parentNode b;
     parentParameter := parentParameter b; processes := processes b;
     nodes := nodes b; idCounter := c;
     callbackParameterCache := callbackParameterCache b; props := props b |}.

Definition set_callbackParameterCache (b : Builder) (c : gmap string loc)
  : Builder :=
  {| parent := parent b; parentNode := parentNode b;
     parentParameter := parentParameter b; processes := processes b;
     nodes := nodes b; idCounter := idCounter b;
     callbackParameterCache := c; props := props b |}.

Definition set_props (b : Builder) (p : gmap string PropVal) : Builder :=
  {| parent := parent b; parentNode := parentNode b;
     parentParameter := parentParameter b; processes := processes b;
     nodes := nodes b; idCounter := idCounter b;
     callbackParameterCache := callbackParameterCache b; props := p |}.

(** `setParent(node, parameterName)` *)
Definition setParent (this : Builder) (node : BuilderNode)
    (parameterName : string) : Builder :=
  {| parent := parent this; parentNode := Some node;
     parentParameter := Some parameterName; processes := processes this;
     nodes := nodes this; idCounter := idCounter this;
     callbackParameterCache := callbackParameterCache this;
     props := props this |}.

(** ** Id generation *)

(** `generateId(name)`.  The key looked up in `idCounter` has at most six
    code units, so it never names a member inherited from
    `Object.prototype` (lemma [stem_not_inherited]): the lookup sees own
    properties only.  `!v` holds for `undefined` and for `0`.  A counter is
    a Number far below 2^53, where `++` is exact, and `name + counter`
    appends its decimal numeral ([pretty]). *)
Definition generateId (this : Builder) (name : string) : string * Builder :=
  let name := substr 0 6 (replace "_" "" name) in
  let counter :=
    match idCounter this !! name with
    | Some n => if (n =? 0)%N then 1%N else (n + 1)%N
    | None => 1%N
    end in
  (name +:+ pretty counter,
   set_idCounter this (<[name := counter]> (idCounter this))).

(** The description of the stem computation in words: delete the first
    underscore, keep the first six code units. *)
Fixpoint remove_first_underscore (s : string) : string :=
  match s with
  | "" => ""
  | String c r =>
      if Ascii.eqb c "_" then r else String c (remove_first_underscore r)
  end.

Fixpoint take_string (n : nat) (s : string) : string :=
  match n, s with
  | S n', String c r => String c (take_string n' r)
  | _, _ => ""
  end.

Definition stem (name : string) : string :=
  take_string 6 (remove_first_underscore name).

(** ** Nodes and `process` *)

(** What `console.warn` receives: a message or a caught error object.
    An error is an `Error` with its message, or the `TypeError` of
    reading a property of `null` or `undefined`, whose message depends on
    the engine. *)
Inductive Exn :=
| Error (message : string)
| TypeError.

Inductive Logged :=
| Warn (message : string)
| WarnError (error : Exn).

(** `spec(id)`: `this.processes.find(process => process.id === id)` *)
Definition spec (this : Builder) (id : string) : option Process :=
  find (fun process => bool_decide (proc_id process = id)) (processes this).

(** Modelled from the spec: the constructor of `BuilderNode` (`./node` is
    missing).  Section 4.1 `call`: the operation is looked up in the
    catalogue; when it is absent a warning is recorded and construction
    proceeds; a fresh id is allocated by the id generator of the owning
    builder from the operation name; the node starts without the result
    marker.  The arguments are values of the closed variant [Arg], kept as
    they are passed: binding and normalisation touch neither the node map
    nor the id counters of the owning builder (a `Parameter` passed as an
    argument is declared with `addParameter`, which writes `parameters` of
    the root builder only). *)
Definition BuilderNode_new (parent : Builder) (processId : string)
    (args : Args) (description : option string)
  : BuilderNode * Builder * list Logged :=
  let spec := spec parent processId in
  let warnings :=
    match spec with
    | Some _ => []
    | None => [Warn ("Process doesn't exist: " +:+ processId)]
    end in
  let '(id, parent) := generateId parent processId in
  ({| node_id := id; node_process_id := processId; node_spec := spec;
      node_arguments := args; node_description := description;
      node_result := false |}, parent, warnings).

(** `process(processId, args = {}, description = null)`: the node, the
    builder afterwards and what was written to the console. *)
Definition process (this : Builder) (processId : string) (args : Args)
    (description : option string) : BuilderNode * Builder * list Logged :=
  let '(node, this, warnings) :=
    BuilderNode_new this processId args description in
  (node, set_nodes this (<[node_id node := node]> (nodes this)), warnings).

(** One invocation of `process` as data, and a sequence of invocations on
    one builder: the nodes returned, in order, the builder afterwards and
    the console output. *)
Record Call := {
  call_processId : string;
  call_args : Args;
  call_description : option string
}.

Fixpoint process_all (this : Builder) (calls : list Call)
  : list BuilderNode * Builder * list Logged :=
  match calls with
  | [] => ([], this, [])
  | c :: calls =>
      let '(node, this, w) :=
        process this (call_processId c) (call_args c) (call_description c) in
      let '(rest, this, w') := process_all this calls in
      (node :: rest, this, w ++ w')
  end.

(** ** Members of a builder instance *)

(** The data fields the constructor assigns; none of them is `undefined`
    (`null`, an array or an object). *)
Definition own_fields : list string :=
  [ "parent"; "parentNode"; "parentParameter"; "processes"; "nodes";
    "idCounter"; "callbackParameterCache" ].

(** The methods of `Builder.prototype`. *)
Definition Builder_prototype : list string :=
  [ "constructor"; "setParent"; "createCallbackParameter";
    "getParentCallbackParameters"; "addParameter"; "spec"; "math";
    "process"; "toJSON"; "generateId" ].

(** The value of `this[k]`. *)
Inductive Member :=
| MUndefined
| MField (k : string)        (* one of the data fields *)
| MProp (v : PropVal)        (* a dynamic own property *)
| MMethod (k : string)       (* a method of Builder.prototype *)
| MInherited (k : string).   (* a member of Object.prototype *)

Definition get_member (this : Builder) (k : string) : Member :=
  if bool_decide (k ∈ own_fields) then MField k
  else match props this !! k with
       | Some v => MProp v
       | None =>
           if bool_decide (k ∈ Builder_prototype) then MMethod k
           else if bool_decide (k ∈ Object_prototype) then MInherited k
           else MUndefined
       end.

(** `this[k] = v` for a key that is not one of the data fields. *)
Definition set_member (this : Builder) (k : string) (v : PropVal) : Builder :=
  set_props this (<[k := v]> (props this)).

(** ** Construction *)

(** The `processes` argument of the constructor, by its runtime shape.  An
    element of an array is a catalogue entry (an object with a string
    `id`, as the API has it), or [None] for `null` and `undefined`, the
    values on which reading `process.id` throws. *)
Inductive JsValue :=
| VUndefined
| VNull
| VBool (b : bool)
| VNumber (z : Z)
| VString (s : string)
| VFunction
| VArray (ps : list (option Process))
| VObject (m : gmap string JsValue).

Definition Array_isArray (v : JsValue) : bool :=
  match v with VArray _ => true | _ => false end.

(** `Utils.isObject(obj)`:
    `typeof obj === 'object' && obj === Object(obj) && !Array.isArray(obj)` *)
Definition Utils_isObject (v : JsValue) : bool :=
  match v with VObject _ => true | _ => false end.

(** `v[k]` for a key that `Object.prototype` does not define. *)
Definition get_property (v : JsValue) (k : string) : JsValue :=
  match v with
  | VObject m => default VUndefined (m !! k)
  | _ => VUndefined
  end.

Definition elements (v : JsValue) : list (option Process) :=
  match v with VArray ps => ps | _ => [] end.

Definition invalid_catalog : Exn :=
  Error "Processes are invalid; must be array or object according to API.".

(** The first statements of the constructor: which array becomes
    `this.processes`, or the error thrown. *)
Definition catalog_of (processes : JsValue)
  : Exn + list (option Process) :=
  if Array_isArray processes then inr (elements processes)
  else if Utils_isObject processes
          && Array_isArray (get_property processes "processes")
  then inr (elements (get_property processes "processes"))
  else inl invalid_catalog.

(** One iteration of `for (let process of this.processes)`. *)
Definition install (st : Builder * list Logged) (process : Process)
  : Builder * list Logged :=
  let '(this, console) := st in
  match get_member this (proc_id process) with
  | MUndefined =>
      (set_member this (proc_id process) (PMethod (proc_id process)), console)
  | _ =>
      (this,
       console ++
       [Warn ("Can't create function for process '" +:+ proc_id process +:+
              "'. Already exists in Builder class.")])
  end.

(** The loop `for (let process of this.processes)`: the iterations up to
    the first element that is `null` or `undefined`, where reading
    `process.id` throws a `TypeError`. *)
Fixpoint install_all (ps : list (option Process)) (st : Builder * list Logged)
  : Exn * list Logged + Builder * list Logged :=
  match ps with
  | [] => inr st
  | Some process :: ps => install_all ps (install st process)
  | None :: _ => inl (TypeError, snd st)
  end.

(** The builder before the loop: `this.id = id` leaves `this.id` undefined
    when no id is passed. *)
Definition Builder_init (ps : list Process) (parent : option loc)
    (id : option Json) : Builder :=
  {| parent := parent; parentNode := None; parentParameter := None;
     processes := ps; nodes := ∅; idCounter := ∅;
     callbackParameterCache := ∅;
     props := match id with
              | Some v => {[ "id" := PValue v ]}
              | None => ∅
              end |}.

(** The elements of an array that are entries. *)
Definition entries (ps : list (option Process)) : list Process :=
  omap (fun process => process) ps.

(** `new Builder(processes, parent = null, id = undefined)`: the error
    thrown or the instance, and the console output up to there.
    `this.processes` is the array itself; an instance is returned only
    when every element is an entry, and then [entries ps] is that array. *)
Definition Builder_new (processes : JsValue) (parent : option loc)
    (id : option Json) : Exn * list Logged + Builder * list Logged :=
  match catalog_of processes with
  | inl e => inl (e, [])
  | inr ps => install_all ps (Builder_init (entries ps) parent id, [])
  end.

(** Calling the member [k] of [this] with the given arguments, for the
    members the constructor installs: the closure calls `this.process`
    with the process id it captured and the arguments as an array. *)
Definition invoke (this : Builder) (k : string) (arguments : list Arg)
  : option (BuilderNode * Builder * list Logged) :=
  match get_member this k with
  | MProp (PMethod pid) =>
      match get_member this "process" with
      | MMethod _ => Some (process this pid (ArgsArray arguments) None)
      | _ => None
      end
  | _ => None
  end.

(** ** The object store

    Builders refer to their parent builder, and `Parameter` objects are
    compared by reference: both live in a store.  `console` collects what
    is passed to `console.warn`. *)
Record Store := {
  builders : gmap loc Builder;
  objects : list ParameterObject;
  console : list Logged
}.

(** Stateful methods: [None] when `this` is not a builder of the store or
    a loop does not end. *)
Definition M (A : Type) : Type := Store -> option (A * Store).

Definition ret {A} (a : A) : M A := fun s => Some (a, s).

Definition bind {A B} (m : M A) (k : A -> M B) : M B :=
  fun s => match m s with
           | Some (a, s') => k a s'
           | None => None
           end.

Notation "x <- m ;; k" := (bind m (fun x => k))
  (at level 100, m at next level, right associativity).
Notation "m ;;; k" := (bind m (fun _ => k))
  (at level 100, right associativity).

Definition get_store : M Store := fun s => Some (s, s).

Definition get_builder (l : loc) : M Builder :=
  fun s => match builders s !! l with
           | Some b => Some (b, s)
           | None => None
           end.

Definition put_builder (l : loc) (b : Builder) : M unit :=
  fun s => Some (tt, {| builders := <[l := b]> (builders s);
                        objects := objects s; console := console s |}).

Definition console_warn (w : Logged) : M unit :=
  fun s => Some (tt, {| builders := builders s; objects := objects s;
                        console := console s ++ [w] |}).

Fixpoint mapM {A B} (f : A -> M B) (l : list A) : M (list B) :=
  match l with
  | [] => ret []
  | a :: l => b <- f a ;; bs <- mapM f l ;; ret (b :: bs)
  end.

(** Modelled from the spec: `Parameter.create(builder, parameterName)`
    (`./parameter` is missing).  Section 3, Parameter: a named placeholder
    with a back-reference to the builder that created it; every creation
    yields a new object. *)
Definition Parameter_create (builder : loc) (parameterName : string) : M loc :=
  fun s => Some (length (objects s),
                 {| builders := builders s;
                    objects := objects s ++
                      [{| param_name := parameterName;
                          param_builder := builder |}];
                    console := console s |}).

(** What `this.callbackParameterCache[parameterName]` can yield when it is
    truthy: a cached `Parameter`, or the member that the cache, a plain
    object, inherits under that name. *)
Inductive CallbackParameter :=
| CPObject (p : loc)
| CPInherited (k : string).

(** `createCallbackParameter(parameterName)` *)
Definition createCallbackParameter (this : loc) (parameterName : string)
  : M CallbackParameter :=
  b <- get_builder this ;;
  match callbackParameterCache b !! parameterName with
  | Some p => ret (CPObject p)
  | None =>
      if bool_decide (parameterName ∈ Object_prototype)
      then ret (CPInherited parameterName)
      else
        p <- Parameter_create this parameterName ;;
        put_builder this
          (set_callbackParameterCache b
             (<[parameterName := p]> (callbackParameterCache b))) ;;;
        ret (CPObject p)
  end.

(** `p.name` for a value returned by `createCallbackParameter`: the name of
    the `Parameter`, or the `name` of the inherited member (functions carry
    their name, `constructor` is `Object`, `__proto__` is an object without
    a name). *)
Definition name_of (s : Store) (p : CallbackParameter) : option string :=
  match p with
  | CPObject l => param_name <$> objects s !! l
  | CPInherited k =>
      if bool_decide (k = "constructor") then Some "Object"
      else if bool_decide (k = "__proto__") then None
      else Some k
  end.

(** `while (builder.parent) { builder = builder.parent; }` *)
Fixpoint find_root (fuel : nat) (builder : loc) : M loc :=
  fun s =>
    match builders s !! builder with
    | None => None
    | Some b =>
        match parent b with
        | None => Some (builder, s)
        | Some p =>
            match fuel with
            | 0 => None
            | S fuel => find_root fuel p s
            end
        end
    end.

(** `builder.parameters` after
    `if (!Array.isArray(builder.parameters)) { builder.parameters = []; }` *)
Definition declared (builder : Builder) : list Descriptor :=
  match get_member builder "parameters" with
  | MProp (PParameters ps) => ps
  | _ => []
  end.

(** The merge or the push of `addParameter` on that array:
    `findIndex(p => p.name === parameter.name)`, then `Object.assign` on
    the entry found, or `push`. *)
Definition declare (parameter : Descriptor) (parameters : list Descriptor)
  : list Descriptor :=
  match list_find (fun p => d_name p = d_name parameter) parameters with
  | Some (existing, p) =>
      <[existing := Object_assign p parameter]> parameters
  | None => parameters ++ [parameter]
  end.

Section Collaborators.

(** `node.toJSON()` of `./node`, which is missing: any function. *)
Variable node_toJSON : BuilderNode -> Json.

(** `ProcessUtils.getCallbackParametersForProcess(process, parameterName)`
    of `@openeo/js-commons`: the parameters a callback passed for
    [parameterName] receives, or the error thrown.  [process] is
    `undefined` for a node of an unknown operation. *)
Variable getCallbackParametersForProcess :
  option Process -> string -> Exn + list Descriptor.

(** `getParentCallbackParameters()`.  `this.parentNode &&
    this.parentParameter` fails for `null` and for the empty string. *)
Definition getParentCallbackParameters (this : loc)
  : M (list CallbackParameter) :=
  b <- get_builder this ;;
  match parentNode b, parentParameter b with
  | Some node, Some parameterName =>
      if bool_decide (parameterName = "") then ret []
      else
        match getCallbackParametersForProcess (node_spec node)
                parameterName with
        | inr params =>
            mapM (fun param => createCallbackParameter this (d_name param))
                 params
        | inl error => console_warn (WarnError error) ;;; ret []
        end
  | _, _ => ret []
  end.

(** `addParameter(parameter, root = true)` *)
Definition addParameter (this : loc) (parameter : Descriptor) (root : bool)
  : M unit :=
  callbackParams <- getParentCallbackParameters this ;;
  s <- get_store ;;
  if existsb (fun p => bool_decide (name_of s p = Some (d_name parameter)))
             callbackParams
  then ret tt (* parameter refers to callback *)
  else
    builder <- (if root then find_root (size (builders s)) this
                else ret this) ;;
    b <- get_builder builder ;;
    put_builder builder
      (set_member b "parameters"
         (PParameters (declare parameter (declared b)))).

(** ** Serialisation *)

Definition PROCESS_META : list string :=
  [ "id"; "summary"; "description"; "categories"; "parameters"; "returns";
    "deprecated"; "experimental"; "exceptions"; "examples"; "links" ].

(** The values of the object `toJSON` returns. *)
Inductive Exported :=
| EGraph (g : gmap string Json)
| EMember (m : Member).

(** `toJSON()`; `Utils.mapObjectValues(obj, f)` maps [f] over the own
    properties of [obj]. *)
Definition toJSON (this : Builder) : gmap string Exported :=
  let process : gmap string Exported :=
    {[ "process_graph" := EGraph (node_toJSON <$> nodes this) ]} in
  fold_left
    (fun process key =>
       match get_member this key with
       | MUndefined => process
       | m => <[key := EMember m]> process
       end)
    PROCESS_META process.

End Collaborators.

(** The catalogues the constructor accepts, in the words of its
    documentation: an array, or an object whose `processes` is an array. *)
Definition recognizable (processes : JsValue) : bool :=
  Array_isArray processes
  || (Utils_isObject processes
      && Array_isArray (get_property processes "processes")).

(** The message the constructor prints for an entry it installs no method
    for. *)
Definition already_exists (process : Process) : Logged :=
  Warn ("Can't create function for process '" +:+ proc_id process +:+
        "'. Already exists in Builder class.").

(** `typeof m === 'undefined'` *)
Definition is_undefined (m : Member) : bool :=
  match m with MUndefined => true | _ => false end.

(** ** Predicates of the statements *)

(** Every stored node is keyed under its own id. *)
Definition nodes_keyed (this : Builder) : Prop :=
  forall id node, nodes this !! id = Some node -> node_id node = id.

(** The callback-parameter cache of [this] holds, under every key, a
    `Parameter` object of the store with that name: what
    `createCallbackParameter`, its only writer, puts there. *)
Definition cache_ok (s : Store) (this : loc) : Prop :=
  exists b, builders s !! this = Some b /\
    forall k p, callbackParameterCache b !! k = Some p ->
                param_name <$> objects s !! p = Some k.

(** [s'] is [s] but for `Parameter` objects created and cached by [this]
    under some of the names [keys]: the console, the other builders and
    every field of [this] except the cache are the same, and the cache
    only grows. *)
Definition caches_more (this : loc) (keys : list string) (s s' : Store)
  : Prop :=
  console s' = console s /\
  objects s `prefix_of` objects s' /\
  (forall l, l <> this -> builders s' !! l = builders s !! l) /\
  (forall b, builders s !! this = Some b ->
     exists c, builders s' !! this = Some (set_callbackParameterCache b c) /\
       callbackParameterCache b ⊆ c /\
       forall k, k ∉ keys -> c !! k = callbackParameterCache b !! k).

(** Decimal digits, and strings that end in one. *)
Definition is_digit (c : ascii) : bool :=
  bool_decide (c ∈ ["0"; "1"; "2"; "3"; "4"; "5"; "6"; "7"; "8"; "9"]%char).

Fixpoint all_digits (s : string) : bool :=
  match s with
  | "" => true
  | String c r => is_digit c && all_digits r
  end.

Fixpoint ends_in_digit (s : string) : bool :=
  match s with
  | "" => false
  | String c "" => is_digit c
  | String _ r => ends_in_digit r
  end.

(** The ids in [seen] were made from stems that do not end in a digit and
    counters that the id counters [counters] have reached. *)
Definition ids_bounded (seen : list string) (counters : gmap string N)
  : Prop :=
  forall id, id ∈ seen ->
    exists k c n, id = k +:+ pretty c /\ ends_in_digit k = false /\
                  counters !! k = Some n /\ (c <= n)%N.

(** Every parent link of the store points to a builder allocated earlier:
    a nested builder is constructed with an existing builder as parent. *)
Definition parents_ok (s : Store) : Prop :=
  forall l b p, builders s !! l = Some b -> parent b = Some p ->
                p < l /\ is_Some (builders s !! p).

(** [s'] has the builders of [s], with the same parent links. *)
Definition same_links (s s' : Store) : Prop :=
  forall l, parent <$> builders s' !! l = parent <$> builders s !! l.

(** The builders allocated before [l]. *)
Definition below (s : Store) (l : loc) : gmap loc Builder :=
  filter (fun kv => fst kv < l) (builders s).

(** ** Sequences of ids *)

(** A sequence of calls of `generateId` on one builder: the ids returned,
    in order, and the builder afterwards. *)
Fixpoint generateIds (this : Builder) (names : list string)
  : list string * Builder :=
  match names with
  | [] => ([], this)
  | name :: names =>
      let '(id, this) := generateId this name in
      let '(ids, this) := generateIds this names in
      (id :: ids, this)
  end.

(** The counter of a key of `idCounter`, 0 when it has none. *)
Definition counter_of (this : Builder) (k : string) : N :=
  default 0%N (idCounter this !! k).

(** How many of [names] have the truncated stem [k]. *)
Definition uses (k : string) (names : list string) : nat :=
  length (filter (fun name => stem name = k) names).

(** [k1] is [k2] followed by decimal digits. *)
Definition extends_by_digits (k1 k2 : string) : Prop :=
  exists d, d <> "" /\ all_digits d = true /\ k1 = k2 +:+ d.

(** ** Callbacks *)

(** The parameters of the callback that [b] builds, as
    `getParentCallbackParameters` looks them up: none without a parent
    node or a parent parameter name, and none when the lookup throws. *)
Definition callback_signature
    (signature : option Process -> string -> Exn + list Descriptor)
    (b : Builder) : list Descriptor :=
  match parentNode b, parentParameter b with
  | Some node, Some parameterName =>
      if bool_decide (parameterName = "") then []
      else match signature (node_spec node) parameterName with
           | inr params => params
           | inl _ => []
           end
  | _, _ => []
  end.

(** [r] is the builder without parent that the parent links lead to from
    [l]. *)
Inductive root_of (s : Store) : nat -> nat -> Prop :=
| root_here (l : nat) (b : Builder) :
    builders s !! l = Some b -> parent b = None -> root_of s l l
| root_up (l p r : nat) (b : Builder) :
    builders s !! l = Some b -> parent b = Some p -> root_of s p r ->
    root_of s l r.

(** * The file formats of a back-end: `class FileTypes` *)

(** A value of `data.input` or `data.output`, by what the loops of the
    constructor do with it. *)
Inductive Formats :=
| FNone
    (* `undefined`, `null`, a number or a boolean: `for..in` has no
       iteration *)
| FIndexed (n : nat)
    (* a string or an array of [n] elements: `for..in` enumerates the
       indices, and `Utils.isObject(data[io])` fails in every iteration *)
| FObject (entries : list (string * Json)).
    (* an object: its properties in the order of `for..in`, every key
       once *)

(** The argument of the constructor: an object with its `input` and
    `output`, or a value that `Utils.isObject` rejects. *)
Inductive Response :=
| RObject (input output : Formats)
| ROther.

(** `this.data` *)
Record FormatsData := {
  input : gmap string Json;
  output : gmap string Json
}.

Record FileTypes := { ft_data : FormatsData }.

(** `'input'` and `'output'` *)
Inductive Io := Input | Output.

(** `this.data[io]` *)
Definition formats (this : FileTypes) (io : Io) : gmap string Json :=
  match io with
  | Input => input (ft_data this)
  | Output => output (ft_data this)
  end.

(** What `_findType` returns: `null`, a file format, or the member that
    `this.data[io]`, a plain object, inherits under the name. *)
Inductive Found :=
| FoundNull
| FoundType (v : Json)
| FoundInherited (k : string).

Section FileTypes.

(** `String.prototype.toUpperCase`.  Its results contain no letter `a` to
    `z`, so they are neither `__proto__` nor the name of another member of
    `Object.prototype`: the theorems assume the latter. *)
Variable toUpperCase : string -> string.

(** `for (let type in data[io]) { ... }` on the empty object
    `this.data[io]`. *)
Definition FileTypes_collect (v : Formats) : gmap string Json :=
  match v with
  | FObject entries =>
      fold_left (fun types e => <[toUpperCase (fst e) := snd e]> types)
                entries ∅
  | FIndexed _ | FNone => ∅
  end.

(** `new FileTypes(data)` *)
Definition FileTypes_new (data : Response) : FileTypes :=
  match data with
  | ROther => {| ft_data := {| input := ∅; output := ∅ |} |}
  | RObject i o =>
      {| ft_data := {| input := FileTypes_collect i;
                       output := FileTypes_collect o |} |}
  end.

Definition FileTypes_toJSON (this : FileTypes) : FormatsData := ft_data this.

Definition getInputTypes (this : FileTypes) : gmap string Json :=
  input (ft_data this).

Definition getOutputTypes (this : FileTypes) : gmap string Json :=
  output (ft_data this).

(** `_findType(type, io)`; `type in obj` also holds for a name that [obj]
    inherits. *)
Definition _findType (this : FileTypes) (type : string) (io : Io) : Found :=
  let type := toUpperCase type in
  match formats this io !! type with
  | Some v => FoundType v
  | None =>
      if bool_decide (type ∈ Object_prototype) then FoundInherited type
      else FoundNull
  end.

Definition getInputType (this : FileTypes) (type : string) : Found :=
  _findType this type Input.

Definition getOutputType (this : FileTypes) (type : string) : Found :=
  _findType this type Output.

End FileTypes.

(** The properties of `data[io]` that the constructor copies. *)
Definition entries_of (data : Response) (io : Io) : list (string * Json) :=
  match data, io with
  | RObject (FObject entries) _, Input => entries
  | RObject _ (FObject entries), Output => entries
  | _, _ => []
  end.

(** * The capabilities of a back-end: `class Capabilities` *)

(** Whether a value counts as true in a condition (`!v` is its
    negation); numbers are integers here. *)
Definition truthy (v : JsValue) : bool :=
  match v with
  | VUndefined | VNull => false
  | VBool b => b
  | VNumber z => negb (z =? 0)%Z
  | VString s => negb (bool_decide (s = ""))
  | VFunction | VArray _ | VObject _ => true
  end.

(** An entry of `data.endpoints`, as the API has it: a path and an array
    of HTTP methods, all strings. *)
Record Endpoint := { ep_path : string; ep_methods : list string }.

(** A billing plan: an object with a string `name`, possibly a `default`,
    and other properties. *)
Record Plan := {
  plan_name : string;
  plan_default : option Json;
  plan_fields : gmap string Json
}.

(** `data.billing` when it is truthy; a property that is no array is
    [None] in [bill_plans]. *)
Record Billing := {
  bill_currency : JsValue;
  bill_default_plan : JsValue;
  bill_plans : option (list Plan)
}.

(** The properties of `data` that the class reads; [endpoints] is [None]
    when `data.endpoints` is no array, [billing] when `data.billing` is
    not truthy. *)
Record CapabilitiesData := {
  api_version : JsValue;
  backend_version : JsValue;
  cap_title : JsValue;
  cap_description : JsValue;
  endpoints : option (list Endpoint);
  billing : option Billing
}.

(** The argument of the constructor: an object, or a value that
    `Utils.isObject` rejects. *)
Inductive CapabilitiesResponse :=
| CObject (d : CapabilitiesData)
| COther.

(** An instance; `this.featureMap` is the same for all. *)
Record Capabilities := {
  cap_data : CapabilitiesData;
  features : list string
}.

(** `this.featureMap`, in the order of its properties. *)
Definition featureMap : list (string * string) :=
  [ ("capabilities", "get /");
    ("listFileTypes", "get /output_formats");
    ("listServiceTypes", "get /service_types");
    ("listUdfRuntimes", "get /udf_runtimes");
    ("listCollections", "get /collections");
    ("describeCollection", "get /collections/{collection_id}");
    ("listProcesses", "get /processes");
    ("authenticateOIDC", "get /credentials/oidc");
    ("authenticateBasic", "get /credentials/basic");
    ("describeAccount", "get /me");
    ("listFiles", "get /files/{user_id}");
    ("validateProcessGraph", "post /validation");
    ("createProcessGraph", "post /process_graphs");
    ("listProcessGraphs", "get /process_graphs");
    ("computeResult", "post /result");
    ("listJobs", "get /jobs");
    ("createJob", "post /jobs");
    ("listServices", "get /services");
    ("createService", "post /services");
    ("downloadFile", "get /files/{user_id}/{path}");
    ("openFile", "put /files/{user_id}/{path}");
    ("uploadFile", "put /files/{user_id}/{path}");
    ("deleteFile", "delete /files/{user_id}/{path}");
    ("getJobById", "get /jobs/{job_id}");
    ("describeJob", "get /jobs/{job_id}");
    ("updateJob", "patch /jobs/{job_id}");
    ("deleteJob", "delete /jobs/{job_id}");
    ("estimateJob", "get /jobs/{job_id}/estimate");
    ("startJob", "post /jobs/{job_id}/results");
    ("stopJob", "delete /jobs/{job_id}/results");
    ("listResults", "get /jobs/{job_id}/results");
    ("downloadResults", "get /jobs/{job_id}/results");
    ("describeProcessGraph", "get /process_graphs/{process_graph_id}");
    ("getProcessGraphById", "get /process_graphs/{process_graph_id}");
    ("updateProcessGraph", "patch /process_graphs/{process_graph_id}");
    ("deleteProcessGraph", "delete /process_graphs/{process_graph_id}");
    ("describeService", "get /services/{service_id}");
    ("getServiceById", "get /services/{service_id}");
    ("updateService", "patch /services/{service_id}");
    ("deleteService", "delete /services/{service_id}") ].

(** `this.featureMap[name]` when it is a string: the own property of that
    name.  For any other name the value is `undefined` or a function that
    the object inherits, and no string is `===` to it. *)
Definition featureMap_get (name : string) : option string :=
  snd <$> find (fun e => bool_decide (fst e = name)) featureMap.

Section Capabilities.

(** `String.prototype.toLowerCase` *)
Variable toLowerCase : string -> string.

(** `new Capabilities(data)` *)
Definition Capabilities_new (data : CapabilitiesResponse)
  : Exn + Capabilities :=
  match data with
  | COther => inl (Error "No capabilities retrieved.")
  | CObject d =>
      if negb (truthy (api_version d)) then
        inl (Error "Invalid capabilities: No API version retrieved")
      else
        match endpoints d with
        | None => inl (Error "Invalid capabilities: No endpoints retrieved")
        | Some es =>
            inr {| cap_data := d;
                   features :=
                     concat
                       (map (fun e =>
                               map (fun method =>
                                      toLowerCase
                                        (method +:+ " " +:+ ep_path e))
                                   (ep_methods e))
                            es) |}
        end
  end.

Definition toPlainObject (this : Capabilities) : CapabilitiesData :=
  cap_data this.

Definition apiVersion (this : Capabilities) : JsValue :=
  api_version (cap_data this).

Definition backendVersion (this : Capabilities) : JsValue :=
  backend_version (cap_data this).

(** `this.data.title || ""` *)
Definition title (this : Capabilities) : JsValue :=
  if truthy (cap_title (cap_data this)) then cap_title (cap_data this)
  else VString "".

Definition description (this : Capabilities) : JsValue :=
  if truthy (cap_description (cap_data this))
  then cap_description (cap_data this)
  else VString "".

(** `listFeatures()`; `includes` compares strings by value. *)
Definition listFeatures (this : Capabilities) : list string :=
  fst <$> filter (fun e => snd e ∈ features this) featureMap.

(** `hasFeature(methodName)` *)
Definition hasFeature (this : Capabilities) (methodName : string) : bool :=
  match featureMap_get methodName with
  | Some feature => existsb (fun e => bool_decide (e = feature)) (features this)
  | None => false
  end.




End Capabilities.

(** * Utilities: `class Util` *)

(** ** URLs *)

(** `baseUrl.replace(/\/$/, "")`: without the flag `m`, `$` matches at the
    end of the string only. *)
Fixpoint remove_trailing_slash (s : string) : string :=
  match s with
  | "" => ""
  | String c "" => if Ascii.eqb c "/" then "" else s
  | String c r => String c (remove_trailing_slash r)
  end.

(** `normalizeUrl(baseUrl, path = null)`; [path] is any value. *)
Definition normalizeUrl (baseUrl : string) (path : JsValue) : string :=
  let url := remove_trailing_slash baseUrl in
  match path with
  | VString path =>
      let path :=
        if negb (String.eqb (substr 0 1 path) "/") then "/" +:+ path
        else path in
      url +:+ path
  | _ => url
  end.

(** ** Version numbers *)

(** `v.split('.')` *)
Fixpoint split_dot (v : string) : list string :=
  match v with
  | "" => [""]
  | String c r =>
      if Ascii.eqb c "." then "" :: split_dot r
      else match split_dot r with
           | p :: ps => String c p :: ps
           | [] => [String c ""]
           end
  end.

(** `/^\d+$/.test(part)` *)
Definition is_number (part : string) : bool :=
  negb (String.eqb part "") && all_digits part.

(** `validateVersionNumber(v)` *)
Definition validateVersionNumber (v : JsValue) : bool :=
  match v with
  | VString v => forallb is_number (split_dot v)
  | _ => false
  end.

(** An operand of the comparisons in `compareVersionNumbers`: a part, or
    the number 0 that stands for a part the version does not have. *)
Inductive Operand :=
| OString (s : string)
| OZero.

(** `typeof parts[i] !== 'undefined' ? parts[i] : 0` *)
Definition operand (parts : list string) (i : nat) : Operand :=
  match parts !! i with
  | Some part => OString part
  | None => OZero
  end.

(** `a < b` for two strings: by code units, a proper prefix first. *)
Fixpoint string_lt (a b : string) : bool :=
  match a, b with
  | _, "" => false
  | "", String _ _ => true
  | String c a, String d b =>
      if (N_of_ascii c <? N_of_ascii d)%N then true
      else if (N_of_ascii d <? N_of_ascii c)%N then false
      else string_lt a b
  end.

(** The number a string of decimal digits denotes. *)
Definition Number_of (s : string) : N :=
  fold_left (fun n c => (10 * n + (N_of_ascii c - 48))%N)
            (list_ascii_of_string s) 0%N.

(** `left < right`.  Two strings are compared as strings.  Otherwise both
    are converted to numbers: the other operand is the number 0, and a
    numeral converts to a number above 0 exactly when it denotes one, also
    when it is too long to be converted exactly. *)
Definition js_lt (left right : Operand) : bool :=
  match left, right with
  | OString a, OString b => string_lt a b
  | OZero, OString b => (0 <? Number_of b)%N
  | OString _, OZero => false
  | OZero, OZero => false
  end.

(** The loop `for (var i = 0; i < Math.max(v1p.length, v2p.length); ++i)`
    from [i] on, with the number of iterations left as fuel. *)
Fixpoint compare_loop (fuel i : nat) (v1p v2p : list string) : Z :=
  match fuel with
  | 0 => 0
  | S fuel =>
      let left := operand v1p i in
      let right := operand v2p i in
      if js_lt left right then (-1)
      else if js_lt right left then 1
      else compare_loop fuel (S i) v1p v2p
  end.

(** `compareVersionNumbers(v1, v2)`; [None] is `null`. *)
Definition compareVersionNumbers (v1 v2 : JsValue) : option Z :=
  if negb (validateVersionNumber v1) || negb (validateVersionNumber v2)
  then None
  else
    match v1, v2 with
    | VString v1, VString v2 =>
        let v1p := split_dot v1 in
        let v2p := split_dot v2 in
        Some (compare_loop (Nat.max (length v1p) (length v2p)) 0 v1p v2p)
    | _, _ => None
    end.

(** The comparison of two versions by the numbers their parts denote,
    a missing part counting as 0. *)
Fixpoint compare_numbers (p q : list N) : Z :=
  match p with
  | [] => if existsb (fun b => (0 <? b)%N) q then (-1) else 0
  | a :: p' =>
      match q with
      | [] => if existsb (fun a => (0 <? a)%N) p then 1 else 0
      | b :: q =>
          if (a <? b)%N then (-1) else if (b <? a)%N then 1
          else compare_numbers p' q
      end
  end.

(** Whether the last character of [s] is [c]. *)
Fixpoint ends_with (c : ascii) (s : string) : bool :=
  match s with
  | "" => false
  | String d "" => Ascii.eqb d c
  | String _ r => ends_with c r
  end.

(** ** Hashing *)

From stdpp Require sorting.

(** The values of `a` in `hashString` are integers below 2^53 in absolute
    value, which Numbers hold exactly: they are modelled by [Z].  The
    operators `<<`, `>>`, `^` and `&` convert their operands to 32-bit
    integers. *)
Definition ToInt32 (z : Z) : Z := ((z + 2 ^ 31) mod 2 ^ 32 - 2 ^ 31)%Z.

Definition ToUint32 (z : Z) : Z := (z mod 2 ^ 32)%Z.

(** `a << n`, `a >> n`, `a ^ b` and `a & b` *)
Definition js_shl (a n : Z) : Z := ToInt32 (Z.shiftl (ToInt32 a) n).

Definition js_sar (a n : Z) : Z := Z.shiftr (ToInt32 a) n.

Definition js_xor (a b : Z) : Z := Z.lxor (ToInt32 a) (ToInt32 b).

Definition js_and (a b : Z) : Z := Z.land (ToInt32 a) (ToInt32 b).

(** One iteration of the loop of `hashString`, for the character [c]. *)
Definition hash_step (a : Z) (c : ascii) : Z :=
  let a := (a + Z.of_N (N_of_ascii c))%Z in
  let a := (a + js_shl a 10)%Z in
  js_xor a (js_sar a 6).

(** `for (a = 0, c = b.length; c--; ) { ... }`: the characters are taken
    from the last to the first. *)
Fixpoint hash_loop (b : string) : Z :=
  match b with
  | "" => 0%Z
  | String c r => hash_step (hash_loop r) c
  end.

Definition hex_digit (d : Z) : ascii :=
  nth (Z.to_nat d) (list_ascii_of_string "0123456789abcdef") "0"%char.

Fixpoint hex_digits (fuel : nat) (n : Z) (acc : string) : string :=
  match fuel with
  | 0 => acc
  | S fuel =>
      if (n =? 0)%Z then acc
      else hex_digits fuel (n / 16)%Z (String (hex_digit (n mod 16)%Z) acc)
  end.

(** `n.toString(16)` for 0 <= n < 2^32 *)
Definition toString16 (n : Z) : string :=
  if (n =? 0)%Z then "0" else hex_digits 8 n "".

(** `hashString(b)` *)
Definition hashString (b : string) : string :=
  let a := hash_loop b in
  let a := (a + js_shl a 3)%Z in
  let a := js_xor a (js_sar a 11) in
  let a := (a + js_shl a 15)%Z in
  toString16 (ToUint32 (js_and a 4294967295)).

(** The values `hash` distinguishes. *)
Inductive HValue :=
| HBoolean (b : bool)
| HNumber (repr : string)
    (* a number, given by the string `o.toString()` *)
| HString (s : string)
| HNull
| HObject (props : list (string * HValue))
    (* an object that is no array: its own enumerable properties in the
       order of `Object.keys`, every key once *)
| HArray (elems : list HValue)
    (* an array without holes *)
| HOther (type : string).
    (* `undefined`, a function, a symbol: given by `typeof o` *)

(** The order of `sort()` without a comparison function, on strings. *)
Definition string_le (a b : string) : Prop := string_lt b a = false.

#[global] Instance string_le_dec (a b : string) : Decision (string_le a b) :=
  bool_eq_dec (string_lt b a) false.

(** `keys.sort()` *)
Definition sort (keys : list string) : list string :=
  sorting.merge_sort string_le keys.

(** `Object.keys(o)` of an array of length [n]. *)
Definition indices (n : nat) : list string :=
  (fun i => pretty (N.of_nat i)) <$> seq 0 n.

(** `Util.hash(o[k])`, looked up in the hashes of the properties. *)
Definition hash_of_key (hashed : list (string * string)) (k : string)
  : string :=
  match find (fun e => bool_decide (fst e = k)) hashed with
  | Some e => snd e
  | None => ""
  end.

(** `hashString(Object.keys(o).sort().map(k => "o:" + k + ":" +
    Util.hash(o[k])).join("::"))`, given the hashes of the properties. *)
Definition hash_properties (hashed : list (string * string)) : string :=
  hashString
    (String.concat "::"
       ((fun k => "o:" +:+ k +:+ ":" +:+ hash_of_key hashed k)
          <$> sort (fst <$> hashed))).

(** `hash(o)` *)
Fixpoint hash (o : HValue) : string :=
  match o with
  | HBoolean b => hashString ("b:" +:+ (if b then "true" else "false"))
  | HNumber repr => hashString ("n:" +:+ repr)
  | HString s => hashString ("s:" +:+ s)
  | HNull => hashString "n:"
  | HObject props =>
      hash_properties ((fun kv => (fst kv, hash (snd kv))) <$> props)
  | HArray elems =>
      hash_properties (zip (indices (length elems)) (hash <$> elems))
  | HOther type => hashString type
  end.

(** ** Concrete builders and stores used in the examples below *)

(** `new Builder([])` *)
Definition empty_builder : Builder := Builder_init [] None None.

(** `process(processId, [])` as data. *)
Definition call_of (processId : string) : Call :=
  {| call_processId := processId; call_args := ArgsArray [];
     call_description := None |}.

(** A catalogue with two processes, `atan2` and `atan`, the builder made
    from it, and 22 calls: `atan2` once, then `atan` 21 times. *)
Definition trig_catalog : list Process :=
  [ {| proc_id := "atan2"; proc_body := ∅ |};
    {| proc_id := "atan"; proc_body := ∅ |} ].

Definition trig_builder : Builder :=
  fst (fold_left install trig_catalog (Builder_init trig_catalog None None, [])).

Definition atan_calls : list Call :=
  call_of "atan2" :: repeat (call_of "atan") 21.

(** A store with one new builder. *)
Definition new_store : Store :=
  {| builders := {[ 0 := empty_builder ]}; objects := []; console := [] |}.

(** The callback-signature lookup for a catalogue in which the `reducer`
    of `reduce_dimension` receives `data` and `context`, and no other
    parameter takes a callback. *)
Definition data_context (process : option Process) (parameterName : string)
  : Exn + list Descriptor :=
  match process with
  | Some p =>
      if bool_decide (proc_id p = "reduce_dimension")
         && bool_decide (parameterName = "reducer")
      then inr [ {| d_name := "data"; d_fields := ∅ |};
                 {| d_name := "context"; d_fields := ∅ |} ]
      else inr []
  | None => inr []
  end.

(** A lookup that always throws. *)
Definition no_signature (process : option Process) (parameterName : string)
  : Exn + list Descriptor :=
  inl (Error "Invalid process or parameter").

(** A root builder (0) and the builder (1) of the callback passed as
    `reducer` to a `reduce_dimension` node of the root, before any of its
    callback parameters is created. *)
Definition reduce_node : BuilderNode :=
  {| node_id := "reduce1"; node_process_id := "reduce_dimension";
     node_spec := Some {| proc_id := "reduce_dimension"; proc_body := ∅ |};
     node_arguments := ArgsObject ∅; node_description := None;
     node_result := false |}.

Definition nested_store : Store :=
  {| builders :=
       {[ 0 := empty_builder;
          1 := setParent (Builder_init [] (Some 0) None) reduce_node "reducer" ]};
     objects := []; console := [] |}.

(** Two descriptors of the parameter `collection-id`. *)
Definition collection_v1 : Descriptor :=
  {| d_name := "collection-id";
     d_fields := {[ "description" := JStr "The collection";
                    "optional" := JBool true ]} |}.

Definition collection_v2 : Descriptor :=
  {| d_name := "collection-id";
     d_fields := {[ "description" := JStr "The ID of the collection to load";
                    "schema" := JObj {[ "type" := JStr "string" ]} ]} |}.

(** The parameter `data`, as a callback of `reducer` would declare it. *)
Definition data_parameter : Descriptor :=
  {| d_name := "data"; d_fields := ∅ |}.

(** Four calls as in a typical process graph. *)
Definition workflow_calls : list Call :=
  [ call_of "load_collection"; call_of "reduce_dimension";
    call_of "reduce_dimension"; call_of "save_result" ].

(** ** Upper case of ASCII strings *)

Definition upper_char (c : ascii) : ascii :=
  let n := nat_of_ascii c in
  if Nat.leb 97 n && Nat.leb n 122 then ascii_of_nat (n - 32) else c.

(** `toUpperCase` on strings of ASCII characters. *)
Fixpoint ascii_toUpperCase (s : string) : string :=
  match s with
  | "" => ""
  | String c r => String (upper_char c) (ascii_toUpperCase r)
  end.

(** No character is a letter `a` to `z`. *)
Fixpoint no_lower (s : string) : bool :=
  match s with
  | "" => true
  | String c r =>
      negb (Nat.leb 97 (nat_of_ascii c) && Nat.leb (nat_of_ascii c) 122)
      && no_lower r
  end.

(** A response of `GET /file_formats` with `GTiff` under two spellings. *)
Definition formats_response : Response :=
  RObject (FObject [ ("GTiff", JStr "GeoTiff"); ("png", JStr "PNG");
                     ("gtiff", JStr "Geo-Tiff") ])
          (FObject [ ("netCDF", JStr "Network Common Data Form") ]).

(** ** Lower case of ASCII strings *)

Definition lower_char (c : ascii) : ascii :=
  let n := nat_of_ascii c in
  if Nat.leb 65 n && Nat.leb n 90 then ascii_of_nat (n + 32) else c.

(** `toLowerCase` on strings of ASCII characters. *)
Fixpoint ascii_toLowerCase (s : string) : string :=
  match s with
  | "" => ""
  | String c r => String (lower_char c) (ascii_toLowerCase r)
  end.

(** A capabilities response with three endpoints and two billing plans. *)
Definition capabilities_data : CapabilitiesData :=
  {| api_version := VString "1.0.0";
     backend_version := VString "2.3";
     cap_title := VUndefined;
     cap_description := VString "An example back-end";
     endpoints :=
       Some [ {| ep_path := "/collections"; ep_methods := ["GET"] |};
              {| ep_path := "/jobs"; ep_methods := ["GET"; "POST"] |};
              {| ep_path := "/jobs/{job_id}";
                 ep_methods := ["GET"; "DELETE"] |} ];
     billing :=
       Some {| bill_currency := VString "EUR";
               bill_default_plan := VString "Free";
               bill_plans :=
                 Some [ {| plan_name := "free"; plan_default := None;
                           plan_fields := ∅ |};
                        {| plan_name := "premium";
                           plan_default := Some (JBool true);
                           plan_fields := ∅ |} ] |} |}.

Definition capabilities_features : list string :=
  [ "get /collections"; "get /jobs"; "post /jobs"; "get /jobs/{job_id}";
    "delete /jobs/{job_id}" ].

(** * Properties *)

(** ** Strings *)

Lemma substring_all (s : string) : String.substring 0 (String.length s) s = s.
Proof. induction s as [|c r IH]; simpl; [done | by rewrite IH]. Qed.

Lemma index_underscore_cons (c : ascii) (r : string) :
  String.index 0 "_" (String c r) =
  if Ascii.eqb c "_" then Some 0 else S <$> String.index 0 "_" r.
Proof.
  cbn [String.index String.prefix].
  destruct (ascii_dec "_" c) as [<-|Hne].
  - destruct r; reflexivity.
  - destruct (Ascii.eqb_spec c "_") as [->|_]; [done |].
    destruct (String.index 0 "_" r); reflexivity.
Qed.

(** `name.replace("_", "")` deletes the first underscore and nothing else. *)
Lemma replace_underscore (s : string) :
  replace "_" "" s = remove_first_underscore s.
Proof.
  induction s as [|c r IH]; [reflexivity |].
  unfold replace in *. rewrite index_underscore_cons.
  cbn [remove_first_underscore].
  destruct (Ascii.eqb c "_").
  - cbn. rewrite Nat.sub_0_r. apply substring_all.
  - rewrite <- IH. destruct (String.index 0 "_" r) as [i|]; [|reflexivity].
    cbn. by rewrite Nat.add_1_r.
Qed.

Lemma substr_take (n : nat) (s : string) : substr 0 n s = take_string n s.
Proof.
  unfold substr. revert s.
  induction n as [|n IH]; intros [|c r]; simpl; try done. by rewrite IH.
Qed.

Lemma take_string_length (n : nat) (s : string) :
  String.length (take_string n s) <= n.
Proof.
  revert s. induction n as [|n IH]; intros [|c r]; simpl; try lia.
  specialize (IH r). lia.
Qed.

Lemma generateId_key (name : string) :
  substr 0 6 (replace "_" "" name) = stem name.
Proof. by rewrite substr_take, replace_underscore. Qed.

Lemma stem_length (name : string) : String.length (stem name) <= 6.
Proof. apply take_string_length. Qed.

(** No inherited member has a name as short as a key of `idCounter`. *)
Lemma Object_prototype_long (k : string) :
  k ∈ Object_prototype -> 6 < String.length k.
Proof.
  unfold Object_prototype. rewrite !elem_of_cons, elem_of_nil.
  intros H. repeat (destruct H as [-> | H]; [simpl; lia |]). done.
Qed.

(** The key that `generateId` looks up in `idCounter` never names an
    inherited member. *)
Lemma stem_not_inherited (name : string) :
  bool_decide (stem name ∈ Object_prototype) = false.
Proof.
  apply bool_decide_eq_false_2.
  intros H%Object_prototype_long. pose proof (stem_length name). lia.
Qed.

(** ** Id generation *)

Lemma generateId_unfold (this : Builder) (name : string) :
  generateId this name =
  let counter :=
    match idCounter this !! stem name with
    | Some n => if (n =? 0)%N then 1%N else (n + 1)%N
    | None => 1%N
    end in
  (stem name +:+ pretty counter,
   set_idCounter this (<[stem name := counter]> (idCounter this))).
Proof. unfold generateId. by rewrite generateId_key. Qed.

Lemma generateId_nodes (this : Builder) (name : string) :
  nodes (snd (generateId this name)) = nodes this.
Proof. by rewrite generateId_unfold. Qed.

(** C1 (as the code has it): `generateId` keeps the case of the stem,
    deletes its first underscore only, keeps at most six code units and
    appends the counter of that truncated stem, which is 1 on first use in
    the builder and one more on every later use; the other counters and
    fields are untouched.  A first use, followed by a call for any name
    with the same truncated stem, yields the suffixes 1 and 2. *)
Theorem generateId_stem_counter (this : Builder) (name : string) :
  let k := stem name in
  let id := fst (generateId this name) in
  let this' := snd (generateId this name) in
  String.length k <= 6 ∧
  (∃ c : N, id = k +:+ pretty c ∧ idCounter this' !! k = Some c ∧ c ≠ 0%N ∧
     (idCounter this !! k = None -> c = 1%N) ∧
     (∀ n, idCounter this !! k = Some n -> n ≠ 0%N -> c = (n + 1)%N)) ∧
  (∀ k', k' ≠ k -> idCounter this' !! k' = idCounter this !! k') ∧
  this' = set_idCounter this (idCounter this') ∧
  (idCounter this !! k = None ->
   id = k +:+ "1" ∧
   ∀ name', stem name' = k -> fst (generateId this' name') = k +:+ "2").
Proof.
  cbv zeta. rewrite generateId_unfold. cbn [fst snd].
  split; [apply stem_length |].
  set (c := match idCounter this !! stem name with
            | Some n => if (n =? 0)%N then 1%N else (n + 1)%N
            | None => 1%N
            end).
  split; [| split; [| split]].
  - exists c. split; [done |]. split; [apply lookup_insert_eq |].
    subst c. destruct (idCounter this !! stem name) as [n|] eqn:Hn.
    + destruct (N.eqb_spec n 0) as [->|Hn0].
      * repeat split; try done. intros n [= <-] ?. done.
      * repeat split; try done; [lia |]. by intros n' [= <-] _.
    + repeat split; try done.
  - intros k' Hk'. cbn. by rewrite lookup_insert_ne.
  - reflexivity.
  - intros Hfresh. subst c. rewrite Hfresh. split; [reflexivity |].
    intros name' Hstem. rewrite generateId_unfold, Hstem. cbn.
    by rewrite lookup_insert_eq.
Qed.

(** ** Nodes *)

Lemma process_unfold (this : Builder) (processId : string) (args : Args)
    (description : option string) :
  process this processId args description =
  let node :=
    {| node_id := fst (generateId this processId);
       node_process_id := processId; node_spec := spec this processId;
       node_arguments := args; node_description := description;
       node_result := false |} in
  (node,
   set_nodes (snd (generateId this processId))
     (<[node_id node := node]> (nodes this)),
   match spec this processId with
   | Some _ => []
   | None => [Warn ("Process doesn't exist: " +:+ processId)]
   end).
Proof.
  unfold process, BuilderNode_new.
  pose proof (generateId_nodes this processId) as Hnodes.
  destruct (generateId this processId) as [id this'] eqn:Hgen. cbn in *.
  by rewrite Hnodes.
Qed.

Lemma process_nodes_keyed (this : Builder) (processId : string) (args : Args)
    (description : option string) :
  nodes_keyed this ->
  nodes_keyed (snd (fst (process this processId args description))).
Proof.
  intros Hk id node. rewrite process_unfold. cbn.
  destruct (decide (fst (generateId this processId) = id)) as [<-|Hne].
  - rewrite lookup_insert_eq. by intros [= <-].
  - rewrite lookup_insert_ne by done. apply Hk.
Qed.

Lemma process_all_nodes_keyed (calls : list Call) (this : Builder) :
  nodes_keyed this -> nodes_keyed (snd (fst (process_all this calls))).
Proof.
  revert this. induction calls as [|c calls IH]; intros this Hk; [done |].
  cbn [process_all].
  pose proof (process_nodes_keyed this (call_processId c) (call_args c)
                (call_description c) Hk) as Hk'.
  destruct (process this _ _ _) as [[node this1] w]. cbn in Hk'.
  specialize (IH this1 Hk').
  destruct (process_all this1 calls) as [[rest this2] w']. exact IH.
Qed.

(** C2, at the failing input: on a builder for a catalogue with `atan2` and
    `atan`, the call of `atan2` and the 21st call of `atan` both get the id
    `atan21`; the 22 nodes returned do not have pairwise distinct ids, the
    node map holds 21 nodes, and under `atan21` it holds the `atan` node:
    the `atan2` node is no longer stored. *)
Theorem process_ids_collide :
  let '(created, this, warnings) := process_all trig_builder atan_calls in
  Forall (fun c => is_Some (spec trig_builder (call_processId c))) atan_calls ∧
  warnings = [] ∧
  length created = 22 ∧
  node_id <$> created !! 0 = Some "atan21" ∧
  node_process_id <$> created !! 0 = Some "atan2" ∧
  node_id <$> created !! 21 = Some "atan21" ∧
  ¬ NoDup (node_id <$> created) ∧
  size (nodes this) = 21 ∧
  node_process_id <$> nodes this !! "atan21" = Some "atan".
Proof.
  destruct (process_all trig_builder atan_calls) as [[created this] warnings]
    eqn:Hrun.
  vm_compute in Hrun. injection Hrun as <- <- <-.
  split.
  { unfold atan_calls. repeat (constructor; [by eexists |]). constructor. }
  repeat (split; [reflexivity |]).
  split; [| split; reflexivity].
  intros Hnd. cbn in Hnd. apply NoDup_cons in Hnd as [Hnotin _].
  apply Hnotin. rewrite !elem_of_cons. do 20 right. by left.
Qed.

(** C3, on the constructor of `BuilderNode` as the spec describes it: for an
    operation that the catalogue does not have, `process` returns a node
    for that operation with the arguments and the description given,
    stores it under its id, and writes one warning. *)
Theorem process_unknown_operation (this : Builder) (processId : string)
    (args : Args) (description : option string) :
  spec this processId = None ->
  ∃ node this',
    process this processId args description =
      (node, this', [Warn ("Process doesn't exist: " +:+ processId)]) ∧
    nodes this' !! node_id node = Some node ∧
    node_id node = fst (generateId this processId) ∧
    node_process_id node = processId ∧
    node_arguments node = args ∧
    node_description node = description.
Proof.
  intros Hspec. rewrite process_unfold, Hspec. cbv zeta.
  eexists _, _. split; [reflexivity |]. cbn.
  split; [apply lookup_insert_eq | done].
Qed.

(** ** Distinct ids *)

Lemma pretty_N_char_digit (x : N) : is_digit (pretty_N_char x) = true.
Proof. unfold pretty_N_char. by repeat case_match. Qed.

Lemma pretty_N_go_digits (x : N) (s : string) :
  all_digits s = true -> all_digits (pretty_N_go x s) = true.
Proof.
  revert s. induction (N.lt_wf_0 x) as [x _ IH]; intros s Hs.
  assert (x = 0 ∨ 0 < x)%N as [->|Hpos] by lia.
  - by rewrite pretty_N_go_0.
  - rewrite pretty_N_go_step by done. apply IH; [by apply N.div_lt |].
    cbn. by rewrite pretty_N_char_digit.
Qed.

(** The decimal numeral of a counter consists of digits. *)
Lemma pretty_digits (n : N) : all_digits (pretty n) = true.
Proof.
  unfold pretty, pretty_N. case_decide; [done |]. by apply pretty_N_go_digits.
Qed.

Lemma all_digits_app (k d : string) :
  all_digits (k +:+ d) = all_digits k && all_digits d.
Proof.
  induction k as [|c r IH]; [done |].
  change (String c r +:+ d) with (String c (r +:+ d)).
  cbn [all_digits]. by rewrite IH, andb_assoc.
Qed.

Lemma all_digits_ends (k : string) :
  all_digits k = true -> k ≠ "" -> ends_in_digit k = true.
Proof.
  induction k as [|c r IH]; [done |]. cbn. intros [Hc Hr]%andb_true_iff _.
  destruct r as [|c' r']; [done |]. by apply IH.
Qed.

Lemma ends_in_digit_tail (c : ascii) (r : string) :
  ends_in_digit (String c r) = false -> ends_in_digit r = false.
Proof. destruct r; [done |]. by cbn. Qed.

(** A stem that does not end in a digit can be read off the id. *)
Lemma stem_digits_inj (k1 k2 d1 d2 : string) :
  ends_in_digit k1 = false -> ends_in_digit k2 = false ->
  all_digits d1 = true -> all_digits d2 = true ->
  k1 +:+ d1 = k2 +:+ d2 -> k1 = k2 ∧ d1 = d2.
Proof.
  revert k2. induction k1 as [|c1 r1 IH]; intros [|c2 r2] Hk1 Hk2 Hd1 Hd2 Heq.
  - done.
  - change (d1 = String c2 r2 +:+ d2) in Heq. subst d1.
    rewrite all_digits_app in Hd1. apply andb_true_iff in Hd1 as [Hk _].
    apply all_digits_ends in Hk; [congruence | done].
  - change (String c1 r1 +:+ d1 = d2) in Heq. subst d2.
    rewrite all_digits_app in Hd2. apply andb_true_iff in Hd2 as [Hk _].
    apply all_digits_ends in Hk; [congruence | done].
  - change (String c1 (r1 +:+ d1) = String c2 (r2 +:+ d2)) in Heq.
    injection Heq as -> Heq.
    destruct (IH r2) as [-> ->]; try done; by eapply ends_in_digit_tail.
Qed.

Lemma process_id (this : Builder) (processId : string) (args : Args)
    (description : option string) :
  ∃ c : N,
    node_id (fst (fst (process this processId args description)))
      = stem processId +:+ pretty c ∧
    idCounter (snd (fst (process this processId args description)))
      = <[stem processId := c]> (idCounter this) ∧
    ∀ n, idCounter this !! stem processId = Some n -> (n < c)%N.
Proof.
  rewrite process_unfold, generateId_unfold. cbn.
  eexists. split; [done |]. split; [done |].
  intros n ->. destruct (N.eqb_spec n 0); lia.
Qed.

Lemma process_all_fresh (calls : list Call) (this : Builder)
    (seen : list string) :
  Forall (fun c => ends_in_digit (stem (call_processId c)) = false) calls ->
  ids_bounded seen (idCounter this) ->
  NoDup (node_id <$> fst (fst (process_all this calls))) ∧
  ∀ id, id ∈ node_id <$> fst (fst (process_all this calls)) -> id ∉ seen.
Proof.
  revert this seen. induction calls as [|call calls IH]; intros this seen Hall Hb.
  { cbn. split; [apply NoDup_nil_2 | by intros id ?%elem_of_nil]. }
  apply Forall_cons in Hall as [Hcall Hall]. cbn [process_all].
  destruct (process_id this (call_processId call) (call_args call)
              (call_description call)) as (c & Hid & Hcnt & Hlt).
  destruct (process this _ _ _) as [[node this1] w]. cbn [fst snd] in *.
  assert (node_id node ∉ seen) as Hfresh.
  { intros Hin. destruct (Hb _ Hin) as (k & c0 & n & Heq & Hk & Hn & Hle).
    rewrite Hid in Heq.
    apply stem_digits_inj in Heq as [<- Hc]; try done; try apply pretty_digits.
    apply (inj pretty) in Hc as <-. specialize (Hlt n Hn). lia. }
  assert (ids_bounded (node_id node :: seen) (idCounter this1)) as Hb1.
  { intros id [-> | Hin]%elem_of_cons.
    - exists (stem (call_processId call)), c, c. rewrite Hcnt.
      split; [done |]. split; [done |]. split; [apply lookup_insert_eq | lia].
    - destruct (Hb _ Hin) as (k & c0 & n & Heq & Hk & Hn & Hle).
      rewrite Hcnt. destruct (decide (stem (call_processId call) = k)) as [Hs|Hs].
      + exists k, c0, c. subst k. rewrite lookup_insert_eq.
        specialize (Hlt n Hn). repeat split; try done. lia.
      + exists k, c0, n. by rewrite lookup_insert_ne. }
  destruct (IH this1 (node_id node :: seen) Hall Hb1) as [Hnd Hnot].
  destruct (process_all this1 calls) as [[rest this2] w']. cbn [fst snd] in *.
  rewrite fmap_cons. split.
  - apply NoDup_cons. split; [| done]. intros Hin.
    apply (Hnot _ Hin). left.
  - intros id [-> | Hin]%elem_of_cons; [done |].
    intros Hseen. apply (Hnot _ Hin). by right.
Qed.

(** When no truncated stem of the operations called ends in a digit, the
    nodes that a sequence of calls of `process` on one builder returns have
    pairwise distinct ids. *)
Theorem process_all_distinct_ids (calls : list Call) (this : Builder) :
  Forall (fun c => ends_in_digit (stem (call_processId c)) = false) calls ->
  NoDup (node_id <$> fst (fst (process_all this calls))).
Proof.
  intros Hall. apply (process_all_fresh calls this [] Hall).
  by intros id ?%elem_of_nil.
Qed.

(** ** Serialisation *)

(** On a metadata key, `this[key]` is the own property of that name: the
    data fields and the prototypes define none of these names. *)
Lemma get_member_meta (this : Builder) (key : string) :
  key ∈ PROCESS_META ->
  get_member this key =
  match props this !! key with Some v => MProp v | None => MUndefined end.
Proof.
  unfold PROCESS_META. rewrite !elem_of_cons, elem_of_nil.
  intros H. unfold get_member.
  repeat (destruct H as [-> | H]; [reflexivity |]). done.
Qed.

Section Serialisation.

Variable node_toJSON : BuilderNode -> Json.

Lemma toJSON_fold (this : Builder) (keys : list string)
    (process : gmap string Exported) (key : string) :
  fold_left
    (fun process key =>
       match get_member this key with
       | MUndefined => process
       | m => <[key := EMember m]> process
       end) keys process !! key =
  if bool_decide (key ∈ keys) then
    match get_member this key with
    | MUndefined => process !! key
    | m => Some (EMember m)
    end
  else process !! key.
Proof.
  revert process. induction keys as [|k keys IH]; intros process; [done |].
  cbn [fold_left]. rewrite IH. clear IH.
  destruct (decide (k = key)) as [->|Hne].
  - rewrite (bool_decide_eq_true_2 (key ∈ key :: keys)) by left.
    destruct (get_member this key) eqn:Hm;
      rewrite ?lookup_insert_eq; by destruct (bool_decide (key ∈ keys)).
  - assert (bool_decide (key ∈ k :: keys) = bool_decide (key ∈ keys)) as ->.
    { apply bool_decide_ext. rewrite elem_of_cons.
      split; [intros [Heq|?]; [by subst | done] | by right]. }
    destruct (get_member this k); rewrite ?lookup_insert_ne by done; done.
Qed.

(** C4: the object `toJSON` returns has the field `process_graph`, which
    maps the id of every stored node to the serialisation of that node and
    has no other key; of the other keys it has exactly the metadata keys
    that are set on the builder, each with the builder's value. *)
Theorem toJSON_process_graph_and_meta (this : Builder) :
  (∃ g, toJSON node_toJSON this !! "process_graph" = Some (EGraph g) ∧
        ∀ id, g !! id = node_toJSON <$> nodes this !! id) ∧
  (∀ key, key ≠ "process_graph" ->
     toJSON node_toJSON this !! key =
     if bool_decide (key ∈ PROCESS_META)
     then EMember ∘ MProp <$> props this !! key
     else None).
Proof.
  unfold toJSON. split.
  - exists (node_toJSON <$> nodes this). split; [| intros; apply lookup_fmap].
    rewrite toJSON_fold.
    rewrite (bool_decide_eq_false_2 ("process_graph" ∈ PROCESS_META)).
    + apply lookup_singleton_eq.
    + unfold PROCESS_META. rewrite !elem_of_cons, elem_of_nil.
      intros H. repeat (destruct H as [H | H]; [discriminate |]). done.
  - intros key Hkey. rewrite toJSON_fold.
    rewrite lookup_singleton_ne by done.
    case_bool_decide as Hmeta; [| done].
    rewrite (get_member_meta this key Hmeta).
    by destruct (props this !! key).
Qed.

End Serialisation.

(** ** Construction *)

Lemma install_unfold (this : Builder) (console : list Logged) (p : Process) :
  install (this, console) p =
  if is_undefined (get_member this (proc_id p))
  then (set_member this (proc_id p) (PMethod (proc_id p)), console)
  else (this, console ++ [already_exists p]).
Proof.
  unfold install, already_exists.
  by destruct (get_member this (proc_id p)).
Qed.

(** The loop writes to [props] only. *)
Lemma install_fields (st : Builder * list Logged) (p : Process) :
  fst (install st p) = set_props (fst st) (props (fst (install st p))).
Proof.
  destruct st as [this console]. rewrite install_unfold.
  destruct (is_undefined _); [done |]. by destruct this.
Qed.

Lemma fold_install_fields (ps : list Process) (st : Builder * list Logged) :
  fst (fold_left install ps st) =
  set_props (fst st) (props (fst (fold_left install ps st))).
Proof.
  revert st. induction ps as [|p ps IH]; intros st; cbn [fold_left].
  - by destruct st as [[] ?].
  - rewrite IH at 1. rewrite (install_fields st p) at 1. reflexivity.
Qed.

Lemma recognizable_catalog_of (processes : JsValue) :
  catalog_of processes =
  if recognizable processes
  then inr (if Array_isArray processes then elements processes
            else elements (get_property processes "processes"))
  else inl invalid_catalog.
Proof.
  unfold catalog_of, recognizable.
  destruct (Array_isArray processes); [done |]. cbn.
  by destruct (Utils_isObject processes && _).
Qed.

Lemma entries_Some (ps : list Process) : entries (Some <$> ps) = ps.
Proof.
  unfold entries. induction ps as [|p ps IH]; [done |]. cbn. by rewrite IH.
Qed.

Lemma install_all_Some (ps : list Process) (st : Builder * list Logged) :
  install_all (Some <$> ps) st = inr (fold_left install ps st).
Proof.
  revert st. induction ps as [|p ps IH]; intros st; [done |]. cbn. apply IH.
Qed.

(** The loop returns exactly on the arrays whose elements are all
    entries. *)
Lemma install_all_inr (ps : list (option Process))
    (st r : Builder * list Logged) :
  install_all ps st = inr r ->
  ∃ qs, ps = Some <$> qs ∧ r = fold_left install qs st.
Proof.
  revert st. induction ps as [|[p|] ps IH]; intros st; cbn.
  - intros [= <-]. by exists [].
  - intros (qs & -> & ->)%IH. by exists (p :: qs).
  - done.
Qed.

(** It throws at the first element that is `null` or `undefined`. *)
Lemma install_all_None (ps : list (option Process))
    (st : Builder * list Logged) :
  None ∈ ps ->
  ∃ before after,
    ps = (Some <$> before) ++ None :: after ∧
    install_all ps st = inl (TypeError, snd (fold_left install before st)).
Proof.
  revert st. induction ps as [|[p|] ps IH]; intros st Hin.
  - by apply elem_of_nil in Hin.
  - apply elem_of_cons in Hin as [? | Hin]; [done |].
    destruct (IH (install st p) Hin) as (before & after & -> & Hrun).
    by exists (p :: before), after.
  - by exists [], ps.
Qed.

Lemma all_Some (ps : list (option Process)) :
  None ∉ ps -> ∃ qs, ps = Some <$> qs.
Proof.
  induction ps as [|[p|] ps IH]; intros Hnot.
  - by exists [].
  - destruct IH as [qs ->]; [intros ?; apply Hnot; by right |].
    by exists (p :: qs).
  - exfalso. apply Hnot. left.
Qed.

Lemma None_elem_of (ps : list (option Process)) : None ∈ ps ∨ None ∉ ps.
Proof.
  induction ps as [|[p|] ps IH].
  - right. apply not_elem_of_nil.
  - destruct IH as [Hin|Hnot]; [left; by right |].
    right. by intros [? | ?]%elem_of_cons.
  - left. left.
Qed.

(** What a constructor call that returns has done. *)
Lemma Builder_new_inr (processes : JsValue) (parent : option loc)
    (id : option Json) (r : Builder * list Logged) :
  Builder_new processes parent id = inr r ->
  ∃ ps, catalog_of processes = inr (Some <$> ps) ∧
        r = fold_left install ps (Builder_init ps parent id, []).
Proof.
  unfold Builder_new. destruct (catalog_of processes) as [e|ps]; [done |].
  intros (qs & -> & ->)%install_all_inr. exists qs.
  by rewrite entries_Some.
Qed.

Lemma Builder_new_Some (processes : JsValue) (parent : option loc)
    (id : option Json) (ps : list Process) :
  catalog_of processes = inr (Some <$> ps) ->
  Builder_new processes parent id
  = inr (fold_left install ps (Builder_init ps parent id, [])).
Proof.
  intros Hcat. unfold Builder_new.
  by rewrite Hcat, entries_Some, install_all_Some.
Qed.

(** C9 (as the code has it): the constructor throws the invalid-catalogue
    error exactly when `processes` is neither an array nor an object whose
    `processes` is an array, and then before anything is printed.  An
    array of these shapes is iterated.  When every element is an entry,
    the constructor returns a builder with an empty node map, no id
    counters and an empty callback-parameter cache.  When an element is
    `null` or `undefined`, no builder is returned: reading `process.id`
    throws a `TypeError` at the first such element, after the iterations
    for the entries before it. *)
Theorem Builder_new_invalid_catalog (processes : JsValue)
    (parent : option loc) (id : option Json) :
  ((∃ console,
      Builder_new processes parent id = inl (invalid_catalog, console)) ↔
   recognizable processes = false) ∧
  (recognizable processes = false ->
   Builder_new processes parent id = inl (invalid_catalog, [])) ∧
  (recognizable processes = true ↔ ∃ ps, catalog_of processes = inr ps) ∧
  (∀ ps, catalog_of processes = inr ps ->
     (None ∉ ps ->
      ∃ this console,
        Builder_new processes parent id = inr (this, console) ∧
        nodes this = ∅ ∧ idCounter this = ∅ ∧
        callbackParameterCache this = ∅) ∧
     (None ∈ ps ->
      ∃ before after,
        ps = (Some <$> before) ++ None :: after ∧
        Builder_new processes parent id =
        inl (TypeError,
             snd (fold_left install before
                    (Builder_init (entries ps) parent id, []))))).
Proof.
  assert (∀ ps, catalog_of processes = inr ps ->
     (None ∉ ps ->
      ∃ this console,
        Builder_new processes parent id = inr (this, console) ∧
        nodes this = ∅ ∧ idCounter this = ∅ ∧
        callbackParameterCache this = ∅) ∧
     (None ∈ ps ->
      ∃ before after,
        ps = (Some <$> before) ++ None :: after ∧
        Builder_new processes parent id =
        inl (TypeError,
             snd (fold_left install before
                    (Builder_init (entries ps) parent id, []))))) as Hloop.
  { intros ps Hcat. split.
    - intros [qs ->]%all_Some. rewrite (Builder_new_Some _ _ _ qs Hcat).
      destruct (fold_left install qs (Builder_init qs parent id, []))
        as [this console] eqn:Hrun.
      exists this, console. split; [done |].
      pose proof (fold_install_fields qs (Builder_init qs parent id, [])) as H.
      rewrite Hrun in H. cbn in H. by rewrite H.
    - intros Hin. unfold Builder_new. rewrite Hcat.
      by apply install_all_None. }
  pose proof (recognizable_catalog_of processes) as Hcat.
  destruct (recognizable processes).
  - split; [split; [| done] |].
    + intros [console Hnew].
      destruct (None_elem_of (if Array_isArray processes
                              then elements processes
                              else elements (get_property processes
                                               "processes"))) as [Hin|Hnot].
      * destruct (proj2 (Hloop _ Hcat) Hin) as (? & ? & _ & Hrun).
        rewrite Hrun in Hnew. discriminate Hnew.
      * destruct (proj1 (Hloop _ Hcat) Hnot) as (? & ? & Hrun & _).
        rewrite Hrun in Hnew. discriminate Hnew.
    + split; [done |]. split; [| exact Hloop].
      split; [by eexists | done].
  - assert (Builder_new processes parent id = inl (invalid_catalog, []))
      as Hnew by (unfold Builder_new; by rewrite Hcat).
    split; [split; [done | by exists []] |].
    split; [done |]. split; [| exact Hloop].
    split; [done |]. intros [ps Hps]. congruence.
Qed.

Lemma get_member_set_member_ne (this : Builder) (k k' : string) (v : PropVal) :
  k ≠ k' -> get_member (set_member this k v) k' = get_member this k'.
Proof.
  intros Hne. unfold get_member, set_member. cbn.
  by rewrite lookup_insert_ne.
Qed.

Lemma get_member_set_member_eq (this : Builder) (k : string) (v : PropVal) :
  is_undefined (get_member this k) = true ->
  get_member (set_member this k v) k = MProp v.
Proof.
  unfold get_member, set_member. cbn.
  case_bool_decide; [done |]. by rewrite lookup_insert_eq.
Qed.

(** A member that is defined when the loop reaches an entry is the same
    after it: the loop assigns to undefined names only. *)
Lemma install_defined (st : Builder * list Logged) (q : Process) (k : string) :
  is_undefined (get_member (fst st) k) = false ->
  get_member (fst (install st q)) k = get_member (fst st) k.
Proof.
  destruct st as [this console]. cbn [fst]. intros Hk.
  rewrite install_unfold.
  destruct (is_undefined (get_member this (proc_id q))) eqn:Hq; [| done].
  cbn [fst]. apply get_member_set_member_ne. intros Heq.
  rewrite Heq in Hq. congruence.
Qed.

Lemma fold_install_defined (ps : list Process) (st : Builder * list Logged)
    (k : string) :
  is_undefined (get_member (fst st) k) = false ->
  get_member (fst (fold_left install ps st)) k = get_member (fst st) k.
Proof.
  revert st. induction ps as [|q ps IH]; intros st Hk; [done |].
  cbn [fold_left]. rewrite IH; rewrite install_defined; done.
Qed.

Lemma fold_install_console (ps : list Process) (st : Builder * list Logged) :
  snd st `prefix_of` snd (fold_left install ps st).
Proof.
  revert st. induction ps as [|q ps IH]; intros st; [done |].
  cbn [fold_left]. etrans; [| apply IH].
  destruct st as [this console]. rewrite install_unfold.
  destruct (is_undefined _); cbn; [done | by apply prefix_app_r].
Qed.

(** When the loop reaches an entry, the name is undefined exactly when it
    was undefined on the new instance and no earlier entry has that id. *)
Lemma fold_install_undefined (ps : list Process) (st : Builder * list Logged)
    (k : string) :
  is_undefined (get_member (fst (fold_left install ps st)) k) = true ↔
  is_undefined (get_member (fst st) k) = true ∧ k ∉ proc_id <$> ps.
Proof.
  revert st. induction ps as [|q ps IH]; intros st.
  - cbn. split; [intros ?; split; [done | apply not_elem_of_nil] | by intros []].
  - cbn [fold_left]. rewrite IH. rewrite fmap_cons, not_elem_of_cons.
    destruct st as [this console]. rewrite install_unfold. cbn [fst].
    destruct (is_undefined (get_member this (proc_id q))) eqn:Hq; cbn [fst].
    + destruct (decide (k = proc_id q)) as [->|Hne].
      * rewrite get_member_set_member_eq by done. cbn.
        split; [by intros [? _] | by intros (_ & ? & _)].
      * rewrite get_member_set_member_ne by done. tauto.
    + split; [| tauto]. intros [Hk Hps]. repeat split; try done.
      intros ->. congruence.
Qed.

Lemma Builder_init_process (ps : list Process) (parent : option loc)
    (id : option Json) :
  get_member (Builder_init ps parent id) "process" = MMethod "process".
Proof. by destruct id. Qed.

(** C10: let the loop of the constructor reach the entry [p] with the
    instance [reached].  If `this[p.id]` is undefined there, the loop
    assigns the closure for [p.id], the constructed builder has it under
    that name, and calling it with any arguments is
    `process(p.id, [arguments])`.  Otherwise the step leaves the instance
    as it is and prints the warning, and the constructed builder has the
    member that was there. *)
Theorem Builder_new_methods (processes : JsValue) (parent : option loc)
    (id : option Json) (before after : list Process) (p : Process) :
  catalog_of processes = inr (Some <$> (before ++ p :: after)) ->
  let init := Builder_init (before ++ p :: after) parent id in
  let reached := fold_left install before (init, []) in
  ∃ this console,
    Builder_new processes parent id = inr (this, console) ∧
    (is_undefined (get_member (fst reached) (proc_id p)) = true ->
       install reached p =
         (set_member (fst reached) (proc_id p) (PMethod (proc_id p)),
          snd reached) ∧
       get_member this (proc_id p) = MProp (PMethod (proc_id p)) ∧
       ∀ arguments,
         invoke this (proc_id p) arguments =
         Some (process this (proc_id p) (ArgsArray arguments) None)) ∧
    (is_undefined (get_member (fst reached) (proc_id p)) = false ->
       install reached p = (fst reached, snd reached ++ [already_exists p]) ∧
       get_member this (proc_id p) = get_member (fst reached) (proc_id p) ∧
       (snd reached ++ [already_exists p]) `prefix_of` console).
Proof.
  intros Hcat init reached. rewrite (Builder_new_Some _ _ _ _ Hcat).
  fold init. rewrite fold_left_app. fold reached. cbn [fold_left].
  destruct (fold_left install after (install reached p)) as [this console]
    eqn:Hloop.
  exists this, console. split; [done |].
  assert (get_member this "process" = MMethod "process") as Hprocess.
  { replace this with (fst (fold_left install (before ++ p :: after) (init, []))).
    - rewrite fold_install_defined;
        [apply Builder_init_process |].
      cbn [fst]. unfold init. by rewrite Builder_init_process.
    - rewrite fold_left_app. fold reached. cbn [fold_left]. by rewrite Hloop. }
  pose proof (fold_install_defined after (install reached p) (proc_id p)) as Hkeep.
  pose proof (fold_install_console after (install reached p)) as Hcons.
  rewrite Hloop in Hkeep, Hcons. cbn [fst snd] in Hkeep, Hcons.
  destruct reached as [at_p console_p]. cbn [fst snd] in *.
  rewrite install_unfold in *.
  split; intros Hp; rewrite Hp in *; cbn [fst snd] in *.
  - split; [done |].
    rewrite get_member_set_member_eq in Hkeep by done.
    specialize (Hkeep eq_refl). split; [done |].
    intros arguments. unfold invoke. by rewrite Hkeep, Hprocess.
  - split; [done |]. split; [by apply Hkeep | done].
Qed.

(** ** Callback parameters *)

Lemma createCallbackParameter_unfold (s : Store) (this : loc) (b : Builder)
    (k : string) :
  builders s !! this = Some b ->
  createCallbackParameter this k s =
  match callbackParameterCache b !! k with
  | Some p => Some (CPObject p, s)
  | None =>
      if bool_decide (k ∈ Object_prototype) then Some (CPInherited k, s)
      else
        Some (CPObject (length (objects s)),
              {| builders :=
                   <[this := set_callbackParameterCache b
                               (<[k := length (objects s)]>
                                  (callbackParameterCache b))]> (builders s);
                 objects := objects s ++
                              [{| param_name := k; param_builder := this |}];
                 console := console s |})
  end.
Proof.
  intros Hb. unfold createCallbackParameter, bind, get_builder. rewrite Hb.
  destruct (callbackParameterCache b !! k); [done |].
  by case_bool_decide.
Qed.

Lemma caches_more_refl (this : loc) (keys : list string) (s : Store) :
  caches_more this keys s s.
Proof.
  repeat split; try done. intros b Hb.
  exists (callbackParameterCache b). by destruct b.
Qed.

Lemma caches_more_trans (this : loc) (keys : list string) (s1 s2 s3 : Store) :
  caches_more this keys s1 s2 -> caches_more this keys s2 s3 ->
  caches_more this keys s1 s3.
Proof.
  intros (Hc1 & Ho1 & Hl1 & Hb1) (Hc2 & Ho2 & Hl2 & Hb2).
  split; [congruence |]. split; [by etrans |].
  split; [intros l Hl; by rewrite Hl2, Hl1 |].
  intros b Hb. destruct (Hb1 b Hb) as (c1 & Hb' & Hsub1 & Hk1).
  destruct (Hb2 _ Hb') as (c2 & Hb'' & Hsub2 & Hk2).
  exists c2. split; [by rewrite Hb'' |]. cbn in *.
  split; [by etrans |]. intros k Hk. by rewrite Hk2, Hk1.
Qed.

Lemma caches_more_keys (this : loc) (keys keys' : list string) (s s' : Store) :
  keys ⊆ keys' -> caches_more this keys s s' -> caches_more this keys' s s'.
Proof.
  intros Hsub (Hc & Ho & Hl & Hb). repeat split; try done.
  intros b Hbs. destruct (Hb b Hbs) as (c & ? & ? & Hk).
  exists c. repeat split; try done. intros k Hk'. apply Hk. set_solver.
Qed.

(** What one call of `createCallbackParameter` does to a store whose cache
    is well formed. *)
Lemma createCallbackParameter_caches (s : Store) (this : loc) (k : string) :
  cache_ok s this ->
  ∃ r s',
    createCallbackParameter this k s = Some (r, s') ∧
    caches_more this [k] s s' ∧ cache_ok s' this ∧
    (k ∉ Object_prototype -> name_of s' r = Some k) ∧
    (∀ b, builders s !! this = Some b ->
          (is_Some (callbackParameterCache b !! k) ∨ k ∈ Object_prototype) ->
          s' = s).
Proof.
  intros (b & Hb & Hok).
  rewrite (createCallbackParameter_unfold s this b k Hb).
  destruct (callbackParameterCache b !! k) as [p|] eqn:Hk.
  { eexists _, _. split; [done |]. split; [apply caches_more_refl |].
    split; [by exists b |]. split; [intros _; cbn; by apply Hok | done]. }
  case_bool_decide as Hin.
  { eexists _, _. split; [done |]. split; [apply caches_more_refl |].
    split; [by exists b |]. split; [done | done]. }
  eexists _, _. split; [done |]. split; [| split; [| split]].
  - split; [done |]. split; [by apply prefix_app_r |]. cbn.
    split; [intros l Hl; by rewrite lookup_insert_ne |].
    intros b' Hb'. rewrite Hb in Hb'. injection Hb' as <-.
    eexists. split; [apply lookup_insert_eq |].
    split; [by apply insert_subseteq |].
    intros k' Hk'. rewrite lookup_insert_ne; [done |]. set_solver.
  - eexists. cbn. split; [apply lookup_insert_eq |]. cbn.
    intros k' p. destruct (decide (k = k')) as [<-|Hne].
    + rewrite lookup_insert_eq. intros [= <-].
      by rewrite lookup_app_r, Nat.sub_diag.
    + rewrite lookup_insert_ne by done. intros Hp.
      specialize (Hok k' p Hp).
      destruct (objects s !! p) as [o|] eqn:Ho; [| done].
      by rewrite (lookup_app_l_Some _ _ _ _ Ho).
  - intros _. cbn. by rewrite lookup_app_r, Nat.sub_diag.
  - intros b' Hb' [[p Hp] | Hin'].
    + rewrite Hb in Hb'. injection Hb' as <-. congruence.
    + done.
Qed.

Lemma name_of_caches_more (this : loc) (keys : list string) (s s' : Store)
    (r : CallbackParameter) (k : string) :
  caches_more this keys s s' -> name_of s r = Some k -> name_of s' r = Some k.
Proof.
  intros (_ & [extra Hex] & _) Hr. destruct r as [p|k']; [| done]. cbn in *.
  rewrite Hex. destruct (objects s !! p) as [o|] eqn:Ho; [| done].
  by rewrite (lookup_app_l_Some _ _ _ _ Ho).
Qed.

Lemma mapM_createCallbackParameter (params : list Descriptor) (s : Store)
    (this : loc) :
  cache_ok s this ->
  ∃ rs s',
    mapM (fun param => createCallbackParameter this (d_name param)) params s
      = Some (rs, s') ∧
    caches_more this (d_name <$> params) s s' ∧ cache_ok s' this ∧
    (∀ k, k ∈ d_name <$> params -> k ∉ Object_prototype ->
          ∃ r, r ∈ rs ∧ name_of s' r = Some k) ∧
    (∀ b, builders s !! this = Some b ->
          (∀ k, k ∈ d_name <$> params ->
                is_Some (callbackParameterCache b !! k) ∨ k ∈ Object_prototype) ->
          s' = s).
Proof.
  revert s. induction params as [|param params IH]; intros s Hok.
  { exists [], s. split; [done |]. split; [apply caches_more_refl |].
    split; [done |]. split; [| done]. by intros k ?%elem_of_nil. }
  destruct (createCallbackParameter_caches s this (d_name param) Hok)
    as (r & s1 & Hrun1 & Hmore1 & Hok1 & Hname1 & Hsame1).
  destruct (IH s1 Hok1) as (rs & s2 & Hrun2 & Hmore2 & Hok2 & Hname2 & Hsame2).
  exists (r :: rs), s2. cbn [mapM]. unfold bind at 1. rewrite Hrun1.
  unfold bind at 1. rewrite Hrun2. split; [done |].
  split; [| split; [done |]; split].
  - eapply caches_more_trans.
    + eapply caches_more_keys; [| exact Hmore1].
      intros k ->%list_elem_of_singleton. rewrite fmap_cons. left.
    + eapply caches_more_keys; [| exact Hmore2].
      intros k Hk. rewrite fmap_cons. by right.
  - intros k Hk Hproto. rewrite fmap_cons, elem_of_cons in Hk.
    destruct (decide (k = d_name param)) as [->|Hne].
    + exists r. split; [left |].
      eapply name_of_caches_more; [exact Hmore2 | by apply Hname1].
    + destruct Hk as [? | Hk]; [done |].
      destruct (Hname2 k Hk Hproto) as (r' & ? & ?).
      exists r'. split; [by right | done].
  - intros b Hb Hall.
    assert (s1 = s) as ->.
    { apply (Hsame1 b Hb). apply Hall. rewrite fmap_cons. left. }
    apply (Hsame2 b Hb). intros k Hk. apply Hall. rewrite fmap_cons. by right.
Qed.

(** What the calls of `createCallbackParameter` for a list of names
    create: afterwards every name that no plain object inherits is cached,
    a name that was not cached with a `Parameter` that is new; every new
    `Parameter` is one of these; and the cache differs from before at
    these names only. *)
Lemma mapM_createCallbackParameter_created (params : list Descriptor)
    (s : Store) (this : loc) (b : Builder) :
  cache_ok s this -> builders s !! this = Some b ->
  ∃ rs s' b',
    mapM (fun param => createCallbackParameter this (d_name param)) params s
      = Some (rs, s') ∧
    builders s' !! this = Some b' ∧
    caches_more this (d_name <$> params) s s' ∧ cache_ok s' this ∧
    (∀ k, k ∈ d_name <$> params -> k ∉ Object_prototype ->
       ∃ p, callbackParameterCache b' !! k = Some p ∧
            (callbackParameterCache b !! k = None ->
             length (objects s) <= p ∧
             objects s' !! p
               = Some {| param_name := k; param_builder := this |})) ∧
    (∀ p o, length (objects s) <= p -> objects s' !! p = Some o ->
       param_builder o = this ∧ param_name o ∈ d_name <$> params ∧
       (param_name o ∉ Object_prototype) ∧
       callbackParameterCache b !! param_name o = None ∧
       callbackParameterCache b' !! param_name o = Some p) ∧
    (∀ k, callbackParameterCache b' !! k ≠ callbackParameterCache b !! k ->
       k ∈ d_name <$> params ∧ (k ∉ Object_prototype) ∧
       callbackParameterCache b !! k = None).
Proof.
  revert s b. induction params as [|param params IH]; intros s b Hok Hb.
  { exists [], s, b. split; [done |]. split; [done |].
    split; [apply caches_more_refl |]. split; [done |].
    split; [by intros k ?%elem_of_nil |]. split; [| done].
    intros p o Hp Ho%lookup_lt_Some. lia. }
  destruct (createCallbackParameter_caches s this (d_name param) Hok)
    as (r & s1 & Hrun1 & Hmore1 & Hok1 & _ & _).
  pose proof Hrun1 as Hshape.
  rewrite (createCallbackParameter_unfold s this b _ Hb) in Hshape.
  destruct (proj2 (proj2 (proj2 Hmore1)) b Hb) as (c1 & Hb1 & Hsub1 & _).
  assert ((s1 = s ∧ c1 = callbackParameterCache b ∧
           (d_name param ∉ Object_prototype ->
            is_Some (callbackParameterCache b !! d_name param))) ∨
          (callbackParameterCache b !! d_name param = None ∧
           (d_name param ∉ Object_prototype) ∧
           objects s1 = objects s ++
             [{| param_name := d_name param; param_builder := this |}] ∧
           c1 = <[d_name param := length (objects s)]>
                  (callbackParameterCache b))) as Hcase.
  { destruct (callbackParameterCache b !! d_name param) as [p0|] eqn:Hc0.
    - left. injection Hshape as _ <-. rewrite Hb in Hb1.
      injection Hb1 as Hb1. split; [done |].
      split; [exact (eq_sym (f_equal callbackParameterCache Hb1)) |].
      by eexists.
    - destruct (decide (d_name param ∈ Object_prototype)) as [Hin|Hnot].
      + left. rewrite bool_decide_eq_true_2 in Hshape by done.
        injection Hshape as _ <-. rewrite Hb in Hb1.
        injection Hb1 as Hb1. split; [done |].
        split; [exact (eq_sym (f_equal callbackParameterCache Hb1)) | done].
      + right. rewrite bool_decide_eq_false_2 in Hshape by done.
        injection Hshape as _ <-. cbn in Hb1.
        rewrite lookup_insert_eq in Hb1. injection Hb1 as Hb1.
        do 3 (split; [done |]). by symmetry. }
  destruct (IH s1 (set_callbackParameterCache b c1) Hok1 Hb1)
    as (rs & s' & b' & Hrun2 & Hb' & Hmore2 & Hok2 & HA & HB & HC).
  cbn [callbackParameterCache set_callbackParameterCache] in HA, HB, HC.
  assert (callbackParameterCache b' = callbackParameterCache b'
          ∧ c1 ⊆ callbackParameterCache b') as [_ Hsub2].
  { split; [done |].
    destruct (proj2 (proj2 (proj2 Hmore2)) _ Hb1) as (c2 & Hb2 & Hsub & _).
    rewrite Hb' in Hb2. injection Hb2 as ->. done. }
  assert (objects s1 `prefix_of` objects s') as Hpre2
    by apply Hmore2.
  exists (r :: rs), s', b'. cbn [mapM]. unfold bind at 1. rewrite Hrun1.
  unfold bind at 1. rewrite Hrun2. split; [done |].
  split; [done |]. split; [| split; [done |]].
  { eapply caches_more_trans.
    - eapply caches_more_keys; [| exact Hmore1].
      intros k ->%list_elem_of_singleton. rewrite fmap_cons. left.
    - eapply caches_more_keys; [| exact Hmore2].
      intros k Hk. rewrite fmap_cons. by right. }
  rewrite fmap_cons.
  destruct Hcase as [(-> & -> & Hheld) | (Hnone & Hnot & Hobj & ->)].
  - (* nothing created for the first name *)
    split; [| split].
    + intros k [-> | Hk]%elem_of_cons Hproto; [| by apply HA].
      destruct (Hheld Hproto) as [p0 Hp0]. exists p0.
      split; [by apply (lookup_weaken _ _ _ _ Hp0) | congruence].
    + intros p o Hp Ho.
      destruct (HB p o Hp Ho) as (? & ? & ? & ? & ?).
      repeat split; try done. by right.
    + intros k Hk. destruct (HC k Hk) as (? & ? & ?).
      repeat split; try done. by right.
  - (* a `Parameter` was created for the first name *)
    assert (callbackParameterCache b' !! d_name param
            = Some (length (objects s))) as Hfirst.
    { apply (lookup_weaken _ _ _ _ (lookup_insert_eq _ _ _) Hsub2). }
    assert (objects s' !! length (objects s)
            = Some {| param_name := d_name param; param_builder := this |})
      as Hnew.
    { apply (prefix_lookup_Some (objects s1)); [| done].
      rewrite Hobj. by rewrite lookup_app_r, Nat.sub_diag. }
    rewrite Hobj, length_app in HA, HB. cbn [length] in HA, HB.
    split; [| split].
    + intros k Hk Hproto.
      destruct (decide (k = d_name param)) as [->|Hne].
      { exists (length (objects s)). split; [done |]. intros _.
        split; [lia | done]. }
      apply elem_of_cons in Hk as [? | Hk]; [done |].
      destruct (HA k Hk Hproto) as (p & Hp & Hfresh). exists p.
      split; [done |]. intros Hk0.
      rewrite lookup_insert_ne in Hfresh by done.
      destruct (Hfresh Hk0) as [? ?]. split; [lia | done].
    + intros p o Hp Ho.
      destruct (decide (p = length (objects s))) as [->|Hne].
      { rewrite Hnew in Ho. injection Ho as <-. cbn.
        repeat split; try done. left. }
      destruct (HB p o ltac:(lia) Ho) as (? & ? & ? & Hcache & ?).
      assert (param_name o ≠ d_name param) as Hname.
      { intros Heq. rewrite Heq, lookup_insert_eq in Hcache. done. }
      rewrite lookup_insert_ne in Hcache by done.
      repeat split; try done. by right.
    + intros k Hk.
      destruct (decide (k = d_name param)) as [->|Hne].
      { repeat split; try done. left. }
      destruct (HC k) as (? & ? & Hcache).
      { by rewrite lookup_insert_ne. }
      rewrite lookup_insert_ne in Hcache by done.
      repeat split; try done. by right.
Qed.

(** A name that the cache inherits a member for is answered with that
    member: no `Parameter` is created and nothing is cached. *)
Lemma createCallbackParameter_inherited (s : Store) (this : loc) (b : Builder)
    (k : string) :
  builders s !! this = Some b ->
  callbackParameterCache b !! k = None ->
  k ∈ Object_prototype ->
  createCallbackParameter this k s = Some (CPInherited k, s).
Proof.
  intros Hb Hk Hin. rewrite (createCallbackParameter_unfold s this b k Hb), Hk.
  by rewrite bool_decide_eq_true_2.
Qed.

(** C7, at the failing input: on a new builder,
    `createCallbackParameter("constructor")` returns the `constructor`
    member that the cache object inherits, which is the function `Object`
    and no `Parameter`; it creates no object and caches nothing, on the
    first call and on the second. *)
Theorem createCallbackParameter_constructor :
  createCallbackParameter 0 "constructor" new_store
    = Some (CPInherited "constructor", new_store) ∧
  name_of new_store (CPInherited "constructor") = Some "Object" ∧
  objects new_store = [] ∧
  (callbackParameterCache <$> builders new_store !! 0) = Some ∅.
Proof.
  split; [| by split].
  apply (createCallbackParameter_inherited new_store 0 empty_builder).
  - reflexivity.
  - reflexivity.
  - unfold Object_prototype. left.
Qed.

(** For every other name, two calls return the same `Parameter` object:
    the one that was cached, or a new object that the first call caches
    under the name. *)
Lemma createCallbackParameter_twice (s : Store) (this : loc) (b : Builder)
    (k : string) :
  builders s !! this = Some b ->
  k ∉ Object_prototype ->
  ∃ p s1 b1,
    createCallbackParameter this k s = Some (CPObject p, s1) ∧
    createCallbackParameter this k s1 = Some (CPObject p, s1) ∧
    builders s1 !! this = Some b1 ∧
    callbackParameterCache b1 !! k = Some p ∧
    (callbackParameterCache b !! k = Some p -> s1 = s) ∧
    (callbackParameterCache b !! k = None ->
       p = length (objects s) ∧
       objects s1 = objects s ++ [{| param_name := k; param_builder := this |}]).
Proof.
  intros Hb Hk. rewrite (createCallbackParameter_unfold s this b k Hb).
  destruct (callbackParameterCache b !! k) as [p|] eqn:Hcache.
  - exists p, s, b.
    rewrite (createCallbackParameter_unfold s this b k Hb), Hcache.
    by repeat split.
  - rewrite bool_decide_eq_false_2 by done.
    eexists _, _, _. split; [done |].
    split; [| split; [apply lookup_insert_eq |]].
    + erewrite createCallbackParameter_unfold by apply lookup_insert_eq.
      cbn. by rewrite lookup_insert_eq.
    + cbn. rewrite lookup_insert_eq. by repeat split.
Qed.

(** ** Declared parameters *)

Lemma declare_new (d : Descriptor) (ps : list Descriptor) :
  d_name d ∉ d_name <$> ps -> declare d ps = ps ++ [d].
Proof.
  intros Hnew. unfold declare.
  destruct (list_find _ ps) as [[i p]|] eqn:Hfind; [| done].
  apply list_find_Some in Hfind as (Hi & Hp & _).
  destruct Hnew. rewrite <- Hp. apply list_elem_of_fmap.
  exists p. split; [done |]. by eapply list_elem_of_lookup_2.
Qed.

Lemma declare_existing (d e : Descriptor) (l1 l2 : list Descriptor) :
  d_name e = d_name d -> d_name d ∉ d_name <$> l1 ->
  declare d (l1 ++ e :: l2) = l1 ++ Object_assign e d :: l2.
Proof.
  intros He Hl1. unfold declare.
  assert (list_find (fun p => d_name p = d_name d) (l1 ++ e :: l2)
          = Some (length l1, e)) as ->.
  { apply list_find_Some. split; [by apply list_lookup_middle |].
    split; [done |]. intros j y Hj Hlt Hy.
    rewrite lookup_app_l in Hj by done.
    destruct Hl1. rewrite <- Hy. apply list_elem_of_fmap.
    exists y. split; [done |]. by eapply list_elem_of_lookup_2. }
  rewrite insert_app_r_alt by done. by rewrite Nat.sub_diag.
Qed.

(** The first entry with a given name, if there is one. *)
Lemma split_by_name (n : string) (ps : list Descriptor) :
  n ∈ d_name <$> ps ->
  ∃ l1 e l2, ps = l1 ++ e :: l2 ∧ d_name e = n ∧ n ∉ d_name <$> l1.
Proof.
  induction ps as [|p ps IH]; [by intros ?%elem_of_nil |].
  rewrite fmap_cons, elem_of_cons.
  destruct (decide (d_name p = n)) as [Hp|Hp].
  - intros _. exists [], p, ps. repeat split; try done. apply not_elem_of_nil.
  - intros [? | Hin]; [done |].
    destruct (IH Hin) as (l1 & e & l2 & -> & He & Hl1).
    exists (p :: l1), e, l2. repeat split; try done.
    rewrite fmap_cons, not_elem_of_cons. by split.
Qed.

Lemma filter_name_absent (n : string) (ps : list Descriptor) :
  n ∉ d_name <$> ps -> filter (fun p => d_name p = n) ps = [].
Proof.
  induction ps as [|p ps IH]; [done |].
  rewrite fmap_cons, not_elem_of_cons. intros [Hp Hps].
  rewrite filter_cons_False by done. by apply IH.
Qed.

Lemma filter_name_unique (n : string) (e : Descriptor)
    (l1 l2 : list Descriptor) :
  d_name e = n -> n ∉ d_name <$> l1 -> n ∉ d_name <$> l2 ->
  filter (fun p => d_name p = n) (l1 ++ e :: l2) = [e].
Proof.
  intros He Hl1 Hl2. rewrite filter_app, filter_cons_True by done.
  by rewrite !filter_name_absent.
Qed.

(** Declaring twice under one name, on a list without repeated names. *)
Lemma declare_twice (first second : Descriptor) (ps : list Descriptor) :
  d_name first = d_name second ->
  NoDup (d_name <$> ps) ->
  ∃ e,
    filter (fun p => d_name p = d_name second) (declare second (declare first ps))
      = [e] ∧
    d_name e = d_name second ∧
    NoDup (d_name <$> declare second (declare first ps)) ∧
    (d_name second ∉ d_name <$> ps ->
       e = Object_assign first second ∧
       declare second (declare first ps) = ps ++ [e]) ∧
    (∀ e0, e0 ∈ ps -> d_name e0 = d_name second ->
       e = Object_assign (Object_assign e0 first) second).
Proof.
  intros Hname Hnd.
  destruct (decide (d_name second ∈ d_name <$> ps)) as [Hin|Hnew].
  - destruct (split_by_name _ _ Hin) as (l1 & e0 & l2 & -> & He0 & Hl1).
    rewrite fmap_app, fmap_cons in Hnd.
    apply NoDup_app in Hnd as (Hnd1 & Hdisj & Hnd2).
    apply NoDup_cons in Hnd2 as [Hl2 Hnd2]. rewrite He0 in Hl2.
    rewrite (declare_existing first e0) by congruence.
    rewrite (declare_existing second (Object_assign e0 first)) by done.
    exists (Object_assign (Object_assign e0 first) second).
    split; [by apply filter_name_unique |]. split; [done |].
    split; [| split; [done |]].
    + rewrite fmap_app, fmap_cons. cbn. rewrite <- He0.
      apply NoDup_app. split; [done |]. split; [by rewrite He0 in * |].
      apply NoDup_cons. by rewrite He0.
    + intros e1 He1 Hname1.
      assert (e1 = e0) as ->; [| done].
      apply elem_of_app in He1 as [He1 | He1].
      { destruct Hl1. rewrite <- Hname1. by apply list_elem_of_fmap_2. }
      apply elem_of_cons in He1 as [-> | He1]; [done |].
      destruct Hl2. rewrite <- Hname1. by apply list_elem_of_fmap_2.
  - rewrite (declare_new first) by congruence.
    rewrite (declare_existing second first ps []) by done.
    exists (Object_assign first second).
    split; [apply filter_name_unique; [done | done | apply not_elem_of_nil] |].
    split; [done |]. split; [| split; [done |]].
    + rewrite fmap_app. cbn. apply NoDup_app. split; [done |].
      split; [| apply NoDup_singleton].
      intros n Hn ->%list_elem_of_singleton. done.
    + intros e0 He0 Hname0. destruct Hnew. rewrite <- Hname0.
      by apply list_elem_of_fmap_2.
Qed.

Section Callbacks.

(** `ProcessUtils.getCallbackParametersForProcess`, any function. *)
Variable signature : option Process -> string -> Exn + list Descriptor.

Lemma getParentCallbackParameters_unfold (s : Store) (this : loc)
    (b : Builder) :
  builders s !! this = Some b ->
  getParentCallbackParameters signature this s =
  match parentNode b, parentParameter b with
  | Some node, Some parameterName =>
      if bool_decide (parameterName = "") then Some ([], s)
      else
        match signature (node_spec node) parameterName with
        | inr params =>
            mapM (fun param => createCallbackParameter this (d_name param))
                 params s
        | inl error =>
            Some ([], {| builders := builders s; objects := objects s;
                         console := console s ++ [WarnError error] |})
        end
  | _, _ => Some ([], s)
  end.
Proof.
  intros Hb. unfold getParentCallbackParameters, bind, get_builder.
  rewrite Hb. destruct (parentNode b) as [node|]; [| done].
  destruct (parentParameter b) as [parameterName|]; [| done].
  case_bool_decide; [done |].
  by destruct (signature _ _).
Qed.

(** Creating callback parameters never fails on a builder of the store. *)
Lemma mapM_createCallbackParameter_total (params : list Descriptor)
    (s : Store) (this : loc) :
  is_Some (builders s !! this) ->
  ∃ rs s',
    mapM (fun param => createCallbackParameter this (d_name param)) params s
      = Some (rs, s') ∧ is_Some (builders s' !! this).
Proof.
  revert s. induction params as [|param params IH]; intros s [b Hb].
  { exists [], s. split; [done | by exists b]. }
  cbn [mapM]. unfold bind at 1.
  rewrite (createCallbackParameter_unfold s this b _ Hb).
  assert (∃ r s1, match callbackParameterCache b !! d_name param with
                  | Some p => Some (CPObject p, s)
                  | None => if bool_decide (d_name param ∈ Object_prototype)
                            then Some (CPInherited (d_name param), s)
                            else Some (CPObject (length (objects s)), _)
                  end = Some (r, s1) ∧ is_Some (builders s1 !! this))
    as (r & s1 & -> & Hs1).
  { destruct (callbackParameterCache b !! d_name param).
    - eexists _, _. split; [done | by exists b].
    - case_bool_decide; eexists _, _; (split; [done |]); [by exists b |].
      cbn. rewrite lookup_insert_eq. by eexists. }
  destruct (IH s1 Hs1) as (rs & s2 & Hrun & Hs2).
  unfold bind. rewrite Hrun. by eexists _, _.
Qed.

(** C8: `getParentCallbackParameters` returns the empty list and leaves the
    store as it is when no parent node or no parent parameter name is set;
    when both are set and the lookup of the callback signature throws, it
    returns the empty list and the error is written to the console as a
    warning; and it returns in every case. *)
Theorem getParentCallbackParameters_empty (s : Store) (this : loc)
    (b : Builder) :
  builders s !! this = Some b ->
  (parentNode b = None ∨ parentParameter b = None ∨
   parentParameter b = Some "" ->
   getParentCallbackParameters signature this s = Some ([], s)) ∧
  (∀ node parameterName error,
     parentNode b = Some node -> parentParameter b = Some parameterName ->
     parameterName ≠ "" ->
     signature (node_spec node) parameterName = inl error ->
     getParentCallbackParameters signature this s =
     Some ([], {| builders := builders s; objects := objects s;
                  console := console s ++ [WarnError error] |})) ∧
  (∃ callbackParams s',
     getParentCallbackParameters signature this s = Some (callbackParams, s')).
Proof.
  intros Hb. rewrite (getParentCallbackParameters_unfold s this b Hb).
  split; [| split].
  - intros [-> | [-> | ->]]; [done | by destruct (parentNode b) | ].
    by destruct (parentNode b).
  - intros node parameterName error -> -> Hne ->.
    by rewrite bool_decide_eq_false_2.
  - destruct (parentNode b) as [node|]; [| by eexists _, _].
    destruct (parentParameter b) as [parameterName|]; [| by eexists _, _].
    case_bool_decide; [by eexists _, _ |].
    destruct (signature _ _) as [error|params];
      [by eexists _, _ |].
    destruct (mapM_createCallbackParameter_total params s this)
      as (rs & s' & Hrun & _); [by exists b |].
    by exists rs, s'.
Qed.


Lemma addParameter_unfold (s : Store) (this : loc) (parameter : Descriptor)
    (root : bool) :
  addParameter signature this parameter root s =
  match getParentCallbackParameters signature this s with
  | None => None
  | Some (callbackParams, s1) =>
      if existsb
           (fun p => bool_decide (name_of s1 p = Some (d_name parameter)))
           callbackParams
      then Some (tt, s1)
      else
        match (if root then find_root (size (builders s1)) this
               else ret this) s1 with
        | None => None
        | Some (builder, s2) =>
            match builders s2 !! builder with
            | None => None
            | Some b =>
                Some (tt,
                      {| builders :=
                           <[builder :=
                               set_member b "parameters"
                                 (PParameters
                                    (declare parameter (declared b)))]>
                             (builders s2);
                         objects := objects s2; console := console s2 |})
            end
        end
  end.
Proof.
  unfold addParameter, bind at 1.
  destruct (getParentCallbackParameters signature this s)
    as [[callbackParams s1]|]; [| done].
  unfold bind at 1, get_store. destruct (existsb _ _); [done |].
  unfold bind at 1.
  destruct ((if root then find_root (size (builders s1)) this else ret this) s1)
    as [[builder s2]|]; [| done].
  unfold bind, get_builder, put_builder.
  by destruct (builders s2 !! builder).
Qed.

Lemma declared_set_member (b : Builder) (ps : list Descriptor) :
  declared (set_member b "parameters" (PParameters ps)) = ps.
Proof.
  unfold declared, get_member, set_member. cbn. by rewrite lookup_insert_eq.
Qed.

(** One declaration at a root builder. *)
Lemma addParameter_root (s : Store) (this : loc) (b : Builder)
    (parameter : Descriptor) (root : bool) :
  builders s !! this = Some b -> parent b = None -> parentNode b = None ->
  addParameter signature this parameter root s =
  Some (tt,
        {| builders :=
             <[this := set_member b "parameters"
                         (PParameters (declare parameter (declared b)))]>
               (builders s);
           objects := objects s; console := console s |}).
Proof.
  intros Hb Hparent Hnode. rewrite addParameter_unfold.
  rewrite (getParentCallbackParameters_unfold s this b Hb), Hnode. cbn.
  assert ((if root then find_root (size (builders s)) this else ret this) s
          = Some (this, s)) as ->.
  { destruct root; [| done].
    destruct (size (builders s)); cbn; by rewrite Hb, Hparent. }
  by rewrite Hb.
Qed.

(** C5: two declarations under one name at a root builder whose declared
    parameters have no repeated name leave exactly one entry of that name.
    When the name was not declared before, the entry is the merge of the
    two descriptors, the fields of the second overwriting those of the
    first, appended to the list; when it was, both are merged into the
    entry that was there. *)
Theorem addParameter_twice_merges (s : Store) (this : loc) (b : Builder)
    (first second : Descriptor) (root : bool) :
  builders s !! this = Some b -> parent b = None -> parentNode b = None ->
  d_name first = d_name second ->
  NoDup (d_name <$> declared b) ->
  ∃ s1 s2 b2 e,
    addParameter signature this first root s = Some (tt, s1) ∧
    addParameter signature this second root s1 = Some (tt, s2) ∧
    builders s2 !! this = Some b2 ∧
    filter (fun p => d_name p = d_name second) (declared b2) = [e] ∧
    d_name e = d_name second ∧
    NoDup (d_name <$> declared b2) ∧
    (d_name second ∉ d_name <$> declared b ->
       e = Object_assign first second ∧
       d_fields e = d_fields second ∪ d_fields first ∧
       declared b2 = declared b ++ [e]) ∧
    (∀ e0, e0 ∈ declared b -> d_name e0 = d_name second ->
       e = Object_assign (Object_assign e0 first) second).
Proof.
  intros Hb Hparent Hnode Hname Hnd.
  destruct (declare_twice first second (declared b) Hname Hnd)
    as (e & Hfilter & He & Hnd' & Hnew & Hold).
  set (b1 := set_member b "parameters"
               (PParameters (declare first (declared b)))).
  set (s1 := {| builders := <[this := b1]> (builders s);
                objects := objects s; console := console s |}).
  assert (builders s1 !! this = Some b1) as Hb1 by apply lookup_insert_eq.
  eexists s1, _, _, e.
  split; [by apply addParameter_root |].
  split; [by apply (addParameter_root s1 this b1) |].
  split; [apply lookup_insert_eq |].
  rewrite declared_set_member. unfold b1. rewrite declared_set_member.
  do 3 (split; [done |]). split; [| done].
  intros Hn. by destruct (Hnew Hn) as [-> ?].
Qed.

(** C6 (as the code has it): on a builder with a parent node and a parent
    parameter name, declaring a parameter whose name is one of the callback
    parameters of that position, and not the name of a member objects
    inherit, returns without declaring anything.  The store differs at
    most by `Parameter` objects that the call created and cached for
    callback parameters of the builder: the declared parameters and all
    other properties of every builder, the console and all other builders
    are as before, and nothing at all changes when the callback
    parameters were cached already.  Afterwards the cache of the builder
    holds a `Parameter` of its name for every callback parameter whose
    name no object inherits, and for a name it did not hold before the
    `Parameter` is a new one, created by the builder; every `Parameter`
    the call created is cached under its name, which the cache did not
    hold; and the cache differs from before at these names only. *)
Theorem addParameter_callback_parameter (s : Store) (this : loc)
    (b : Builder) (node : BuilderNode) (parameterName : string)
    (params : list Descriptor) (parameter : Descriptor) (root : bool) :
  builders s !! this = Some b ->
  cache_ok s this ->
  parentNode b = Some node ->
  parentParameter b = Some parameterName -> parameterName ≠ "" ->
  signature (node_spec node) parameterName = inr params ->
  d_name parameter ∈ d_name <$> params ->
  d_name parameter ∉ Object_prototype ->
  ∃ s',
    addParameter signature this parameter root s = Some (tt, s') ∧
    caches_more this (d_name <$> params) s s' ∧
    (∀ l b0, builders s !! l = Some b0 ->
       ∃ b1, builders s' !! l = Some b1 ∧ declared b1 = declared b0 ∧
             props b1 = props b0 ∧ nodes b1 = nodes b0 ∧
             idCounter b1 = idCounter b0) ∧
    ((∀ k, k ∈ d_name <$> params ->
           is_Some (callbackParameterCache b !! k) ∨ k ∈ Object_prototype) ->
     s' = s) ∧
    ∃ b',
      builders s' !! this = Some b' ∧
      (∀ k, k ∈ d_name <$> params -> k ∉ Object_prototype ->
         ∃ p, callbackParameterCache b' !! k = Some p ∧
              param_name <$> objects s' !! p = Some k ∧
              (callbackParameterCache b !! k = None ->
               length (objects s) <= p ∧
               objects s' !! p
                 = Some {| param_name := k; param_builder := this |})) ∧
      (∀ p o, length (objects s) <= p -> objects s' !! p = Some o ->
         param_builder o = this ∧ param_name o ∈ d_name <$> params ∧
         (param_name o ∉ Object_prototype) ∧
         callbackParameterCache b !! param_name o = None ∧
         callbackParameterCache b' !! param_name o = Some p) ∧
      (∀ k, callbackParameterCache b' !! k ≠ callbackParameterCache b !! k ->
         k ∈ d_name <$> params ∧ (k ∉ Object_prototype) ∧
         callbackParameterCache b !! k = None).
Proof.
  intros Hb Hok Hnode Hparam Hne Hsig Hin Hproto.
  rewrite addParameter_unfold.
  rewrite (getParentCallbackParameters_unfold s this b Hb), Hnode, Hparam.
  rewrite bool_decide_eq_false_2 by done. rewrite Hsig.
  destruct (mapM_createCallbackParameter params s this Hok)
    as (rs & s' & Hrun & Hmore & _ & Hnames & Hsame).
  destruct (mapM_createCallbackParameter_created params s this b Hok Hb)
    as (rs' & s'' & b' & Hrun' & Hb' & _ & Hok' & HA & HB & HC).
  rewrite Hrun in Hrun'. injection Hrun' as <- <-. rewrite Hrun.
  destruct (Hnames _ Hin Hproto) as (r & Hr & Hname).
  assert (existsb
            (fun p => bool_decide (name_of s' p = Some (d_name parameter))) rs
          = true) as ->.
  { apply existsb_exists. exists r.
    split; [by apply list_elem_of_In | by apply bool_decide_eq_true_2]. }
  exists s'. split; [done |]. split; [done |].
  split; [| split; [by apply Hsame |]].
  - intros l b0 Hl. destruct Hmore as (_ & _ & Hother & Hthis).
    destruct (decide (l = this)) as [->|Hl'].
    + destruct (Hthis b0 Hl) as (c & -> & _). by eexists.
    + exists b0. by rewrite Hother.
  - exists b'. split; [done |]. split; [| by split].
    intros k Hk Hk'. destruct (HA k Hk Hk') as (p & Hp & Hfresh).
    exists p. split; [done |]. split; [| done].
    destruct Hok' as (b'' & Hb'' & Hcache). rewrite Hb' in Hb''.
    injection Hb'' as <-. by apply Hcache.
Qed.

End Callbacks.

(** Declaring keeps the names of the declared parameters without repeats. *)
Lemma declare_NoDup (d : Descriptor) (ps : list Descriptor) :
  NoDup (d_name <$> ps) -> NoDup (d_name <$> declare d ps).
Proof.
  intros Hnd.
  destruct (decide (d_name d ∈ d_name <$> ps)) as [Hin|Hnew].
  - destruct (split_by_name _ _ Hin) as (l1 & e & l2 & -> & He & Hl1).
    rewrite (declare_existing d e) by done.
    rewrite !fmap_app, !fmap_cons in *.
    change (d_name (Object_assign e d)) with (d_name d). by rewrite <- He.
  - rewrite declare_new by done. rewrite fmap_app. cbn.
    apply NoDup_app. split; [done |]. split; [| apply NoDup_singleton].
    intros n Hn ->%list_elem_of_singleton. done.
Qed.

(** ** The walk to the root *)

Lemma same_links_refl (s : Store) : same_links s s.
Proof. by intros l. Qed.

Lemma same_links_trans (s1 s2 s3 : Store) :
  same_links s1 s2 -> same_links s2 s3 -> same_links s1 s3.
Proof. intros H12 H23 l. by rewrite H23, H12. Qed.

Lemma same_links_parents_ok (s s' : Store) :
  same_links s s' -> parents_ok s -> parents_ok s'.
Proof.
  intros Hlinks Hok l b' p Hb' Hp.
  pose proof (Hlinks l) as Hl. rewrite Hb' in Hl. cbn in Hl.
  destruct (builders s !! l) as [b|] eqn:Hb; [| done].
  injection Hl as Hl. rewrite Hp in Hl.
  destruct (Hok l b p Hb (eq_sym Hl)) as [Hlt [bp Hbp]].
  split; [done |]. pose proof (Hlinks p) as Hlp. rewrite Hbp in Hlp.
  by destruct (builders s' !! p).
Qed.

Lemma below_subseteq (s : Store) (l : loc) : below s l ⊆ builders s.
Proof. apply map_filter_subseteq. Qed.

Lemma below_parent (s : Store) (l p : loc) :
  p < l -> is_Some (builders s !! p) -> size (below s p) < size (below s l).
Proof.
  intros Hlt [bp Hbp]. apply map_subset_size, map_subset_alt. split.
  - apply map_subseteq_spec. intros i x.
    unfold below. rewrite !map_lookup_filter_Some. cbn. intros [? ?].
    split; [done | lia].
  - exists p. unfold below. split.
    + apply map_lookup_filter_None. right. cbn. intros ? _. lia.
    + exists bp. by apply map_lookup_filter_Some.
Qed.

(** With parent links that point to earlier builders, the loop
    `while (builder.parent)` ends at a builder without parent; the fuel it
    needs is at most the number of builders allocated before the start. *)
Lemma find_root_enough (s : Store) (fuel : nat) (l : loc) :
  parents_ok s -> is_Some (builders s !! l) -> size (below s l) <= fuel ->
  ∃ r b, find_root fuel l s = Some (r, s) ∧
         builders s !! r = Some b ∧ parent b = None.
Proof.
  intros Hok. revert l. induction fuel as [|fuel IH]; intros l [b Hb] Hsize.
  - cbn. rewrite Hb. destruct (parent b) as [p|] eqn:Hp; [| by exists l, b].
    destruct (Hok l b p Hb Hp) as [Hlt Hsome].
    pose proof (below_parent s l p Hlt Hsome). lia.
  - cbn. rewrite Hb. destruct (parent b) as [p|] eqn:Hp; [| by exists l, b].
    destruct (Hok l b p Hb Hp) as [Hlt Hsome].
    pose proof (below_parent s l p Hlt Hsome).
    apply IH; [done | lia].
Qed.

Lemma find_root_total (s : Store) (l : loc) :
  parents_ok s -> is_Some (builders s !! l) ->
  ∃ r b, find_root (size (builders s)) l s = Some (r, s) ∧
         builders s !! r = Some b ∧ parent b = None.
Proof.
  intros Hok Hl. apply find_root_enough; [done | done |].
  apply map_subseteq_size, below_subseteq.
Qed.

Lemma createCallbackParameter_links (s : Store) (this : loc) (k : string) :
  is_Some (builders s !! this) ->
  ∃ r s', createCallbackParameter this k s = Some (r, s') ∧ same_links s s'.
Proof.
  intros [b Hb]. rewrite (createCallbackParameter_unfold s this b k Hb).
  destruct (callbackParameterCache b !! k);
    [eexists _, _; split; [done | apply same_links_refl] |].
  case_bool_decide;
    [eexists _, _; split; [done | apply same_links_refl] |].
  eexists _, _. split; [done |]. intros l. cbn.
  destruct (decide (this = l)) as [<-|Hne].
  - by rewrite lookup_insert_eq, Hb.
  - by rewrite lookup_insert_ne.
Qed.

Lemma mapM_createCallbackParameter_links (params : list Descriptor)
    (s : Store) (this : loc) :
  is_Some (builders s !! this) ->
  ∃ rs s',
    mapM (fun param => createCallbackParameter this (d_name param)) params s
      = Some (rs, s') ∧ same_links s s'.
Proof.
  revert s. induction params as [|param params IH]; intros s Hthis.
  { exists [], s. split; [done | apply same_links_refl]. }
  destruct (createCallbackParameter_links s this (d_name param) Hthis)
    as (r & s1 & Hrun1 & Hl1).
  assert (is_Some (builders s1 !! this)) as Hthis1.
  { destruct Hthis as [b Hb]. pose proof (Hl1 this) as H. rewrite Hb in H.
    by destruct (builders s1 !! this). }
  destruct (IH s1 Hthis1) as (rs & s2 & Hrun2 & Hl2).
  exists (r :: rs), s2. cbn [mapM]. unfold bind at 1. rewrite Hrun1.
  unfold bind. rewrite Hrun2. split; [done | by eapply same_links_trans].
Qed.

Section Termination.

Variable signature : option Process -> string -> Exn + list Descriptor.

Lemma getParentCallbackParameters_links (s : Store) (this : loc) :
  is_Some (builders s !! this) ->
  ∃ rs s',
    getParentCallbackParameters signature this s = Some (rs, s') ∧
    same_links s s'.
Proof.
  intros [b Hb]. rewrite (getParentCallbackParameters_unfold _ s this b Hb).
  destruct (parentNode b) as [node|];
    [| eexists _, _; split; [done | apply same_links_refl]].
  destruct (parentParameter b) as [parameterName|];
    [| eexists _, _; split; [done | apply same_links_refl]].
  case_bool_decide;
    [eexists _, _; split; [done | apply same_links_refl] |].
  destruct (signature _ _) as [error|params].
  - eexists _, _. split; [done |]. by intros l.
  - apply mapM_createCallbackParameter_links. by exists b.
Qed.

(** In a store whose parent links point to builders allocated earlier,
    `addParameter` returns on every builder: the walk up the parent chain
    ends. *)
Theorem addParameter_returns (s : Store) (this : loc)
    (parameter : Descriptor) (root : bool) :
  parents_ok s -> is_Some (builders s !! this) ->
  ∃ s', addParameter signature this parameter root s = Some (tt, s').
Proof.
  intros Hok Hthis. rewrite addParameter_unfold.
  destruct (getParentCallbackParameters_links s this Hthis)
    as (rs & s1 & -> & Hlinks).
  destruct (existsb _ rs); [by eexists |].
  assert (is_Some (builders s1 !! this)) as [b1 Hb1].
  { destruct Hthis as [b Hb]. pose proof (Hlinks this) as H. rewrite Hb in H.
    by destruct (builders s1 !! this). }
  destruct root.
  - destruct (find_root_total s1 this) as (r & br & -> & -> & _);
      [by eapply same_links_parents_ok | by exists b1 |]. by eexists.
  - cbn. rewrite Hb1. by eexists.
Qed.

End Termination.

(** * Further properties *)

(** ** The shape of ids *)

Lemma pretty_N_go_length (x : N) (s : string) :
  String.length s <= String.length (pretty_N_go x s).
Proof.
  revert s. induction (N.lt_wf_0 x) as [x _ IH]; intros s.
  assert (x = 0 ∨ 0 < x)%N as [->|Hpos] by lia.
  - by rewrite pretty_N_go_0.
  - rewrite pretty_N_go_step by done.
    etrans; [| apply IH; by apply N.div_lt]. cbn. lia.
Qed.

Lemma pretty_nonempty (n : N) : pretty n ≠ "".
Proof.
  unfold pretty, pretty_N. case_decide; [done |].
  rewrite pretty_N_go_step by lia.
  intros Heq. pose proof (pretty_N_go_length (n `div` 10)
    (String (pretty_N_char (n `mod` 10)) "")) as Hlen.
  rewrite Heq in Hlen. cbn in Hlen. lia.
Qed.

Lemma ends_in_digit_app (k d : string) :
  d ≠ "" -> ends_in_digit (k +:+ d) = ends_in_digit d.
Proof.
  intros Hd. induction k as [|c r IH]; [done |].
  change (String c r +:+ d) with (String c (r +:+ d)).
  cbn [ends_in_digit]. destruct (r +:+ d) eqn:Hrd; [| done].
  destruct r; [| done]. by destruct d.
Qed.

Lemma generateId_counter (this : Builder) (name : string) :
  generateId this name =
  (stem name +:+ pretty (counter_of this (stem name) + 1)%N,
   set_idCounter this
     (<[stem name := (counter_of this (stem name) + 1)%N]> (idCounter this))).
Proof.
  rewrite generateId_unfold. unfold counter_of. cbv zeta.
  destruct (idCounter this !! stem name) as [n|]; [| done]. cbn.
  by destruct (N.eqb_spec n 0) as [->|_].
Qed.

(** An id ends in a decimal digit, so it is no name of a member that the
    node map, a plain object, inherits: `this.nodes[node.id] = node`
    always writes an own property. *)
Theorem generateId_ends_in_digit (this : Builder) (name : string) :
  ends_in_digit (fst (generateId this name)) = true ∧
  bool_decide (fst (generateId this name) ∈ Object_prototype) = false.
Proof.
  rewrite generateId_counter. cbn [fst].
  assert (ends_in_digit
            (stem name +:+ pretty (counter_of this (stem name) + 1)%N) = true)
    as Hend.
  { rewrite ends_in_digit_app by apply pretty_nonempty.
    apply all_digits_ends; [apply pretty_digits | apply pretty_nonempty]. }
  split; [done |]. apply bool_decide_eq_false_2. intros Hin.
  unfold Object_prototype in Hin. rewrite !elem_of_cons, elem_of_nil in Hin.
  repeat (destruct Hin as [Heq | Hin];
          [rewrite Heq in Hend; discriminate Hend |]).
  done.
Qed.

(** ** Numbering *)

Lemma generateIds_cons (this : Builder) (name : string) (names : list string) :
  generateIds this (name :: names) =
  (fst (generateId this name)
     :: fst (generateIds (snd (generateId this name)) names),
   snd (generateIds (snd (generateId this name)) names)).
Proof.
  cbn [generateIds]. destruct (generateId this name) as [id this1].
  cbn [fst snd]. by destruct (generateIds this1 names).
Qed.

Lemma counter_of_generateId (this : Builder) (name k : string) :
  counter_of (snd (generateId this name)) k =
  (counter_of this k + if bool_decide (stem name = k) then 1 else 0)%N.
Proof.
  rewrite generateId_counter. unfold counter_of at 1.
  cbn [snd idCounter set_idCounter]. case_bool_decide as Hk.
  - subst k. by rewrite lookup_insert_eq.
  - rewrite lookup_insert_ne by done. unfold counter_of. lia.
Qed.

Lemma uses_cons (k name : string) (names : list string) :
  uses k (name :: names) =
  (if bool_decide (stem name = k) then 1 else 0) + uses k names.
Proof.
  unfold uses. case_bool_decide.
  - by rewrite filter_cons_True.
  - by rewrite filter_cons_False.
Qed.

Lemma generateIds_length (names : list string) (this : Builder) :
  length (fst (generateIds this names)) = length names.
Proof.
  revert this. induction names as [|name names IH]; intros this; [done |].
  rewrite generateIds_cons. cbn. by rewrite IH.
Qed.

Lemma generateIds_counter (names : list string) (this : Builder) (k : string) :
  counter_of (snd (generateIds this names)) k =
  (counter_of this k + N.of_nat (uses k names))%N.
Proof.
  revert this. induction names as [|name names IH]; intros this.
  - cbn. unfold uses. cbn. lia.
  - rewrite generateIds_cons. cbn [snd].
    rewrite IH, counter_of_generateId, uses_cons. case_bool_decide; lia.
Qed.

(** The id of the call at position [i]. *)
Lemma generateIds_nth (names : list string) (this : Builder) (i : nat)
    (name : string) :
  names !! i = Some name ->
  fst (generateIds this names) !! i =
  Some (stem name +:+
        pretty (counter_of this (stem name) +
                N.of_nat (uses (stem name) (take (S i) names)))%N).
Proof.
  revert this i. induction names as [|name0 names IH]; intros this i Hi;
    [done |].
  rewrite generateIds_cons. cbn [fst]. destruct i as [|i].
  - injection Hi as ->. cbn [lookup list_lookup take].
    rewrite generateId_counter. cbn [fst]. rewrite uses_cons.
    rewrite bool_decide_eq_true_2 by done.
    change (uses (stem name) (take 0 names)) with 0.
    do 3 f_equal; lia.
  - cbn in Hi. change ((?x :: ?l) !! S i) with (l !! i).
    rewrite (IH _ i Hi). rewrite counter_of_generateId.
    change (take (S (S i)) (name0 :: names)) with (name0 :: take (S i) names).
    rewrite uses_cons. do 3 f_equal; case_bool_decide; lia.
Qed.

(** Numbering: a sequence of calls of `generateId` returns one id per call;
    the id of a call is its truncated stem followed by the counter the stem
    had before the sequence plus the number of calls with that stem up to
    and including this one; afterwards the counter of every stem has grown
    by the number of calls with that stem. *)
Theorem generateIds_numbering (names : list string) (this : Builder) :
  length (fst (generateIds this names)) = length names ∧
  (∀ i name, names !! i = Some name ->
     fst (generateIds this names) !! i =
     Some (stem name +:+
           pretty (counter_of this (stem name) +
                   N.of_nat (uses (stem name) (take (S i) names)))%N)) ∧
  (∀ k, counter_of (snd (generateIds this names)) k =
        (counter_of this k + N.of_nat (uses k names))%N).
Proof.
  split; [apply generateIds_length |].
  split; [intros i name; apply generateIds_nth | apply generateIds_counter].
Qed.

(** ** Colliding ids *)

Lemma string_app_eq (k1 k2 d1 d2 : string) :
  k1 +:+ d1 = k2 +:+ d2 ->
  ∃ e, (k1 = k2 +:+ e ∧ d2 = e +:+ d1) ∨ (k2 = k1 +:+ e ∧ d1 = e +:+ d2).
Proof.
  revert k2. induction k1 as [|c1 r1 IH]; intros k2 Heq.
  - exists k2. right. by split.
  - destruct k2 as [|c2 r2].
    + exists (String c1 r1). left. split; [done | exact (eq_sym Heq)].
    + change (String c1 (r1 +:+ d1) = String c2 (r2 +:+ d2)) in Heq.
      injection Heq as -> Heq. destruct (IH r2 Heq) as [e [[-> ->] | [-> ->]]].
      * exists e. by left.
      * exists e. by right.
Qed.

Lemma string_app_nil_r (k : string) : k +:+ "" = k.
Proof.
  induction k as [|c r IH]; [done |].
  change (String c r +:+ "") with (String c (r +:+ "")). by rewrite IH.
Qed.

Lemma uses_take_mono (k : string) (names : list string) (n m : nat) :
  n <= m -> uses k (take n names) <= uses k (take m names).
Proof.
  revert n m. induction names as [|name names IH]; intros n m Hnm.
  - by rewrite !take_nil.
  - destruct n as [|n]; [cbn; unfold uses at 1; cbn; lia |].
    destruct m as [|m]; [lia |]. cbn [take]. rewrite !uses_cons.
    specialize (IH n m). lia.
Qed.

Lemma uses_take_lt (k : string) (names : list string) (i j : nat)
    (name : string) :
  i < j -> names !! j = Some name -> stem name = k ->
  uses k (take (S i) names) < uses k (take (S j) names).
Proof.
  intros Hij Hj Hk. rewrite (take_S_r names j name Hj).
  assert (uses k (take j names ++ [name]) = uses k (take j names) + 1) as ->.
  { unfold uses. rewrite filter_app, length_app.
    by rewrite filter_cons_True by done. }
  pose proof (uses_take_mono k names (S i) j ltac:(lia)). lia.
Qed.

(** Two calls of one sequence get the same id only when the truncated stem
    of one is the truncated stem of the other followed by decimal digits. *)
Theorem generateIds_collision (names : list string) (this : Builder)
    (i j : nat) (ni nj : string) :
  i < j -> names !! i = Some ni -> names !! j = Some nj ->
  fst (generateIds this names) !! i = fst (generateIds this names) !! j ->
  extends_by_digits (stem ni) (stem nj) ∨ extends_by_digits (stem nj) (stem ni).
Proof.
  intros Hij Hi Hj. rewrite (generateIds_nth names this i ni Hi).
  rewrite (generateIds_nth names this j nj Hj). intros [= Heq].
  destruct (decide (stem ni = stem nj)) as [Hstem|Hstem].
  - rewrite Hstem in Heq. apply (inj (String.append _)) in Heq.
    apply (inj pretty) in Heq.
    pose proof (uses_take_lt (stem nj) names i j nj Hij Hj eq_refl). lia.
  - destruct (string_app_eq _ _ _ _ Heq) as [e [[Hk Hd] | [Hk Hd]]].
    + left. exists e. repeat split; try done.
      * intros ->. by rewrite string_app_nil_r in Hk.
      * pose proof (pretty_digits (counter_of this (stem nj) +
          N.of_nat (uses (stem nj) (take (S j) names)))%N) as Hdig.
        rewrite Hd, all_digits_app in Hdig.
        by apply andb_true_iff in Hdig as [? _].
    + right. exists e. repeat split; try done.
      * intros ->. by rewrite string_app_nil_r in Hk.
      * pose proof (pretty_digits (counter_of this (stem ni) +
          N.of_nat (uses (stem ni) (take (S i) names)))%N) as Hdig.
        rewrite Hd, all_digits_app in Hdig.
        by apply andb_true_iff in Hdig as [? _].
Qed.

(** ** Stored nodes *)

Lemma process_all_cons (this : Builder) (c : Call) (calls : list Call) :
  process_all this (c :: calls) =
  let first :=
    process this (call_processId c) (call_args c) (call_description c) in
  let rest := process_all (snd (fst first)) calls in
  (fst (fst first) :: fst (fst rest), snd (fst rest), snd first ++ snd rest).
Proof.
  cbn [process_all]. destruct (process this _ _ _) as [[node this1] w].
  cbn [fst snd]. by destruct (process_all this1 calls) as [[rest this2] w'].
Qed.

Lemma process_nodes (this : Builder) (processId : string) (args : Args)
    (description : option string) :
  nodes (snd (fst (process this processId args description))) =
  <[node_id (fst (fst (process this processId args description))) :=
      fst (fst (process this processId args description))]> (nodes this).
Proof. by rewrite process_unfold. Qed.

Lemma process_all_other (calls : list Call) (this : Builder) (id : string) :
  id ∉ node_id <$> fst (fst (process_all this calls)) ->
  nodes (snd (fst (process_all this calls))) !! id = nodes this !! id.
Proof.
  revert this. induction calls as [|c calls IH]; intros this; [done |].
  rewrite process_all_cons. cbv zeta. cbn [fst snd].
  rewrite fmap_cons, not_elem_of_cons. intros [Hne Hrest].
  rewrite (IH _ Hrest), process_nodes. by rewrite lookup_insert_ne.
Qed.

Lemma process_all_created (calls : list Call) (this : Builder) (id : string) :
  id ∈ node_id <$> fst (fst (process_all this calls)) ->
  is_Some (nodes (snd (fst (process_all this calls))) !! id).
Proof.
  revert this. induction calls as [|c calls IH]; intros this;
    [by intros ?%elem_of_nil |].
  rewrite process_all_cons. cbv zeta. cbn [fst snd]. rewrite fmap_cons.
  set (this1 := snd (fst (process this _ _ _))).
  destruct (decide (id ∈ node_id <$> fst (fst (process_all this1 calls))))
    as [Hin|Hnot]; [intros _; by apply IH |].
  intros [-> | ?]%elem_of_cons; [| done].
  rewrite (process_all_other calls this1 _ Hnot). unfold this1.
  rewrite process_nodes, lookup_insert_eq. by eexists.
Qed.

Lemma process_all_last (calls : list Call) (this : Builder) (i : nat)
    (node : BuilderNode) :
  fst (fst (process_all this calls)) !! i = Some node ->
  (∀ j later, i < j ->
     fst (fst (process_all this calls)) !! j = Some later ->
     node_id later ≠ node_id node) ->
  nodes (snd (fst (process_all this calls))) !! node_id node = Some node.
Proof.
  revert this i. induction calls as [|c calls IH]; intros this i; [done |].
  rewrite process_all_cons. cbv zeta. cbn [fst snd].
  set (this1 := snd (fst (process this _ _ _))).
  destruct i as [|i].
  - intros [= <-] Hlater. rewrite process_all_other.
    + unfold this1. by rewrite process_nodes, lookup_insert_eq.
    + intros (later & Heq & [j Hj]%list_elem_of_lookup)%list_elem_of_fmap.
      by apply (Hlater (S j) later ltac:(lia) Hj).
  - intros Hi Hlater. apply (IH this1 i Hi).
    intros j later Hij Hj. apply (Hlater (S j) later ltac:(lia) Hj).
Qed.

Lemma process_all_keys (calls : list Call) (this : Builder) (id : string) :
  is_Some (nodes (snd (fst (process_all this calls))) !! id) ↔
  is_Some (nodes this !! id) ∨
  id ∈ node_id <$> fst (fst (process_all this calls)).
Proof.
  destruct (decide (id ∈ node_id <$> fst (fst (process_all this calls))))
    as [Hin|Hnot].
  - split; [by right | intros _; by apply process_all_created].
  - rewrite (process_all_other calls this id Hnot). tauto.
Qed.

(** The node map after a sequence of calls of `process`: its keys are the
    keys it had and the ids of the nodes returned, and a node returned is
    found under its id unless a later call of the sequence got the same
    id. *)
Theorem process_all_stored (calls : list Call) (this : Builder) :
  (∀ id, is_Some (nodes (snd (fst (process_all this calls))) !! id) ↔
         is_Some (nodes this !! id) ∨
         id ∈ node_id <$> fst (fst (process_all this calls))) ∧
  (∀ i node, fst (fst (process_all this calls)) !! i = Some node ->
     (∀ j later, i < j ->
        fst (fst (process_all this calls)) !! j = Some later ->
        node_id later ≠ node_id node) ->
     nodes (snd (fst (process_all this calls))) !! node_id node = Some node).
Proof.
  split; [apply process_all_keys |].
  intros i node. apply process_all_last.
Qed.

(** ** The catalogue of a builder *)

Lemma spec_Some (this : Builder) (k : string) (p : Process) :
  spec this k = Some p -> proc_id p = k ∧ p ∈ processes this.
Proof.
  unfold spec. intros [Hin Hp]%find_some.
  apply bool_decide_eq_true in Hp. split; [done | by apply list_elem_of_In].
Qed.

Lemma spec_None (this : Builder) (k : string) :
  spec this k = None ↔ k ∉ proc_id <$> processes this.
Proof.
  unfold spec. split.
  - intros Hnone (p & -> & Hp)%list_elem_of_fmap.
    apply list_elem_of_In in Hp.
    pose proof (find_none _ _ Hnone p Hp) as Hf.
    by apply bool_decide_eq_false in Hf.
  - intros Hnot. destruct (find _ _) as [p|] eqn:Hfind; [| done].
    apply find_some in Hfind as [Hin Hp]. destruct Hnot.
    apply bool_decide_eq_true in Hp as <-.
    apply list_elem_of_fmap_2. by apply list_elem_of_In.
Qed.

Lemma spec_is_Some (this : Builder) (p : Process) :
  p ∈ processes this ->
  ∃ p', spec this (proc_id p) = Some p' ∧ proc_id p' = proc_id p.
Proof.
  intros Hp. destruct (spec this (proc_id p)) as [p'|] eqn:Hspec.
  - exists p'. split; [done |]. by apply spec_Some in Hspec as [? _].
  - apply spec_None in Hspec. destruct Hspec. by apply list_elem_of_fmap_2.
Qed.

Lemma get_member_method (this : Builder) (k pid : string) :
  get_member this k = MProp (PMethod pid) ->
  props this !! k = Some (PMethod pid).
Proof.
  unfold get_member. case_bool_decide; [done |].
  destruct (props this !! k) as [v|]; [by intros [= ->] |].
  by repeat case_bool_decide.
Qed.

(** The methods among the properties are named by their own process id,
    an id of [ps]. *)
Lemma fold_install_methods (ps qs : list Process) (st : Builder * list Logged) :
  qs ⊆ ps ->
  (∀ k pid, props (fst st) !! k = Some (PMethod pid) ->
            pid = k ∧ k ∈ proc_id <$> ps) ->
  ∀ k pid, props (fst (fold_left install qs st)) !! k = Some (PMethod pid) ->
           pid = k ∧ k ∈ proc_id <$> ps.
Proof.
  revert st. induction qs as [|q qs IH]; intros st Hsub Hst; [done |].
  cbn [fold_left]. apply IH.
  - intros x Hx. apply Hsub. by right.
  - destruct st as [this console]. rewrite install_unfold.
    destruct (is_undefined _); [| done]. cbn. intros k pid.
    destruct (decide (proc_id q = k)) as [<-|Hne].
    + rewrite lookup_insert_eq. intros [= <-]. split; [done |].
      apply list_elem_of_fmap_2, Hsub. left.
    + rewrite lookup_insert_ne by done. apply Hst.
Qed.

(** After the loop every id of the catalogue is a defined member. *)
Lemma fold_install_member (ps : list Process) (st : Builder * list Logged)
    (q : Process) :
  q ∈ ps ->
  is_undefined (get_member (fst (fold_left install ps st)) (proc_id q)) = false.
Proof.
  revert st. induction ps as [|p ps IH]; intros st; [by intros ?%elem_of_nil |].
  cbn [fold_left]. intros [-> | Hq]%elem_of_cons; [| by apply IH].
  assert (is_undefined (get_member (fst (install st p)) (proc_id p)) = false)
    as Hp.
  { destruct st as [this console]. rewrite install_unfold.
    destruct (is_undefined (get_member this (proc_id p))) eqn:Hu; [| done].
    cbn [fst]. by rewrite get_member_set_member_eq. }
  by rewrite fold_install_defined.
Qed.

(** Construction and the catalogue: the builder holds the catalogue passed;
    a member that is a method installed by the constructor is named by the
    id of a catalogue entry, and `spec` finds an entry of that id; every
    id of the catalogue is a defined member of the builder and is found by
    `spec`; and `spec` returns `undefined` exactly for the ids that the
    catalogue does not have. *)
Theorem Builder_new_catalog (catalog : JsValue) (parent : option loc)
    (id : option Json) (this : Builder) (console : list Logged) :
  Builder_new catalog parent id = inr (this, console) ->
  catalog_of catalog = inr (Some <$> processes this) ∧
  (∀ k pid, get_member this k = MProp (PMethod pid) ->
     pid = k ∧ ∃ p, spec this k = Some p ∧ proc_id p = k) ∧
  (∀ p, p ∈ processes this ->
     is_undefined (get_member this (proc_id p)) = false ∧
     ∃ p', spec this (proc_id p) = Some p' ∧ proc_id p' = proc_id p) ∧
  (∀ k, spec this k = None ↔ k ∉ proc_id <$> processes this).
Proof.
  intros (ps & Hcat & Hloop)%Builder_new_inr. symmetry in Hloop.
  rewrite Hcat.
  assert (processes this = ps) as Hps.
  { pose proof (fold_install_fields ps (Builder_init ps parent id, [])) as H.
    rewrite Hloop in H. cbn in H. by rewrite H. }
  rewrite Hps. split; [done |]. split; [| split].
  - intros k pid Hm%get_member_method.
    destruct (fold_install_methods ps ps (Builder_init ps parent id, [])
                ltac:(done)) with (k := k) (pid := pid) as [-> Hin].
    + cbn. intros k' pid'. destruct id; [| done].
      rewrite lookup_singleton_Some. by intros [_ ?].
    + by rewrite Hloop.
    + split; [done |].
      apply list_elem_of_fmap in Hin as (p & -> & Hp).
      apply spec_is_Some. by rewrite Hps.
  - intros p Hp. split.
    + pose proof (fold_install_member ps (Builder_init ps parent id, []) p Hp)
        as H. by rewrite Hloop in H.
    + apply spec_is_Some. by rewrite Hps.
  - intros k. rewrite <- Hps. apply spec_None.
Qed.

(** ** From construction to serialisation *)

Lemma get_member_props (b1 b2 : Builder) (k : string) :
  props b1 = props b2 -> get_member b1 k = get_member b2 k.
Proof. unfold get_member. by intros ->. Qed.

Lemma process_props (this : Builder) (processId : string) (args : Args)
    (description : option string) :
  props (snd (fst (process this processId args description))) = props this.
Proof. by rewrite process_unfold, generateId_unfold. Qed.

Lemma process_all_props (calls : list Call) (this : Builder) :
  props (snd (fst (process_all this calls))) = props this.
Proof.
  revert this. induction calls as [|c calls IH]; intros this; [done |].
  rewrite process_all_cons. cbv zeta. cbn [fst snd].
  by rewrite IH, process_props.
Qed.

Section Composition.

Variable node_toJSON : BuilderNode -> Json.

Lemma toJSON_process_graph (this : Builder) :
  toJSON node_toJSON this !! "process_graph"
    = Some (EGraph (node_toJSON <$> nodes this)).
Proof.
  unfold toJSON. rewrite toJSON_fold.
  rewrite (bool_decide_eq_false_2 ("process_graph" ∈ PROCESS_META));
    [apply lookup_singleton_eq |].
  unfold PROCESS_META. rewrite !elem_of_cons, elem_of_nil.
  intros H. repeat (destruct H as [H | H]; [discriminate |]). done.
Qed.

Lemma toJSON_meta (this : Builder) (key : string) :
  key ≠ "process_graph" ->
  toJSON node_toJSON this !! key =
  if bool_decide (key ∈ PROCESS_META) then
    match get_member this key with
    | MUndefined => None
    | m => Some (EMember m)
    end
  else None.
Proof.
  intros Hkey. unfold toJSON. rewrite toJSON_fold.
  rewrite lookup_singleton_ne by done. by destruct (bool_decide _).
Qed.

(** From a new builder through any calls of `process` to `toJSON`: the
    keys of `process_graph` are exactly the ids of the nodes returned; a
    node returned is serialised under its id unless a later call got the
    same id; and the metadata exported, `parameters` aside, are those of
    the new builder.  (`parameters` is what `addParameter` sets, which a
    node calls for an argument that is a `Parameter`.) *)
Theorem Builder_new_process_toJSON (catalog : JsValue) (parent : option loc)
    (id : option Json) (this : Builder) (console : list Logged)
    (calls : list Call) :
  Builder_new catalog parent id = inr (this, console) ->
  ∃ g,
    toJSON node_toJSON (snd (fst (process_all this calls))) !! "process_graph"
      = Some (EGraph g) ∧
    (∀ k, is_Some (g !! k) ↔
          k ∈ node_id <$> fst (fst (process_all this calls))) ∧
    (∀ i node, fst (fst (process_all this calls)) !! i = Some node ->
       (∀ j later, i < j ->
          fst (fst (process_all this calls)) !! j = Some later ->
          node_id later ≠ node_id node) ->
       g !! node_id node = Some (node_toJSON node)) ∧
    (∀ key, key ≠ "process_graph" -> key ≠ "parameters" ->
       toJSON node_toJSON (snd (fst (process_all this calls))) !! key =
       toJSON node_toJSON this !! key).
Proof.
  intros Hnew.
  assert (nodes this = ∅) as Hempty.
  { apply Builder_new_inr in Hnew as (ps & _ & Hloop).
    symmetry in Hloop.
    pose proof (fold_install_fields ps (Builder_init ps parent id, [])) as H.
    rewrite Hloop in H. cbn in H. by rewrite H. }
  eexists. split; [apply toJSON_process_graph |]. split; [| split].
  - intros k. rewrite lookup_fmap, fmap_is_Some, process_all_keys, Hempty.
    rewrite lookup_empty. split; [intros [[? ?] | ?]; done | by right].
  - intros i node Hi Hlater.
    by rewrite lookup_fmap, (process_all_last calls this i node Hi Hlater).
  - intros key Hkey _. rewrite !toJSON_meta by done.
    by rewrite (get_member_props _ this key (process_all_props calls this)).
Qed.

End Composition.

(** ** Declaring parameters, continued *)

Lemma Object_assign_idemp (e d : Descriptor) :
  Object_assign (Object_assign e d) d = Object_assign e d.
Proof.
  unfold Object_assign. cbn. f_equal.
  by rewrite (assoc_L (∪)), (idemp_L (∪)).
Qed.

Lemma Object_assign_self (d : Descriptor) : Object_assign d d = d.
Proof.
  destruct d as [n f]. unfold Object_assign. cbn. f_equal. apply (idemp_L (∪)).
Qed.

(** Declaring the same descriptor again changes nothing. *)
Lemma declare_idemp (d : Descriptor) (ps : list Descriptor) :
  declare d (declare d ps) = declare d ps.
Proof.
  destruct (decide (d_name d ∈ d_name <$> ps)) as [Hin|Hnew].
  - destruct (split_by_name _ _ Hin) as (l1 & e & l2 & -> & He & Hl1).
    rewrite (declare_existing d e) by done.
    rewrite (declare_existing d (Object_assign e d)) by done.
    by rewrite Object_assign_idemp.
  - rewrite (declare_new d ps) by done.
    rewrite (declare_existing d d ps []) by done.
    by rewrite Object_assign_self.
Qed.

(** What declaring does to the list: the names stay in place, the name
    declared is appended when it is new, and an entry is either left as it
    is or, when it has the name declared, merged with the descriptor. *)
Theorem declare_frame (d : Descriptor) (ps : list Descriptor) :
  d_name <$> declare d ps =
    (if bool_decide (d_name d ∈ d_name <$> ps) then d_name <$> ps
     else (d_name <$> ps) ++ [d_name d]) ∧
  (∀ i e, ps !! i = Some e ->
     declare d ps !! i = Some e ∨
     (d_name e = d_name d ∧ declare d ps !! i = Some (Object_assign e d))) ∧
  (∀ i e, ps !! i = Some e -> d_name e ≠ d_name d ->
     declare d ps !! i = Some e).
Proof.
  assert (∀ i e, ps !! i = Some e ->
     declare d ps !! i = Some e ∨
     (d_name e = d_name d ∧ declare d ps !! i = Some (Object_assign e d)))
    as Hentry.
  { intros i e Hi.
    destruct (decide (d_name d ∈ d_name <$> ps)) as [Hin|Hnew].
    - destruct (split_by_name _ _ Hin) as (l1 & e0 & l2 & -> & He0 & Hl1).
      rewrite (declare_existing d e0) by done.
      destruct (decide (i = length l1)) as [->|Hne].
      + rewrite list_lookup_middle in Hi by done. injection Hi as <-.
        right. split; [done |]. by rewrite list_lookup_middle.
      + left. rewrite <- Hi.
        destruct (decide (i < length l1)).
        * by rewrite !lookup_app_l.
        * rewrite !lookup_app_r by lia.
          destruct (i - length l1) as [|m] eqn:Hm; [lia | done].
    - left. rewrite declare_new by done. by apply lookup_app_l_Some. }
  split; [| split; [exact Hentry |]].
  - case_bool_decide as Hin.
    + destruct (split_by_name _ _ Hin) as (l1 & e & l2 & -> & He & Hl1).
      rewrite (declare_existing d e) by done.
      rewrite !fmap_app, !fmap_cons. cbn. by rewrite He.
    + rewrite declare_new by done. by rewrite fmap_app.
  - intros i e Hi Hne. by destruct (Hentry i e Hi) as [? | [? _]].
Qed.

(** ** Callback parameters, continued *)

Lemma createCallbackParameter_settled (s s1 : Store) (this : loc)
    (k : string) (r : CallbackParameter) :
  createCallbackParameter this k s = Some (r, s1) ->
  createCallbackParameter this k s1 = Some (r, s1).
Proof.
  destruct (builders s !! this) as [b|] eqn:Hb.
  2: { unfold createCallbackParameter, bind, get_builder. by rewrite Hb. }
  rewrite (createCallbackParameter_unfold s this b k Hb).
  destruct (callbackParameterCache b !! k) as [p|] eqn:Hk.
  { intros [= <- <-].
    by rewrite (createCallbackParameter_unfold s this b k Hb), Hk. }
  destruct (bool_decide (k ∈ Object_prototype)) eqn:Hin.
  { intros [= <- <-].
    by rewrite (createCallbackParameter_unfold s this b k Hb), Hk, Hin. }
  intros [= <- <-].
  erewrite createCallbackParameter_unfold; [| cbn; apply lookup_insert_eq].
  cbn. by rewrite lookup_insert_eq.
Qed.

Lemma createCallbackParameter_keeps (s s' : Store) (this : loc)
    (k k' : string) (r r' : CallbackParameter) :
  createCallbackParameter this k s = Some (r, s) ->
  createCallbackParameter this k' s = Some (r', s') ->
  createCallbackParameter this k s' = Some (r, s').
Proof.
  destruct (builders s !! this) as [b|] eqn:Hb.
  2: { unfold createCallbackParameter, bind, get_builder. by rewrite Hb. }
  rewrite (createCallbackParameter_unfold s this b k Hb).
  rewrite (createCallbackParameter_unfold s this b k' Hb).
  intros Hk Hk'.
  destruct (callbackParameterCache b !! k') as [p'|] eqn:Hc'.
  { injection Hk' as <- <-.
    by rewrite (createCallbackParameter_unfold s this b k Hb). }
  destruct (bool_decide (k' ∈ Object_prototype)) eqn:Hin'.
  { injection Hk' as <- <-.
    by rewrite (createCallbackParameter_unfold s this b k Hb). }
  injection Hk' as <- <-.
  erewrite createCallbackParameter_unfold; [| cbn; apply lookup_insert_eq].
  cbn [callbackParameterCache set_callbackParameterCache].
  destruct (callbackParameterCache b !! k) as [p|] eqn:Hc.
  - injection Hk as <-. rewrite lookup_insert_ne by congruence.
    by rewrite Hc.
  - destruct (bool_decide (k ∈ Object_prototype)) eqn:Hin.
    + injection Hk as <-.
      rewrite lookup_insert_ne;
        [| intros Heq; rewrite Heq, Hin in Hin'; discriminate].
      by rewrite Hc.
    + injection Hk as _ Hs. exfalso. apply (f_equal objects) in Hs.
      cbn in Hs. apply (f_equal length) in Hs.
      rewrite length_app in Hs. cbn in Hs. lia.
Qed.

Lemma mapM_createCallbackParameter_keeps (params : list Descriptor)
    (s s' : Store) (this : loc) (k : string) (r : CallbackParameter)
    (rs : list CallbackParameter) :
  createCallbackParameter this k s = Some (r, s) ->
  mapM (fun param => createCallbackParameter this (d_name param)) params s
    = Some (rs, s') ->
  createCallbackParameter this k s' = Some (r, s').
Proof.
  revert s rs. induction params as [|param params IH]; intros s rs Hk.
  { by intros [= <- <-]. }
  cbn [mapM]. unfold bind at 1.
  destruct (createCallbackParameter this (d_name param) s)
    as [[r1 s1]|] eqn:H1; [| done].
  unfold bind at 1.
  destruct (mapM _ params s1) as [[rs1 s2]|] eqn:H2; [| done].
  intros [= <- <-]. eapply IH; [| exact H2].
  by eapply createCallbackParameter_keeps.
Qed.

Lemma mapM_createCallbackParameter_twice (params : list Descriptor)
    (s s' : Store) (this : loc) (rs : list CallbackParameter) :
  mapM (fun param => createCallbackParameter this (d_name param)) params s
    = Some (rs, s') ->
  mapM (fun param => createCallbackParameter this (d_name param)) params s'
    = Some (rs, s').
Proof.
  revert s rs. induction params as [|param params IH]; intros s rs.
  { by intros [= <- <-]. }
  cbn [mapM]. unfold bind at 1.
  destruct (createCallbackParameter this (d_name param) s)
    as [[r1 s1]|] eqn:H1; [| done].
  unfold bind at 1.
  destruct (mapM _ params s1) as [[rs1 s2]|] eqn:H2; [| done].
  intros [= <- <-]. unfold bind at 1.
  rewrite (mapM_createCallbackParameter_keeps params s1 s2 this _ r1 rs1
             (createCallbackParameter_settled _ _ _ _ _ H1) H2).
  unfold bind. by rewrite (IH s1 rs1 H2).
Qed.

Lemma createCallbackParameter_more (s s' : Store) (this : loc) (k : string)
    (r : CallbackParameter) :
  createCallbackParameter this k s = Some (r, s') ->
  caches_more this [k] s s'.
Proof.
  destruct (builders s !! this) as [b|] eqn:Hb.
  2: { unfold createCallbackParameter, bind, get_builder. by rewrite Hb. }
  rewrite (createCallbackParameter_unfold s this b k Hb).
  destruct (callbackParameterCache b !! k) as [p|] eqn:Hk.
  { intros [= <- <-]. apply caches_more_refl. }
  destruct (bool_decide (k ∈ Object_prototype)) eqn:Hin.
  { intros [= <- <-]. apply caches_more_refl. }
  intros [= <- <-].
  split; [done |]. split; [by apply prefix_app_r |]. cbn.
  split; [intros l Hl; by rewrite lookup_insert_ne |].
  intros b' Hb'. rewrite Hb in Hb'. injection Hb' as <-.
  eexists. split; [apply lookup_insert_eq |].
  split; [by apply insert_subseteq |].
  intros k' Hk'. rewrite lookup_insert_ne; [done |].
  intros ->. apply Hk'. left.
Qed.

Lemma mapM_createCallbackParameter_more (params : list Descriptor)
    (s s' : Store) (this : loc) (rs : list CallbackParameter) :
  mapM (fun param => createCallbackParameter this (d_name param)) params s
    = Some (rs, s') ->
  caches_more this (d_name <$> params) s s'.
Proof.
  revert s rs. induction params as [|param params IH]; intros s rs.
  { intros [= <- <-]. apply caches_more_refl. }
  cbn [mapM]. unfold bind at 1.
  destruct (createCallbackParameter this (d_name param) s)
    as [[r1 s1]|] eqn:H1; [| done].
  unfold bind at 1.
  destruct (mapM _ params s1) as [[rs1 s2]|] eqn:H2; [| done].
  intros [= <- <-]. eapply caches_more_trans.
  - eapply caches_more_keys; [| exact (createCallbackParameter_more _ _ _ _ _ H1)].
    intros k ->%list_elem_of_singleton. rewrite fmap_cons. left.
  - eapply caches_more_keys; [| exact (IH _ _ H2)].
    intros k Hk. rewrite fmap_cons. by right.
Qed.

(** What a store that caches more keeps of each builder. *)
Lemma caches_more_builders (this : loc) (keys : list string) (s s' : Store)
    (l : loc) (b0 : Builder) :
  caches_more this keys s s' -> builders s !! l = Some b0 ->
  ∃ c, builders s' !! l = Some (set_callbackParameterCache b0 c) ∧
       callbackParameterCache b0 ⊆ c ∧
       (l ≠ this -> c = callbackParameterCache b0).
Proof.
  intros (_ & _ & Hother & Hthis) Hl.
  destruct (decide (l = this)) as [->|Hne].
  - destruct (Hthis b0 Hl) as (c & Hc & Hsub & _). by exists c.
  - exists (callbackParameterCache b0). rewrite (Hother l Hne), Hl.
    by destruct b0.
Qed.

Lemma caches_more_links (this : loc) (keys : list string) (s s' : Store) :
  is_Some (builders s !! this) -> caches_more this keys s s' ->
  same_links s s'.
Proof.
  intros [b Hb] Hmore l.
  destruct (builders s !! l) as [b0|] eqn:Hl.
  - destruct (caches_more_builders this keys s s' l b0 Hmore Hl)
      as (c & -> & _). done.
  - destruct Hmore as (_ & _ & Hother & _).
    rewrite Hother; [by rewrite Hl |]. intros ->. congruence.
Qed.

(** Under names that no plain object inherits, the values returned are
    `Parameter` objects, one per parameter, in order, each with the name of
    its parameter and cached under it. *)
Lemma mapM_createCallbackParameter_names (params : list Descriptor)
    (s : Store) (this : loc) :
  cache_ok s this ->
  (∀ k, k ∈ d_name <$> params -> k ∉ Object_prototype) ->
  ∃ rs s' b',
    mapM (fun param => createCallbackParameter this (d_name param)) params s
      = Some (rs, s') ∧
    cache_ok s' this ∧ builders s' !! this = Some b' ∧
    Forall2 (fun r param =>
               name_of s' r = Some (d_name param) ∧
               ∃ p, r = CPObject p ∧
                    callbackParameterCache b' !! d_name param = Some p)
            rs params.
Proof.
  revert s. induction params as [|param params IH]; intros s Hok Hproto.
  { destruct Hok as (b & Hb & Hcache).
    exists [], s, b. split; [done |]. split; [by exists b |]. by split. }
  assert (d_name param ∉ Object_prototype) as Hp.
  { apply Hproto. rewrite fmap_cons. left. }
  assert (∀ k, k ∈ d_name <$> params -> k ∉ Object_prototype) as Hps.
  { intros k Hk. apply Hproto. rewrite fmap_cons. by right. }
  destruct (createCallbackParameter_caches s this (d_name param) Hok)
    as (r & s1 & Hrun1 & Hmore1 & Hok1 & Hname1 & _).
  destruct (IH s1 Hok1 Hps) as (rs & s2 & b2 & Hrun2 & Hok2 & Hb2 & Hall).
  pose proof (mapM_createCallbackParameter_more _ _ _ _ _ Hrun2) as Hmore2.
  exists (r :: rs), s2, b2. cbn [mapM]. unfold bind at 1. rewrite Hrun1.
  unfold bind at 1. rewrite Hrun2. split; [done |].
  split; [done |]. split; [done |].
  constructor; [| done]. split.
  - eapply name_of_caches_more; [exact Hmore2 | by apply Hname1].
  - destruct Hok as (b & Hb & _).
    rewrite (createCallbackParameter_unfold s this b _ Hb) in Hrun1.
    assert (∃ p b1, r = CPObject p ∧ builders s1 !! this = Some b1 ∧
                    callbackParameterCache b1 !! d_name param = Some p)
      as (p & b1 & -> & Hb1 & Hc1).
    { destruct (callbackParameterCache b !! d_name param) as [p|] eqn:Hc.
      - injection Hrun1 as <- <-. by exists p, b.
      - rewrite bool_decide_eq_false_2 in Hrun1 by done.
        injection Hrun1 as <- <-. eexists _, _. split; [done |]. cbn.
        split; [apply lookup_insert_eq |]. cbn. apply lookup_insert_eq. }
    exists p. split; [done |].
    destruct (caches_more_builders _ _ _ _ this b1 Hmore2 Hb1)
      as (c & Hb2' & Hsub & _).
    rewrite Hb2 in Hb2'. injection Hb2' as ->. cbn.
    by eapply lookup_weaken.
Qed.

Lemma find_root_root_of (s s' : Store) (fuel : nat) (l r : loc) :
  find_root fuel l s = Some (r, s') -> s' = s ∧ root_of s l r.
Proof.
  revert l. induction fuel as [|fuel IH]; intros l; cbn;
    destruct (builders s !! l) as [b|] eqn:Hb; try done;
    destruct (parent b) as [p|] eqn:Hp; try done.
  - intros [= <- <-]. split; [done | by eapply root_here].
  - intros [-> Hroot]%IH. split; [done | by eapply root_up].
  - intros [= <- <-]. split; [done | by eapply root_here].
Qed.

Lemma root_of_links (s s' : Store) (l r : loc) :
  same_links s s' -> root_of s' l r -> root_of s l r.
Proof.
  intros Hlinks. induction 1 as [l b' Hb' Hp | l p r b' Hb' Hp _ IH].
  - pose proof (Hlinks l) as Hl. rewrite Hb' in Hl.
    destruct (builders s !! l) as [b|] eqn:Hb; [| done].
    cbn in Hl. injection Hl as Hl. eapply root_here; [exact Hb | by rewrite <- Hl].
  - pose proof (Hlinks l) as Hl. rewrite Hb' in Hl.
    destruct (builders s !! l) as [b|] eqn:Hb; [| done].
    cbn in Hl. injection Hl as Hl. eapply root_up; [exact Hb | by rewrite <- Hl | exact IH].
Qed.

Section Declaring.

Variable signature : option Process -> string -> Exn + list Descriptor.

(** A second call of `getParentCallbackParameters` returns the values the
    first returned and creates nothing: builders and `Parameter` objects
    stay as the first call left them, and the console gets again what the
    first call wrote to it (the warning, when the lookup throws). *)
Theorem getParentCallbackParameters_twice (s s1 : Store) (this : loc)
    (rs : list CallbackParameter) :
  getParentCallbackParameters signature this s = Some (rs, s1) ->
  ∃ s2 w,
    getParentCallbackParameters signature this s1 = Some (rs, s2) ∧
    builders s2 = builders s1 ∧ objects s2 = objects s1 ∧
    console s1 = console s ++ w ∧ console s2 = console s1 ++ w.
Proof.
  destruct (builders s !! this) as [b|] eqn:Hb.
  2: { unfold getParentCallbackParameters, bind, get_builder.
       by rewrite Hb. }
  rewrite (getParentCallbackParameters_unfold signature s this b Hb).
  destruct (parentNode b) as [node|] eqn:Hnode.
  2: { intros [= <- <-]. exists s, [].
       rewrite (getParentCallbackParameters_unfold signature s this b Hb).
       by rewrite Hnode, !app_nil_r. }
  destruct (parentParameter b) as [parameterName|] eqn:Hparam.
  2: { intros [= <- <-]. exists s, [].
       rewrite (getParentCallbackParameters_unfold signature s this b Hb).
       by rewrite Hnode, Hparam, !app_nil_r. }
  destruct (bool_decide (parameterName = "")) eqn:Hempty.
  { intros [= <- <-]. exists s, [].
    rewrite (getParentCallbackParameters_unfold signature s this b Hb).
    by rewrite Hnode, Hparam, Hempty, !app_nil_r. }
  destruct (signature (node_spec node) parameterName) as [error|params]
    eqn:Hsig.
  - intros [= <- <-]. eexists _, [WarnError error].
    erewrite getParentCallbackParameters_unfold; [| exact Hb].
    by rewrite Hnode, Hparam, Hempty, Hsig.
  - intros Hrun.
    pose proof (mapM_createCallbackParameter_more _ _ _ _ _ Hrun) as Hmore.
    destruct (caches_more_builders _ _ _ _ this b Hmore Hb)
      as (c & Hb1 & _).
    exists s1, [].
    rewrite (getParentCallbackParameters_unfold signature s1 this _ Hb1).
    cbn [parentNode parentParameter set_callbackParameterCache].
    rewrite Hnode, Hparam, Hempty, Hsig.
    rewrite (mapM_createCallbackParameter_twice _ _ _ _ _ Hrun).
    destruct Hmore as (Hconsole & _). by rewrite !app_nil_r.
Qed.

(** The callback parameters of a builder whose parent node and parent
    parameter name are set and whose signature lookup succeeds with names
    that no plain object inherits: one `Parameter` object per parameter
    of the signature, in its order, each with the name of its parameter
    and cached under that name; a repeated name gets the same object. *)
Theorem getParentCallbackParameters_names (s : Store) (this : loc)
    (b : Builder) (node : BuilderNode) (parameterName : string)
    (params : list Descriptor) :
  builders s !! this = Some b ->
  cache_ok s this ->
  parentNode b = Some node ->
  parentParameter b = Some parameterName -> parameterName ≠ "" ->
  signature (node_spec node) parameterName = inr params ->
  (∀ k, k ∈ d_name <$> params -> k ∉ Object_prototype) ->
  ∃ rs s' b',
    getParentCallbackParameters signature this s = Some (rs, s') ∧
    builders s' !! this = Some b' ∧
    Forall2 (fun r param =>
               name_of s' r = Some (d_name param) ∧
               ∃ p, r = CPObject p ∧
                    callbackParameterCache b' !! d_name param = Some p)
            rs params ∧
    (∀ i j pi pj, params !! i = Some pi -> params !! j = Some pj ->
       d_name pi = d_name pj -> rs !! i = rs !! j).
Proof.
  intros Hb Hok Hnode Hparam Hne Hsig Hproto.
  rewrite (getParentCallbackParameters_unfold signature s this b Hb).
  rewrite Hnode, Hparam, bool_decide_eq_false_2, Hsig by done.
  destruct (mapM_createCallbackParameter_names params s this Hok Hproto)
    as (rs & s' & b' & Hrun & _ & Hb' & Hall).
  exists rs, s', b'. split; [done |]. split; [done |]. split; [done |].
  intros i j pi pj Hi Hj Hname.
  destruct (Forall2_lookup_r _ _ _ _ _ Hall Hi) as (ri & Hri & _ & p & -> & Hp).
  destruct (Forall2_lookup_r _ _ _ _ _ Hall Hj) as (rj & Hrj & _ & q & -> & Hq).
  rewrite Hri, Hrj. rewrite Hname in Hp. congruence.
Qed.

(** The callback parameters of any builder with a well-formed cache, when
    no name of the signature is inherited by plain objects. *)
Lemma getParentCallbackParameters_signature (s : Store) (this : loc)
    (b : Builder) :
  builders s !! this = Some b ->
  cache_ok s this ->
  (∀ k, k ∈ d_name <$> callback_signature signature b ->
        k ∉ Object_prototype) ->
  ∃ rs s1,
    getParentCallbackParameters signature this s = Some (rs, s1) ∧
    Forall2 (fun r param => name_of s1 r = Some (d_name param))
            rs (callback_signature signature b) ∧
    same_links s s1 ∧
    ∀ l b0, builders s !! l = Some b0 ->
      ∃ c, builders s1 !! l = Some (set_callbackParameterCache b0 c) ∧
           (l ≠ this -> c = callbackParameterCache b0).
Proof.
  intros Hb Hok. unfold callback_signature.
  rewrite (getParentCallbackParameters_unfold signature s this b Hb).
  assert (∀ l b0, builders s !! l = Some b0 ->
      ∃ c, builders s !! l = Some (set_callbackParameterCache b0 c) ∧
           (l ≠ this -> c = callbackParameterCache b0)) as Hsame.
  { intros l b0 Hl. exists (callbackParameterCache b0).
    split; [by destruct b0 | done]. }
  destruct (parentNode b) as [node|];
    [| intros _; exists [], s; repeat split; try done; constructor].
  destruct (parentParameter b) as [parameterName|];
    [| intros _; exists [], s; repeat split; try done; constructor].
  destruct (bool_decide (parameterName = ""));
    [intros _; exists [], s; repeat split; try done; constructor |].
  destruct (signature (node_spec node) parameterName) as [error|params].
  { intros _. eexists [], _. split; [done |]. split; [constructor |].
    split; [by intros l |]. exact Hsame. }
  intros Hproto.
  destruct (mapM_createCallbackParameter_names params s this Hok Hproto)
    as (rs & s' & b' & Hrun & _ & Hb' & Hall).
  pose proof (mapM_createCallbackParameter_more _ _ _ _ _ Hrun) as Hmore.
  exists rs, s'. split; [done |]. split; [| split].
  - eapply Forall2_impl; [exact Hall |]. by intros r param [? _].
  - eapply caches_more_links; [| exact Hmore]. by exists b.
  - intros l b0 Hl.
    destruct (caches_more_builders _ _ _ _ l b0 Hmore Hl) as (c & ? & _ & ?).
    by exists c.
Qed.

(** Declaring, on any builder, a parameter whose name is not one of the
    callback parameters of the builder: the call returns, and the
    descriptor is merged into or appended to the declared parameters of
    the builder without parent that the parent links lead to (of the
    builder itself with `root = false`).  Of every builder, the fields
    and all properties other than `parameters` are as before, the
    callback-parameter cache of the builder called aside.  (What the
    `parameters` of the other builders hold is not stated: the array
    holds the descriptor objects themselves.) *)
Theorem addParameter_declares (s : Store) (this : loc) (b : Builder)
    (parameter : Descriptor) (root : bool) :
  builders s !! this = Some b ->
  cache_ok s this ->
  (root = true -> parents_ok s) ->
  (∀ k, k ∈ d_name <$> callback_signature signature b ->
        k ≠ d_name parameter ∧ k ∉ Object_prototype) ->
  ∃ s' target tb tb',
    addParameter signature this parameter root s = Some (tt, s') ∧
    (if root then root_of s this target else target = this) ∧
    builders s !! target = Some tb ∧
    builders s' !! target = Some tb' ∧
    declared tb' = declare parameter (declared tb) ∧
    ∀ l b0, builders s !! l = Some b0 ->
      ∃ b1, builders s' !! l = Some b1 ∧
        parent b1 = parent b0 ∧ parentNode b1 = parentNode b0 ∧
        parentParameter b1 = parentParameter b0 ∧
        processes b1 = processes b0 ∧ nodes b1 = nodes b0 ∧
        idCounter b1 = idCounter b0 ∧
        (l ≠ this ->
         callbackParameterCache b1 = callbackParameterCache b0) ∧
        (∀ k, k ≠ "parameters" -> props b1 !! k = props b0 !! k).
Proof.
  intros Hb Hok Hparents Hnames. rewrite addParameter_unfold.
  destruct (getParentCallbackParameters_signature s this b Hb Hok)
    as (rs & s1 & -> & Hall & Hlinks & Hsame);
    [intros k Hk; by apply Hnames |].
  assert (existsb
            (fun p => bool_decide (name_of s1 p = Some (d_name parameter)))
            rs = false) as ->.
  { apply not_true_is_false. intros (r & Hr%list_elem_of_In & Hname)%existsb_exists.
    apply bool_decide_eq_true in Hname.
    apply list_elem_of_lookup in Hr as [i Hi].
    destruct (Forall2_lookup_l _ _ _ _ _ Hall Hi) as (param & Hparam & Hn).
    rewrite Hname in Hn. injection Hn as Hn.
    destruct (Hnames (d_name param)) as [Hne _]; [| by rewrite Hn in Hne].
    apply list_elem_of_fmap. exists param. split; [done |].
    by eapply list_elem_of_lookup_2. }
  assert (∃ target,
            (if root then find_root (size (builders s1)) this else ret this) s1
              = Some (target, s1) ∧
            (if root then root_of s this target else target = this) ∧
            is_Some (builders s !! target))
    as (target & -> & Htarget & [tb Htb]).
  { destruct root.
    - destruct (Hsame this b Hb) as (c & Hb1 & _).
      destruct (find_root_total s1 this) as (r & br & Hrun & Hr & _);
        [by eapply same_links_parents_ok; [| apply Hparents] | by eexists |].
      exists r. split; [done |].
      destruct (find_root_root_of _ _ _ _ _ Hrun) as [_ Hroot].
      split; [by eapply root_of_links |].
      pose proof (Hlinks r) as Hl. rewrite Hr in Hl.
      by destruct (builders s !! r).
    - exists this. split; [done |]. split; [done | by exists b]. }
  destruct (Hsame target tb Htb) as (ct & Htb1 & Hct). rewrite Htb1.
  eexists _, target, tb, _. split; [done |]. split; [done |].
  split; [done |]. cbn [builders].
  split; [apply lookup_insert_eq |].
  split; [by rewrite declared_set_member |].
  intros l b0 Hl.
  destruct (decide (l = target)) as [->|Hne].
  - rewrite Hl in Htb. injection Htb as ->.
    eexists. split; [apply lookup_insert_eq |]. cbn.
    do 6 (split; [done |]). split; [done |].
    intros k Hk. by rewrite lookup_insert_ne.
  - destruct (Hsame l b0 Hl) as (c & Hl1 & Hc).
    eexists. split; [by rewrite lookup_insert_ne |]. cbn.
    do 6 (split; [done |]). split; [| done].
    intros Hl'. by apply Hc.
Qed.

End Declaring.

(** * File formats *)

Lemma fold_insert_last {A} (f : string -> string) (entries : list (string * A))
    (types : gmap string A) (k : string) :
  fold_left (fun types e => <[f (fst e) := snd e]> types) entries types !! k =
  match last (filter (fun e => f (fst e) = k) entries) with
  | Some e => Some (snd e)
  | None => types !! k
  end.
Proof.
  induction entries as [|e entries IH] using rev_ind; [done |].
  rewrite fold_left_app, filter_app. cbn [fold_left].
  destruct (decide (f (fst e) = k)) as [Hk|Hk].
  - rewrite filter_cons_True, filter_nil by done.
    by rewrite last_snoc, Hk, lookup_insert_eq.
  - rewrite filter_cons_False, filter_nil, app_nil_r by done.
    by rewrite lookup_insert_ne.
Qed.

Lemma FileTypes_collect_entries (toUpperCase : string -> string)
    (data : Response) (io : Io) :
  formats (FileTypes_new toUpperCase data) io =
  fold_left (fun types e => <[toUpperCase (fst e) := snd e]> types)
            (entries_of data io) ∅.
Proof.
  by destruct data as [[| |entries] [| |entries']|], io.
Qed.

Section FileTypes_lookup.

Variable toUpperCase : string -> string.

Hypothesis toUpperCase_own : ∀ s, toUpperCase s ∉ Object_prototype.

(** Looking up a file format in a new `FileTypes`: the identifier is
    compared without regard to case with the keys of `data[io]`; the
    answer is the format of the last key (in the order of `for..in`) that
    matches, and `null` when none matches, in particular when `data` or
    `data[io]` is no object.  An inherited member is never returned. *)
Theorem findType_last (data : Response) (type : string) (io : Io) :
  _findType toUpperCase (FileTypes_new toUpperCase data) type io =
  match last (filter (fun e => toUpperCase (fst e) = toUpperCase type)
                     (entries_of data io)) with
  | Some e => FoundType (snd e)
  | None => FoundNull
  end.
Proof.
  unfold _findType. rewrite FileTypes_collect_entries, fold_insert_last.
  destruct (last _) as [e|]; [done |].
  rewrite lookup_empty. by rewrite bool_decide_eq_false_2.
Qed.

End FileTypes_lookup.

(** The formats a new `FileTypes` holds for `input` (and `output`): its
    keys are the upper-case forms of the keys of `data.input`, so there
    are at most as many, and every format held is the value of some key
    of `data.input`; `data.output` has no influence on them. *)
Theorem FileTypes_new_keys (toUpperCase : string -> string)
    (data : Response) (io : Io) :
  (∀ k, is_Some (formats (FileTypes_new toUpperCase data) io !! k) ↔
        k ∈ toUpperCase <$> (fst <$> entries_of data io)) ∧
  (∀ k v, formats (FileTypes_new toUpperCase data) io !! k = Some v ->
        ∃ type, (type, v) ∈ entries_of data io ∧ toUpperCase type = k) ∧
  size (formats (FileTypes_new toUpperCase data) io)
    <= length (entries_of data io).
Proof.
  rewrite FileTypes_collect_entries.
  assert (∀ k v,
    fold_left (fun types e => <[toUpperCase (fst e) := snd e]> types)
              (entries_of data io) (∅ : gmap string Json) !! k = Some v ->
    ∃ type, (type, v) ∈ entries_of data io ∧ toUpperCase type = k) as Hval.
  { intros k v. rewrite fold_insert_last.
    destruct (last _) as [[type v']|] eqn:Hlast; [| by rewrite lookup_empty].
    intros [= <-]. apply last_Some in Hlast as [l Hl].
    assert ((type, v') ∈ filter (fun e => toUpperCase (fst e) = k)
                                (entries_of data io)) as Hin.
    { rewrite Hl. apply elem_of_app. right. left. }
    apply list_elem_of_filter in Hin as [Hk Hin]. by exists type. }
  split; [| split; [exact Hval |]].
  - intros k. split.
    + intros [v (type & Hin & <-)%Hval].
      apply list_elem_of_fmap. exists type. split; [done |].
      apply list_elem_of_fmap. by exists (type, v).
    + intros (type & -> & ([type' v] & -> & Hin)%list_elem_of_fmap)%list_elem_of_fmap.
      rewrite fold_insert_last.
      destruct (last _) as [e|] eqn:Hlast; [by eexists |].
      apply last_None in Hlast.
      assert ((type', v) ∈ filter
                (fun e => toUpperCase (fst e) = toUpperCase (fst (type', v)))
                (entries_of data io)) as Hf
        by (by apply list_elem_of_filter).
      rewrite Hlast in Hf. by apply elem_of_nil in Hf.
  - assert (∀ (l : list (string * Json)) (m : gmap string Json),
              size (fold_left
                      (fun types e => <[toUpperCase (fst e) := snd e]> types)
                      l m) <= size m + length l) as Hsize.
    { induction l as [|e l IH]; intros m; cbn [fold_left length]; [lia |].
      etrans; [apply IH |].
      destruct (m !! toUpperCase (fst e)) eqn:Hm.
      - rewrite map_size_insert_Some by done. lia.
      - rewrite map_size_insert_None by done. lia. }
    pose proof (Hsize (entries_of data io) ∅) as H.
    by rewrite map_size_empty in H.
Qed.

(** * Capabilities *)

Lemma find_key {A} (l : list (string * A)) (k : string) (v : A) :
  NoDup (fst <$> l) ->
  snd <$> find (fun e => bool_decide (fst e = k)) l = Some v ↔ (k, v) ∈ l.
Proof.
  induction l as [|[k' v'] l IH]; intros Hnd.
  { cbn. split; [done | by intros ?%elem_of_nil]. }
  rewrite fmap_cons in Hnd. apply NoDup_cons in Hnd as [Hk' Hnd].
  cbn [find fst]. destruct (decide (k' = k)) as [->|Hne].
  - rewrite bool_decide_eq_true_2 by done. cbn. split.
    + intros [= ->]. left.
    + intros [[= ->] | Hin]%elem_of_cons; [done |].
      exfalso. apply Hk'. apply list_elem_of_fmap. by exists (k, v).
  - rewrite bool_decide_eq_false_2 by done. rewrite (IH Hnd).
    rewrite elem_of_cons. split; [by right |].
    intros [[= ? ?] | ?]; [congruence | done].
Qed.

Lemma featureMap_NoDup : NoDup (fst <$> featureMap).
Proof. apply (bool_decide_unpack _). by vm_compute. Qed.

Lemma hasFeature_featureMap (this : Capabilities) (methodName : string) :
  hasFeature this methodName = true ↔
  ∃ feature, (methodName, feature) ∈ featureMap ∧ feature ∈ features this.
Proof.
  unfold hasFeature.
  destruct (featureMap_get methodName) as [feature|] eqn:Hget.
  - apply (find_key featureMap _ _ featureMap_NoDup) in Hget.
    rewrite existsb_exists. split.
    + intros (e & He%list_elem_of_In & ->%bool_decide_eq_true).
      by exists feature.
    + intros (feature' & Hin & Hf). exists feature.
      assert (feature' = feature) as ->.
      { apply (find_key featureMap _ _ featureMap_NoDup) in Hin, Hget.
        congruence. }
      split; [by apply list_elem_of_In | by apply bool_decide_eq_true_2].
  - split; [done |]. intros (feature & Hin & _).
    apply (find_key featureMap _ _ featureMap_NoDup) in Hin.
    unfold featureMap_get in Hget. congruence.
Qed.

(** `listFeatures` and `hasFeature` agree: the names listed are those for
    which `hasFeature` is true; they are listed once each, in the order
    of the feature map; and for a name that is no key of the feature map
    `hasFeature` is false. *)
Theorem listFeatures_hasFeature (this : Capabilities) :
  (∀ methodName,
     methodName ∈ listFeatures this ↔ hasFeature this methodName = true) ∧
  listFeatures this `sublist_of` (fst <$> featureMap) ∧
  NoDup (listFeatures this) ∧
  (∀ methodName, methodName ∉ fst <$> featureMap ->
     hasFeature this methodName = false).
Proof.
  assert (listFeatures this `sublist_of` (fst <$> featureMap)) as Hsub.
  { unfold listFeatures. apply fmap_sublist, sublist_filter. }
  split; [| split; [done |]; split].
  - intros methodName. rewrite hasFeature_featureMap. unfold listFeatures.
    rewrite list_elem_of_fmap. split.
    + intros ([m f] & -> & [Hf Hin]%list_elem_of_filter). by exists f.
    + intros (f & Hin & Hf). exists (methodName, f).
      split; [done |]. by apply list_elem_of_filter.
  - eapply sublist_NoDup; [apply featureMap_NoDup | exact Hsub].
  - intros methodName Hnot. apply not_true_is_false.
    intros (f & Hin & _)%hasFeature_featureMap. apply Hnot.
    apply list_elem_of_fmap. by exists (methodName, f).
Qed.

Section Capabilities_facts.

Variable toLowerCase : string -> string.

Lemma features_endpoints (es : list Endpoint) (feature : string) :
  feature ∈ concat
              (map (fun e =>
                      map (fun method =>
                             toLowerCase (method +:+ " " +:+ ep_path e))
                          (ep_methods e))
                   es) ↔
  ∃ e method, e ∈ es ∧ method ∈ ep_methods e ∧
              toLowerCase (method +:+ " " +:+ ep_path e) = feature.
Proof.
  rewrite list_elem_of_In, in_concat. split.
  - intros (l & (e & <- & He)%in_map_iff & (method & <- & Hm)%in_map_iff).
    exists e, method. by rewrite !list_elem_of_In.
  - intros (e & method & He%list_elem_of_In & Hm%list_elem_of_In & <-).
    eexists. split; [apply in_map_iff; by exists e |].
    apply in_map_iff. by exists method.
Qed.

(** What a successfully constructed instance supports: the response was
    an object with a truthy `api_version` and an array of endpoints, it
    is kept as it is, and `hasFeature(name)` holds exactly when [name] is
    a key of the feature map and some endpoint lists a method such that
    method, a blank and the path of the endpoint, in lower case, are the
    entry of [name]. *)
Theorem Capabilities_new_hasFeature (data : CapabilitiesResponse)
    (this : Capabilities) :
  Capabilities_new toLowerCase data = inr this ->
  ∃ es,
    data = CObject (toPlainObject this) ∧
    truthy (apiVersion this) = true ∧
    endpoints (toPlainObject this) = Some es ∧
    ∀ methodName,
      hasFeature this methodName = true ↔
      ∃ feature e method,
        (methodName, feature) ∈ featureMap ∧ e ∈ es ∧
        method ∈ ep_methods e ∧
        toLowerCase (method +:+ " " +:+ ep_path e) = feature.
Proof.
  destruct data as [d|]; [| done]. cbn.
  destruct (truthy (api_version d)) eqn:Hv; [| done]. cbn.
  destruct (endpoints d) as [es|] eqn:Hes; [| done].
  intros [= <-]. exists es. cbn. do 3 (split; [done |]).
  intros methodName. rewrite hasFeature_featureMap. cbn [features].
  split.
  - intros (feature & Hin & (e & method & ? & ? & ?)%features_endpoints).
    by exists feature, e, method.
  - intros (feature & e & method & Hin & He & Hm & Hf). exists feature.
    split; [done |]. apply features_endpoints. by exists e, method.
Qed.


End Capabilities_facts.

(** * Utilities *)

(** ** URLs *)

Lemma string_app_cons (c : ascii) (r s : string) :
  String c r +:+ s = String c (r +:+ s).
Proof. done. Qed.

Lemma remove_trailing_slash_cons (c : ascii) (r : string) :
  r ≠ "" ->
  remove_trailing_slash (String c r) = String c (remove_trailing_slash r).
Proof. by destruct r. Qed.

Lemma remove_trailing_slash_app (b : string) :
  remove_trailing_slash (b +:+ "/") = b.
Proof.
  induction b as [|c r IH]; [done |].
  rewrite string_app_cons, remove_trailing_slash_cons, IH; [done |].
  by destruct r.
Qed.

Lemma remove_trailing_slash_none (b : string) :
  ends_with "/" b = false -> remove_trailing_slash b = b.
Proof.
  induction b as [|c r IH]; [done |]. destruct r as [|d r].
  - cbn. by intros ->.
  - intros Hr. rewrite remove_trailing_slash_cons by done.
    f_equal. by apply IH.
Qed.

Lemma substr_slash (p : string) : substr 0 1 ("/" +:+ p) = "/".
Proof. unfold substr. cbn. by destruct p. Qed.

(** `normalizeUrl` joins a base and a path with exactly one slash,
    whether or not the base ends in a slash and the path begins with
    one; and without a path it removes one slash from the end of the
    base. *)
Theorem normalizeUrl_slashes (baseUrl path : string) :
  ends_with "/" baseUrl = false ->
  String.eqb (substr 0 1 path) "/" = false ->
  normalizeUrl baseUrl (VString path) = baseUrl +:+ "/" +:+ path ∧
  normalizeUrl (baseUrl +:+ "/") (VString path) = baseUrl +:+ "/" +:+ path ∧
  normalizeUrl baseUrl (VString ("/" +:+ path)) = baseUrl +:+ "/" +:+ path ∧
  normalizeUrl (baseUrl +:+ "/") (VString ("/" +:+ path))
    = baseUrl +:+ "/" +:+ path ∧
  normalizeUrl baseUrl VNull = baseUrl ∧
  normalizeUrl (baseUrl +:+ "/") VNull = baseUrl.
Proof.
  intros Hbase Hpath. unfold normalizeUrl.
  rewrite remove_trailing_slash_app, (remove_trailing_slash_none _ Hbase).
  rewrite Hpath, substr_slash. done.
Qed.

(** ** Version numbers *)

Lemma string_lt_asym (a b : string) :
  string_lt a b = true -> string_lt b a = false.
Proof.
  revert b. induction a as [|c a IH]; intros [|d b]; try done.
  cbn. destruct (N.ltb_spec (N_of_ascii c) (N_of_ascii d)) as [Hlt|Hge].
  - intros _. destruct (N.ltb_spec (N_of_ascii d) (N_of_ascii c)); [lia | done].
  - destruct (N.ltb_spec (N_of_ascii d) (N_of_ascii c)); [done |].
    apply IH.
Qed.

Lemma js_lt_asym (l r : Operand) : js_lt l r = true -> js_lt r l = false.
Proof. destruct l, r; try done. apply string_lt_asym. Qed.

Lemma compare_loop_opp (fuel i : nat) (p q : list string) :
  compare_loop fuel i q p = (- compare_loop fuel i p q)%Z.
Proof.
  revert i. induction fuel as [|fuel IH]; intros i; [done |].
  cbn [compare_loop].
  destruct (js_lt (operand p i) (operand q i)) eqn:Hpq.
  - by rewrite (js_lt_asym _ _ Hpq).
  - destruct (js_lt (operand q i) (operand p i)); [done | apply IH].
Qed.

Lemma compare_loop_sign (fuel i : nat) (p q : list string) :
  compare_loop fuel i p q = (-1)%Z ∨ compare_loop fuel i p q = 0%Z ∨
  compare_loop fuel i p q = 1%Z.
Proof.
  revert i. induction fuel as [|fuel IH]; intros i; [by right; left |].
  cbn [compare_loop].
  destruct (js_lt _ _); [by left |].
  destruct (js_lt _ _); [by right; right | apply IH].
Qed.

(** `compareVersionNumbers` is antisymmetric: with the arguments
    exchanged the result is the opposite number, and `null` stays `null`;
    a valid version compared with itself gives 0; and the result is
    `null` exactly when one of the arguments is no valid version number,
    otherwise -1, 0 or 1. *)
Theorem compareVersionNumbers_opp (v1 v2 : JsValue) :
  compareVersionNumbers v2 v1 = Z.opp <$> compareVersionNumbers v1 v2 ∧
  (validateVersionNumber v1 = true -> compareVersionNumbers v1 v1 = Some 0%Z) ∧
  (compareVersionNumbers v1 v2 = None ↔
   validateVersionNumber v1 = false ∨ validateVersionNumber v2 = false) ∧
  (∀ r, compareVersionNumbers v1 v2 = Some r ->
        r = (-1)%Z ∨ r = 0%Z ∨ r = 1%Z).
Proof.
  assert (∀ a b, compareVersionNumbers b a
                 = Z.opp <$> compareVersionNumbers a b) as Hopp.
  { intros a b. unfold compareVersionNumbers.
    destruct a as [| | | |s1| | |], b as [| | | |s2| | |]; try done;
      try (cbn; by destruct (forallb _ _)).
    cbn [validateVersionNumber].
    destruct (forallb is_number (split_dot s1)),
             (forallb is_number (split_dot s2)); try done.
    cbn. by rewrite compare_loop_opp, Nat.max_comm. }
  split; [apply Hopp |]. split; [| split].
  - intros Hv. specialize (Hopp v1 v1). unfold compareVersionNumbers in *.
    rewrite Hv in *. cbn in *. destruct v1; try done.
    cbn in Hopp. injection Hopp as Hopp. f_equal. lia.
  - unfold compareVersionNumbers.
    destruct (validateVersionNumber v1) eqn:H1,
             (validateVersionNumber v2) eqn:H2; cbn;
      try (split; [intros _ | done]; auto).
    destruct v1; try done. destruct v2; try done.
    split; [done | by intros [? | ?]].
  - intros r. unfold compareVersionNumbers.
    destruct (negb _ || negb _); [done |].
    destruct v1 as [| | | |s1| | |]; try done.
    destruct v2 as [| | | |s2| | |]; try done.
    intros [= <-]. apply compare_loop_sign.
Qed.

Lemma compare_loop_cons (fuel i : nat) (a b : string) (p q : list string) :
  compare_loop fuel (S i) (a :: p) (b :: q) = compare_loop fuel i p q.
Proof.
  revert i. induction fuel as [|fuel IH]; intros i; [done |].
  cbn [compare_loop]. by rewrite IH.
Qed.

Lemma compare_loop_cons_l (fuel i : nat) (a : string) (p : list string) :
  compare_loop fuel (S i) (a :: p) [] = compare_loop fuel i p [].
Proof.
  revert i. induction fuel as [|fuel IH]; intros i; [done |].
  cbn [compare_loop]. by rewrite IH.
Qed.

Lemma compare_loop_cons_r (fuel i : nat) (b : string) (q : list string) :
  compare_loop fuel (S i) [] (b :: q) = compare_loop fuel i [] q.
Proof.
  revert i. induction fuel as [|fuel IH]; intros i; [done |].
  cbn [compare_loop]. by rewrite IH.
Qed.

Lemma string_lt_irrefl (a : string) : string_lt a a = false.
Proof.
  destruct (string_lt a a) eqn:H; [| done].
  by rewrite (string_lt_asym _ _ H) in H.
Qed.

Lemma compare_loop_prefix (p x y : list string) (n : nat) :
  compare_loop (length p + n) 0 (p ++ x) (p ++ y) = compare_loop n 0 x y.
Proof.
  induction p as [|c p IH]; [done |].
  cbn [length Nat.add app compare_loop operand]. cbn.
  by rewrite string_lt_irrefl, compare_loop_cons.
Qed.

Lemma split_dot_nonempty (v : string) : split_dot v ≠ [].
Proof.
  destruct v as [|c r]; [done |]. cbn.
  destruct (Ascii.eqb c "."); [done |]. by destruct (split_dot r).
Qed.

Lemma split_dot_app (x y : string) :
  split_dot (x +:+ "." +:+ y) = split_dot x ++ split_dot y.
Proof.
  induction x as [|c r IH]; [done |].
  rewrite string_app_cons. cbn [split_dot].
  destruct (Ascii.eqb c "."); [by rewrite IH |].
  rewrite IH. pose proof (split_dot_nonempty r).
  by destruct (split_dot r).
Qed.

Lemma is_digit_range (c : ascii) :
  is_digit c = true -> (48 <= N_of_ascii c <= 57)%N.
Proof.
  unfold is_digit. intros H%bool_decide_eq_true.
  rewrite !elem_of_cons, elem_of_nil in H.
  repeat (destruct H as [-> | H]; [cbn; lia |]). done.
Qed.

Lemma split_dot_digits (a : string) : all_digits a = true -> split_dot a = [a].
Proof.
  induction a as [|c r IH]; [done |]. cbn [all_digits split_dot].
  intros [Hc Hr]%andb_true_iff. rewrite (IH Hr).
  destruct (Ascii.eqb_spec c "."); [| done].
  subst. by vm_compute in Hc.
Qed.

Lemma Number_of_acc (a : string) (n : N) :
  fold_left (fun n c => (10 * n + (N_of_ascii c - 48))%N)
            (list_ascii_of_string a) n
  = (n * 10 ^ N.of_nat (String.length a) + Number_of a)%N.
Proof.
  unfold Number_of. revert n. induction a as [|c a IH]; intros n.
  { cbn. lia. }
  cbn [list_ascii_of_string fold_left String.length].
  rewrite IH, (IH (10 * 0 + _)%N).
  rewrite Nat2N.inj_succ, N.pow_succ_r'. lia.
Qed.

Lemma Number_of_cons (c : ascii) (a : string) :
  Number_of (String c a)
  = ((N_of_ascii c - 48) * 10 ^ N.of_nat (String.length a) + Number_of a)%N.
Proof.
  unfold Number_of at 1. cbn [list_ascii_of_string fold_left].
  rewrite Number_of_acc. lia.
Qed.

Lemma Number_of_bound (a : string) :
  all_digits a = true -> (Number_of a < 10 ^ N.of_nat (String.length a))%N.
Proof.
  induction a as [|c a IH]; [by cbn |]. cbn [all_digits String.length].
  intros [Hc%is_digit_range Ha%IH]%andb_true_iff.
  rewrite Number_of_cons, Nat2N.inj_succ, N.pow_succ_r'. nia.
Qed.

(** Numerals with the same number of digits are ordered as strings the
    way the numbers they denote are ordered. *)
Lemma string_lt_Number_of (a b : string) :
  all_digits a = true -> all_digits b = true ->
  String.length a = String.length b ->
  string_lt a b = (Number_of a <? Number_of b)%N.
Proof.
  revert b. induction a as [|c a IH]; intros [|d b]; try done.
  cbn [all_digits String.length string_lt].
  intros [Hc Ha]%andb_true_iff [Hd Hb]%andb_true_iff [= Hlen].
  rewrite !Number_of_cons, <- Hlen.
  pose proof (Number_of_bound a Ha) as Hba.
  pose proof (Number_of_bound b Hb) as Hbb. rewrite <- Hlen in Hbb.
  apply is_digit_range in Hc, Hd.
  set (P := (10 ^ N.of_nat (String.length a))%N) in *.
  destruct (N.ltb_spec (N_of_ascii c) (N_of_ascii d)) as [Hlt|Hge].
  { symmetry. apply N.ltb_lt. nia. }
  destruct (N.ltb_spec (N_of_ascii d) (N_of_ascii c)) as [Hgt|Hle].
  { symmetry. apply N.ltb_ge. nia. }
  assert (N_of_ascii c = N_of_ascii d) as -> by lia.
  rewrite (IH b Ha Hb Hlen).
  destruct (N.ltb_spec (Number_of a) (Number_of b));
    symmetry; [apply N.ltb_lt | apply N.ltb_ge]; lia.
Qed.

Lemma compare_loop_zero_r (q : list string) :
  compare_loop (length q) 0 [] q =
  if existsb (fun b => (0 <? b)%N) (Number_of <$> q) then (-1)%Z else 0%Z.
Proof.
  induction q as [|b q IH]; [done |].
  cbn [length compare_loop operand]. cbn.
  destruct (0 <? Number_of b)%N; [done |]. cbn.
  by rewrite compare_loop_cons_r.
Qed.

Lemma compare_loop_zero_l (p : list string) :
  compare_loop (length p) 0 p [] =
  if existsb (fun a => (0 <? a)%N) (Number_of <$> p) then 1%Z else 0%Z.
Proof.
  induction p as [|a p IH]; [done |].
  cbn [length compare_loop operand]. cbn.
  destruct (0 <? Number_of a)%N; [done |]. cbn.
  by rewrite compare_loop_cons_l.
Qed.

Lemma compare_loop_numbers (p q : list string) :
  forallb is_number p = true -> forallb is_number q = true ->
  (∀ i a b, p !! i = Some a -> q !! i = Some b ->
            String.length a = String.length b) ->
  compare_loop (Nat.max (length p) (length q)) 0 p q
  = compare_numbers (Number_of <$> p) (Number_of <$> q).
Proof.
  revert q. induction p as [|a p IH]; intros q Hp Hq Hlen.
  { cbn [length Nat.max fmap list_fmap compare_numbers].
    apply compare_loop_zero_r. }
  destruct q as [|b q].
  { rewrite Nat.max_0_r. rewrite compare_loop_zero_l. done. }
  cbn [forallb] in Hp, Hq.
  apply andb_true_iff in Hp as [[_ Ha]%andb_true_iff Hp].
  apply andb_true_iff in Hq as [[_ Hb]%andb_true_iff Hq].
  rewrite !fmap_cons. cbn [length compare_numbers].
  rewrite <- Nat.succ_max_distr. cbn [compare_loop operand]. cbn.
  assert (String.length a = String.length b) as Hab by (by apply (Hlen 0)).
  rewrite (string_lt_Number_of a b Ha Hb Hab).
  rewrite (string_lt_Number_of b a Hb Ha (eq_sym Hab)).
  destruct (Number_of a <? Number_of b)%N; [done |].
  destruct (Number_of b <? Number_of a)%N; [done |].
  rewrite compare_loop_cons. apply IH; [done | done |].
  intros i a' b' Ha' Hb'. by apply (Hlen (S i)).
Qed.

(** For two valid version numbers whose corresponding parts have the same
    number of digits, `compareVersionNumbers` orders by the numbers the
    parts denote, a missing part counting as 0. *)
Theorem compareVersionNumbers_numeric (v1 v2 : string) :
  validateVersionNumber (VString v1) = true ->
  validateVersionNumber (VString v2) = true ->
  (∀ i a b, split_dot v1 !! i = Some a -> split_dot v2 !! i = Some b ->
            String.length a = String.length b) ->
  compareVersionNumbers (VString v1) (VString v2) =
  Some (compare_numbers (Number_of <$> split_dot v1)
                        (Number_of <$> split_dot v2)).
Proof.
  intros H1 H2 Hlen. unfold compareVersionNumbers. rewrite H1, H2. cbn.
  f_equal. by apply compare_loop_numbers.
Qed.

(** Parts are compared as strings: two versions that differ in the last
    part only are ordered by the code units of that part, so that a part
    `10` comes before a part `9`. *)
Theorem compareVersionNumbers_last_part (v a b : string) :
  validateVersionNumber (VString v) = true ->
  is_number a = true -> is_number b = true ->
  compareVersionNumbers (VString (v +:+ "." +:+ a))
                        (VString (v +:+ "." +:+ b)) =
  Some (if string_lt a b then (-1)%Z
        else if string_lt b a then 1%Z else 0%Z) ∧
  compareVersionNumbers (VString (v +:+ "." +:+ "10"))
                        (VString (v +:+ "." +:+ "9")) = Some (-1)%Z.
Proof.
  assert (∀ a b, validateVersionNumber (VString v) = true ->
    is_number a = true -> is_number b = true ->
    compareVersionNumbers (VString (v +:+ "." +:+ a))
                          (VString (v +:+ "." +:+ b)) =
    Some (if string_lt a b then (-1)%Z
          else if string_lt b a then 1%Z else 0%Z)) as Hlast.
  { clear a b. intros a b Hv Ha Hb. unfold compareVersionNumbers.
    cbn [validateVersionNumber] in *. rewrite !split_dot_app.
    pose proof Ha as [_ Ha']%andb_true_iff.
    pose proof Hb as [_ Hb']%andb_true_iff.
    rewrite (split_dot_digits a Ha'), (split_dot_digits b Hb').
    rewrite !forallb_app, Hv. cbn [forallb]. rewrite Ha, Hb. cbn [andb negb orb].
    rewrite !length_app, Nat.max_id. cbn [length].
    rewrite compare_loop_prefix. cbn.
    by destruct (string_lt a b), (string_lt b a). }
  intros Hv Ha Hb. split; [by apply Hlast |].
  by rewrite (Hlast "10" "9" Hv).
Qed.

(** ** Hashing *)

Lemma string_lt_trans (a b c : string) :
  string_lt a b = true -> string_lt b c = true -> string_lt a c = true.
Proof.
  revert b c. induction a as [|x a IH]; intros [|y b] [|z c]; try done.
  cbn. intros Hab Hbc.
  repeat match goal with
         | H : context [(?u <? ?v)%N] |- _ => destruct (N.ltb_spec u v)
         | |- context [(?u <? ?v)%N] => destruct (N.ltb_spec u v)
         end; try done; try lia.
  by apply (IH b c).
Qed.

Lemma string_lt_connex (a b : string) :
  string_lt a b = false -> string_lt b a = false -> a = b.
Proof.
  revert b. induction a as [|x a IH]; intros [|y b]; try done.
  cbn. intros Hab Hba.
  repeat match goal with
         | H : context [(?u <? ?v)%N] |- _ => destruct (N.ltb_spec u v)
         end; try done.
  assert (x = y) as ->.
  { rewrite <- (ascii_N_embedding x), <- (ascii_N_embedding y).
    f_equal. lia. }
  f_equal. by apply IH.
Qed.

Lemma string_le_trans : Transitive string_le.
Proof.
  intros a b c Hab Hbc. unfold string_le in *.
  destruct (string_lt c a) eqn:Hca; [| done].
  destruct (string_lt a b) eqn:Hlt.
  - by rewrite (string_lt_trans c a b Hca Hlt) in Hbc.
  - rewrite (string_lt_connex a b Hlt Hab) in Hca. congruence.
Qed.

Lemma string_le_total : Total string_le.
Proof.
  intros a b. unfold string_le.
  destruct (string_lt b a) eqn:Hba; [| by left].
  right. by apply string_lt_asym.
Qed.

Lemma string_le_antisymm : AntiSymm eq string_le.
Proof. intros a b Hab Hba. by apply string_lt_connex. Qed.

Lemma sort_Permutation (keys keys' : list string) :
  keys ≡ₚ keys' -> sort keys = sort keys'.
Proof.
  intros Hperm. unfold sort.
  pose proof string_le_antisymm. pose proof string_le_trans.
  pose proof string_le_total.
  apply (sorting.StronglySorted_unique string_le).
  - by apply sorting.StronglySorted_merge_sort.
  - by apply sorting.StronglySorted_merge_sort.
  - by rewrite !sorting.merge_sort_Permutation.
Qed.

Lemma hash_of_key_Permutation (hashed hashed' : list (string * string))
    (k : string) :
  NoDup (fst <$> hashed) -> hashed ≡ₚ hashed' ->
  hash_of_key hashed k = hash_of_key hashed' k.
Proof.
  intros Hnd Hperm.
  assert (NoDup (fst <$> hashed')) as Hnd' by (by rewrite <- Hperm).
  assert (∀ l, NoDup (fst <$> l) ->
            hash_of_key l k =
            default "" (snd <$> find (fun e => bool_decide (fst e = k)) l))
    as Hdef.
  { intros l _. unfold hash_of_key. by destruct (find _ l). }
  rewrite !Hdef by done.
  destruct (snd <$> find (fun e => bool_decide (fst e = k)) hashed)
    as [v|] eqn:Hv.
  - apply (find_key _ _ _ Hnd) in Hv. rewrite Hperm in Hv.
    apply (find_key _ _ _ Hnd') in Hv. by rewrite Hv.
  - destruct (snd <$> find (fun e => bool_decide (fst e = k)) hashed')
      as [v'|] eqn:Hv'; [| done].
    apply (find_key _ _ _ Hnd') in Hv'. rewrite <- Hperm in Hv'.
    apply (find_key _ _ _ Hnd) in Hv'. congruence.
Qed.

Lemma hash_properties_Permutation (hashed hashed' : list (string * string)) :
  NoDup (fst <$> hashed) -> hashed ≡ₚ hashed' ->
  hash_properties hashed = hash_properties hashed'.
Proof.
  intros Hnd Hperm. unfold hash_properties.
  rewrite (sort_Permutation (fst <$> hashed) (fst <$> hashed'))
    by (by rewrite Hperm).
  do 2 f_equal. apply list_fmap_ext. intros i k _.
  by rewrite (hash_of_key_Permutation hashed hashed' k Hnd Hperm).
Qed.

(** The hash of an object does not depend on the order of its
    properties: two objects with the same properties, each key once, in
    any order, have the same hash. *)
Theorem hash_order (props props' : list (string * HValue)) :
  NoDup (fst <$> props) -> props ≡ₚ props' ->
  hash (HObject props) = hash (HObject props').
Proof.
  intros Hnd Hperm. cbn [hash]. apply hash_properties_Permutation.
  - by rewrite <- list_fmap_compose.
  - by rewrite Hperm.
Qed.

(** * Concrete instances *)

(** [generateId_stem_counter] for `reduce_dimension` on a new builder: the
    first id, and the id of a second call with the same truncated stem. *)
Lemma generateId_reduce_dimension :
  idCounter empty_builder !! stem "reduce_dimension" = None ∧
  fst (generateId empty_builder "reduce_dimension") = "reduce1" ∧
  fst (generateId (snd (generateId empty_builder "reduce_dimension"))
         "reduce_dimension") = "reduce2" ∧
  fst (generateId (snd (generateId empty_builder "reduce_dimension"))
         "reducer") = "reduce2".
Proof.
  split; [reflexivity |].
  pose proof (generateId_stem_counter empty_builder "reduce_dimension") as H.
  cbv zeta in H. destruct H as (_ & _ & _ & _ & H).
  destruct (H eq_refl) as [Hfirst Hnext].
  split; [exact Hfirst |].
  split; [exact (Hnext "reduce_dimension" eq_refl)
         | exact (Hnext "reducer" eq_refl)].
Defined.

(** C1 as stated fails: the first id for `reduce_dimension` is not
    `reduc1`, the case of `NDVI` is kept, and `a_b_c` loses one underscore
    only. *)
Lemma generateId_not_reduc1 :
  fst (generateId empty_builder "reduce_dimension") ≠ "reduc1" ∧
  fst (generateId empty_builder "NDVI") = "NDVI1" ∧
  fst (generateId empty_builder "a_b_c") = "ab_c1".
Proof. split; [discriminate | split; reflexivity]. Qed.

(** [process_unknown_operation] for `new Builder([]).process("ndvi", [])`. *)
Lemma process_unknown_ndvi :
  spec empty_builder "ndvi" = None ∧
  ∃ node this',
    process empty_builder "ndvi" (ArgsArray []) None =
      (node, this', [Warn "Process doesn't exist: ndvi"]) ∧
    nodes this' !! node_id node = Some node ∧
    node_id node = "ndvi1" ∧
    node_process_id node = "ndvi" ∧
    node_arguments node = ArgsArray [] ∧
    node_description node = None.
Proof.
  split; [reflexivity |].
  exact (process_unknown_operation empty_builder "ndvi" (ArgsArray []) None
           eq_refl).
Defined.

(** `new Builder([])` and two catalogues that are refused or accepted. *)
Example Builder_new_empty :
  Builder_new (VArray []) None None = inr (empty_builder, []) ∧
  Builder_new VNull None None = inl (invalid_catalog, []) ∧
  Builder_new (VObject {[ "processes" := VString "none" ]}) None None
    = inl (invalid_catalog, []) ∧
  Builder_new (VObject {[ "processes" := VArray (Some <$> trig_catalog) ]})
    None None
    = inr (trig_builder, []).
Proof. repeat split. Qed.

(** C9 as stated fails: `[null]` and `{processes: [spec, undefined]}` have
    the shapes the constructor accepts, and yet no builder is constructed.
    The loop throws a `TypeError` at the element, in the second case after
    the warning for the entry `spec`. *)
Lemma Builder_new_null_entry :
  recognizable (VArray [None]) = true ∧
  Builder_new (VArray [None]) None None = inl (TypeError, []) ∧
  recognizable
    (VObject {[ "processes" :=
                  VArray [Some {| proc_id := "spec"; proc_body := ∅ |};
                          None] ]}) = true ∧
  Builder_new
    (VObject {[ "processes" :=
                  VArray [Some {| proc_id := "spec"; proc_body := ∅ |};
                          None] ]}) None None
  = inl (TypeError,
         [already_exists {| proc_id := "spec"; proc_body := ∅ |}]).
Proof. repeat split. Qed.

(** [Builder_new_methods] for the entry `atan` of the catalogue
    `[atan2, atan]`: the name is free when the loop reaches it, and the
    builder gets a method `atan` that calls `process`. *)
Lemma Builder_new_methods_atan :
  catalog_of (VArray (Some <$> trig_catalog))
    = inr (Some <$> ([{| proc_id := "atan2"; proc_body := ∅ |}] ++
                     {| proc_id := "atan"; proc_body := ∅ |} :: [])) ∧
  ∃ this console,
    Builder_new (VArray (Some <$> trig_catalog)) None None
      = inr (this, console) ∧
    get_member this "atan" = MProp (PMethod "atan") ∧
    ∀ arguments,
      invoke this "atan" arguments =
      Some (process this "atan" (ArgsArray arguments) None).
Proof.
  split; [reflexivity |].
  destruct (Builder_new_methods (VArray (Some <$> trig_catalog)) None None
              [{| proc_id := "atan2"; proc_body := ∅ |}] []
              {| proc_id := "atan"; proc_body := ∅ |} eq_refl)
    as (this & console & Hnew & Hfree & _).
  exists this, console. split; [exact Hnew |].
  exact (proj2 (Hfree eq_refl)).
Defined.

(** An entry named like a method of the class, and a repeated entry: no
    method is installed for them, and two warnings are printed. *)
Example Builder_new_collisions :
  ∃ this,
    Builder_new
      (VArray [ Some {| proc_id := "spec"; proc_body := ∅ |};
                Some {| proc_id := "add"; proc_body := ∅ |};
                Some {| proc_id := "add"; proc_body := ∅ |} ]) None None
    = inr (this,
           [ already_exists {| proc_id := "spec"; proc_body := ∅ |};
             already_exists {| proc_id := "add"; proc_body := ∅ |} ]) ∧
    get_member this "spec" = MMethod "spec" ∧
    get_member this "add" = MProp (PMethod "add").
Proof. eexists. split; [reflexivity | split; reflexivity]. Qed.

(** [addParameter_twice_merges] for two descriptors of `collection-id` on
    a new builder: one entry, with the description of the second, the
    schema of the second and the `optional` of the first. *)
Lemma addParameter_twice_collection :
  builders new_store !! 0 = Some empty_builder ∧
  parent empty_builder = None ∧ parentNode empty_builder = None ∧
  d_name collection_v1 = d_name collection_v2 ∧
  NoDup (d_name <$> declared empty_builder) ∧
  ∃ s1 s2 b2,
    addParameter no_signature 0 collection_v1 true new_store = Some (tt, s1) ∧
    addParameter no_signature 0 collection_v2 true s1 = Some (tt, s2) ∧
    builders s2 !! 0 = Some b2 ∧
    declared b2 = [Object_assign collection_v1 collection_v2].
Proof.
  assert (NoDup (d_name <$> declared empty_builder)) as Hnd
    by apply NoDup_nil_2.
  do 4 (split; [reflexivity |]). split; [exact Hnd |].
  destruct (addParameter_twice_merges no_signature new_store 0 empty_builder
              collection_v1 collection_v2 true eq_refl eq_refl eq_refl
              eq_refl Hnd)
    as (s1 & s2 & b2 & e & H1 & H2 & Hb2 & _ & _ & _ & Hnew & _).
  exists s1, s2, b2. do 3 (split; [assumption |]).
  destruct (Hnew (not_elem_of_nil _)) as (-> & _ & ->). reflexivity.
Defined.

Example merged_collection_fields :
  d_fields (Object_assign collection_v1 collection_v2) =
  {[ "description" := JStr "The ID of the collection to load";
     "schema" := JObj {[ "type" := JStr "string" ]};
     "optional" := JBool true ]}.
Proof. apply map_eq. intros k. by vm_compute. Qed.

Lemma nested_store_cache_ok : cache_ok nested_store 1.
Proof. eexists. split; [reflexivity |]. intros k p Hk. discriminate Hk. Qed.

(** [addParameter_callback_parameter] for the parameter `data` declared
    inside the callback of `reducer`, whose callback parameters are `data`
    and `context`. *)
Lemma addParameter_data_in_reducer :
  builders nested_store !! 1
    = Some (setParent (Builder_init [] (Some 0) None) reduce_node "reducer") ∧
  cache_ok nested_store 1 ∧
  data_context (node_spec reduce_node) "reducer"
    = inr [ data_parameter; {| d_name := "context"; d_fields := ∅ |} ] ∧
  (d_name data_parameter ∉ Object_prototype) ∧
  ∃ s',
    addParameter data_context 1 data_parameter true nested_store
      = Some (tt, s') ∧
    caches_more 1 ["data"; "context"] nested_store s' ∧
    ∀ l b0, builders nested_store !! l = Some b0 ->
      ∃ b1, builders s' !! l = Some b1 ∧ declared b1 = declared b0.
Proof.
  assert (d_name data_parameter ∉ Object_prototype) as Hproto.
  { unfold Object_prototype. rewrite !not_elem_of_cons.
    repeat (split; [discriminate |]). apply not_elem_of_nil. }
  split; [reflexivity |]. split; [exact nested_store_cache_ok |].
  split; [reflexivity |]. split; [exact Hproto |].
  destruct (addParameter_callback_parameter data_context nested_store 1 _
              reduce_node "reducer" _ data_parameter true
              eq_refl nested_store_cache_ok eq_refl eq_refl
              ltac:(discriminate) eq_refl ltac:(left) Hproto)
    as (s' & Hrun & Hmore & Hsame & _).
  exists s'. split; [exact Hrun |]. split; [exact Hmore |].
  intros l b0 Hl. destruct (Hsame l b0 Hl) as (b1 & Hb1 & Hdecl & _).
  exists b1. split; assumption.
Defined.

(** C6 as stated fails: the same call is no no-op.  Before it the builder
    of the callback has cached no callback parameter and the store holds
    no `Parameter`; after it the cache has `data` and `context` and the
    store holds two objects. *)
Lemma addParameter_fills_cache :
  ∃ s',
    addParameter data_context 1 data_parameter true nested_store
      = Some (tt, s') ∧
    (callbackParameterCache <$> builders nested_store !! 1) = Some ∅ ∧
    (callbackParameterCache <$> builders s' !! 1)
      = Some {[ "data" := 0; "context" := 1 ]} ∧
    objects nested_store = [] ∧
    objects s' = [ {| param_name := "data"; param_builder := 1 |};
                   {| param_name := "context"; param_builder := 1 |} ] ∧
    s' ≠ nested_store.
Proof.
  eexists. split; [vm_compute; reflexivity |].
  split; [reflexivity |]. split; [reflexivity |].
  split; [reflexivity |]. split; [reflexivity |].
  intros Heq. apply (f_equal objects) in Heq. discriminate Heq.
Qed.

(** [getParentCallbackParameters_empty] on the builder of the callback
    when the lookup of the signature throws: the empty list, and the error
    on the console; and at the root: the empty list, nothing printed. *)
Lemma getParentCallbackParameters_no_signature :
  builders nested_store !! 1
    = Some (setParent (Builder_init [] (Some 0) None) reduce_node "reducer") ∧
  builders nested_store !! 0 = Some empty_builder ∧
  getParentCallbackParameters no_signature 1 nested_store =
  Some ([], {| builders := builders nested_store;
               objects := objects nested_store;
               console := [WarnError (Error "Invalid process or parameter")] |}) ∧
  getParentCallbackParameters no_signature 0 nested_store
    = Some ([], nested_store).
Proof.
  split; [reflexivity |]. split; [reflexivity |]. split.
  - destruct (getParentCallbackParameters_empty no_signature nested_store 1 _
                eq_refl) as (_ & Hthrows & _).
    exact (Hthrows reduce_node "reducer" _ eq_refl eq_refl ltac:(discriminate)
             eq_refl).
  - destruct (getParentCallbackParameters_empty no_signature nested_store 0
                empty_builder eq_refl) as (Hroot & _).
    apply Hroot. by left.
Defined.

(** [process_all_distinct_ids] for four calls on a new builder. *)
Lemma workflow_distinct_ids :
  Forall (fun c => ends_in_digit (stem (call_processId c)) = false)
         workflow_calls ∧
  node_id <$> fst (fst (process_all empty_builder workflow_calls))
    = ["loadco1"; "reduce1"; "reduce2"; "savere1"] ∧
  NoDup (node_id <$> fst (fst (process_all empty_builder workflow_calls))).
Proof.
  assert (Forall (fun c => ends_in_digit (stem (call_processId c)) = false)
                 workflow_calls) as Hall.
  { unfold workflow_calls. repeat (constructor; [reflexivity |]). constructor. }
  split; [exact Hall |]. split; [reflexivity |].
  exact (process_all_distinct_ids workflow_calls empty_builder Hall).
Defined.

(** [process_all_nodes_keyed] for the 22 calls whose ids collide: the 21
    nodes that are stored are all keyed under their own id. *)
Lemma atan_nodes_keyed :
  nodes_keyed trig_builder ∧
  nodes_keyed (snd (fst (process_all trig_builder atan_calls))).
Proof.
  assert (nodes_keyed trig_builder) as Hk.
  { intros id node Hnode. discriminate Hnode. }
  split; [exact Hk |].
  exact (process_all_nodes_keyed atan_calls trig_builder Hk).
Defined.

(** [createCallbackParameter_twice] for `data` on a new builder. *)
Lemma createCallbackParameter_data :
  builders new_store !! 0 = Some empty_builder ∧
  ("data" ∉ Object_prototype) ∧
  ∃ p s1 b1,
    createCallbackParameter 0 "data" new_store = Some (CPObject p, s1) ∧
    createCallbackParameter 0 "data" s1 = Some (CPObject p, s1) ∧
    builders s1 !! 0 = Some b1 ∧
    callbackParameterCache b1 !! "data" = Some p.
Proof.
  assert ("data" ∉ Object_prototype) as Hproto.
  { unfold Object_prototype. rewrite !not_elem_of_cons.
    repeat (split; [discriminate |]). apply not_elem_of_nil. }
  split; [reflexivity |]. split; [exact Hproto |].
  destruct (createCallbackParameter_twice new_store 0 empty_builder "data"
              eq_refl Hproto) as (p & s1 & b1 & H1 & H2 & Hb1 & Hc & _).
  exists p, s1, b1. repeat split; assumption.
Defined.

(** [declare_NoDup] for a second descriptor of a declared name. *)
Lemma declare_collection_NoDup :
  NoDup (d_name <$> [collection_v1]) ∧
  NoDup (d_name <$> declare collection_v2 [collection_v1]).
Proof.
  assert (NoDup (d_name <$> [collection_v1])) as Hnd by apply NoDup_singleton.
  split; [exact Hnd |]. exact (declare_NoDup collection_v2 _ Hnd).
Defined.

(** A parameter that is no callback parameter, declared inside the
    callback of `reducer`, is declared at the root builder. *)
Example addParameter_reaches_root :
  ∃ s',
    addParameter data_context 1 collection_v1 true nested_store
      = Some (tt, s') ∧
    (declared <$> builders s' !! 0) = Some [collection_v1] ∧
    (declared <$> builders s' !! 1) = Some [].
Proof.
  eexists. split; [vm_compute; reflexivity |]. split; reflexivity.
Qed.

(** [addParameter_returns] for the store of the callback example. *)
Lemma addParameter_returns_nested :
  parents_ok nested_store ∧ is_Some (builders nested_store !! 1) ∧
  ∃ s', addParameter data_context 1 collection_v1 true nested_store
          = Some (tt, s').
Proof.
  assert (parents_ok nested_store) as Hok.
  { intros l b p Hl Hp. unfold nested_store in Hl. cbn [builders] in Hl.
    apply lookup_insert_Some in Hl as [[<- <-] | [Hne Hl]].
    - discriminate Hp.
    - apply lookup_singleton_Some in Hl as [<- <-]. injection Hp as <-.
      split; [lia | by eexists]. }
  assert (is_Some (builders nested_store !! 1)) as Hthis by (by eexists).
  split; [exact Hok |]. split; [exact Hthis |].
  exact (addParameter_returns data_context nested_store 1 collection_v1 true
           Hok Hthis).
Defined.

(** ** Further closed instances *)

(** `atan2` once and then `atan` 21 times: the first and the last call
    both get the id "atan21", and "atan2" is "atan" followed by a digit. *)
Lemma generateIds_collision_atan :
  fst (generateIds empty_builder ("atan2" :: repeat "atan" 21)) !! 0 =
  fst (generateIds empty_builder ("atan2" :: repeat "atan" 21)) !! 21 ∧
  (extends_by_digits (stem "atan2") (stem "atan") ∨
   extends_by_digits (stem "atan") (stem "atan2")).
Proof.
  split; [vm_compute; reflexivity |].
  apply (generateIds_collision ("atan2" :: repeat "atan" 21) empty_builder
           0 21 "atan2" "atan");
    [lia | reflexivity | reflexivity | vm_compute; reflexivity].
Defined.

(** The builder made from the catalogue of `atan2` and `atan`. *)
Lemma Builder_new_catalog_trig :
  catalog_of (VArray (Some <$> trig_catalog))
    = inr (Some <$> processes trig_builder) ∧
  (∀ k pid, get_member trig_builder k = MProp (PMethod pid) ->
     pid = k ∧ ∃ p, spec trig_builder k = Some p ∧ proc_id p = k) ∧
  (∀ p, p ∈ processes trig_builder ->
     is_undefined (get_member trig_builder (proc_id p)) = false ∧
     ∃ p', spec trig_builder (proc_id p) = Some p' ∧ proc_id p' = proc_id p) ∧
  (∀ k, spec trig_builder k = None ↔ k ∉ proc_id <$> processes trig_builder).
Proof.
  apply (Builder_new_catalog (VArray (Some <$> trig_catalog)) None None
           trig_builder []).
  vm_compute. reflexivity.
Defined.

(** The metadata and the graph of a builder for `atan2` and `atan` after
    22 calls, with nodes serialised as their ids. *)
Lemma Builder_new_process_toJSON_trig :
  Builder_new (VArray (Some <$> trig_catalog)) None None
    = inr (trig_builder, []) ∧
  ∃ g,
    toJSON (fun node => JStr (node_id node))
      (snd (fst (process_all trig_builder atan_calls))) !! "process_graph"
      = Some (EGraph g) ∧
    (∀ k, is_Some (g !! k) ↔
          k ∈ node_id <$> fst (fst (process_all trig_builder atan_calls))) ∧
    (∀ i node,
       fst (fst (process_all trig_builder atan_calls)) !! i = Some node ->
       (∀ j later, i < j ->
          fst (fst (process_all trig_builder atan_calls)) !! j = Some later ->
          node_id later ≠ node_id node) ->
       g !! node_id node = Some (JStr (node_id node))) ∧
    (∀ key, key ≠ "process_graph" -> key ≠ "parameters" ->
       toJSON (fun node => JStr (node_id node))
         (snd (fst (process_all trig_builder atan_calls))) !! key =
       toJSON (fun node => JStr (node_id node)) trig_builder !! key).
Proof.
  split; [vm_compute; reflexivity |].
  apply (Builder_new_process_toJSON (fun node => JStr (node_id node))
           (VArray (Some <$> trig_catalog)) None None trig_builder []
           atan_calls).
  vm_compute. reflexivity.
Defined.

Lemma nested_store_parents_ok : parents_ok nested_store.
Proof.
  intros l b p Hl Hp. unfold nested_store in Hl. cbn [builders] in Hl.
  apply lookup_insert_Some in Hl as [[<- <-] | [Hne Hl]].
  - discriminate Hp.
  - apply lookup_singleton_Some in Hl as [<- <-]. injection Hp as <-.
    split; [lia | by eexists].
Qed.

Lemma reducer_names (k : string) :
  k ∈ ["data"; "context"] ->
  k ≠ "collection-id" ∧ k ∉ Object_prototype.
Proof.
  rewrite !elem_of_cons, elem_of_nil.
  intros [-> | [-> | []]]; (split; [discriminate |]);
    unfold Object_prototype; rewrite !not_elem_of_cons;
    repeat (split; [discriminate |]); apply not_elem_of_nil.
Qed.

(** The builder of the callback of `reducer`: a second call returns what
    the first returned. *)
Lemma getParentCallbackParameters_twice_reducer :
  ∃ rs s1,
    getParentCallbackParameters data_context 1 nested_store = Some (rs, s1) ∧
    ∃ s2 w,
      getParentCallbackParameters data_context 1 s1 = Some (rs, s2) ∧
      builders s2 = builders s1 ∧ objects s2 = objects s1 ∧
      console s1 = console nested_store ++ w ∧ console s2 = console s1 ++ w.
Proof.
  destruct (getParentCallbackParameters data_context 1 nested_store)
    as [[rs s1]|] eqn:Hrun; [| vm_compute in Hrun; discriminate Hrun].
  exists rs, s1. split; [reflexivity |].
  exact (getParentCallbackParameters_twice data_context nested_store s1 1 rs
           Hrun).
Defined.

(** The callback parameters of `reducer`: the objects for `data` and
    `context`. *)
Lemma getParentCallbackParameters_names_reducer :
  ∃ rs s' b',
    getParentCallbackParameters data_context 1 nested_store = Some (rs, s') ∧
    builders s' !! 1 = Some b' ∧
    Forall2 (fun r param =>
               name_of s' r = Some (d_name param) ∧
               ∃ p, r = CPObject p ∧
                    callbackParameterCache b' !! d_name param = Some p)
            rs [ data_parameter; {| d_name := "context"; d_fields := ∅ |} ] ∧
    (∀ i j pi pj,
       [ data_parameter; {| d_name := "context"; d_fields := ∅ |} ] !! i
         = Some pi ->
       [ data_parameter; {| d_name := "context"; d_fields := ∅ |} ] !! j
         = Some pj ->
       d_name pi = d_name pj -> rs !! i = rs !! j).
Proof.
  apply (getParentCallbackParameters_names data_context nested_store 1 _
           reduce_node "reducer" _
           eq_refl nested_store_cache_ok eq_refl eq_refl
           ltac:(discriminate) eq_refl).
  intros k Hk. by apply reducer_names.
Defined.

(** Declaring `collection-id` inside the callback of `reducer`: the
    parameter is declared at a builder without parent. *)
Lemma addParameter_declares_collection :
  ∃ s' target tb tb',
    addParameter data_context 1 collection_v1 true nested_store
      = Some (tt, s') ∧
    root_of nested_store 1 target ∧
    builders nested_store !! target = Some tb ∧
    builders s' !! target = Some tb' ∧
    declared tb' = declare collection_v1 (declared tb) ∧
    ∀ l b0, builders nested_store !! l = Some b0 ->
      ∃ b1, builders s' !! l = Some b1 ∧
        parent b1 = parent b0 ∧ parentNode b1 = parentNode b0 ∧
        parentParameter b1 = parentParameter b0 ∧
        processes b1 = processes b0 ∧ nodes b1 = nodes b0 ∧
        idCounter b1 = idCounter b0 ∧
        (l ≠ 1 ->
         callbackParameterCache b1 = callbackParameterCache b0) ∧
        (∀ k, k ≠ "parameters" -> props b1 !! k = props b0 !! k).
Proof.
  apply (addParameter_declares data_context nested_store 1 _ collection_v1
           true eq_refl nested_store_cache_ok
           (fun _ => nested_store_parents_ok)).
  intros k Hk. by apply reducer_names.
Defined.

(** ** File formats *)

Lemma upper_char_no_lower (c : ascii) :
  Nat.leb 97 (nat_of_ascii (upper_char c))
  && Nat.leb (nat_of_ascii (upper_char c)) 122 = false.
Proof. by destruct c as [[] [] [] [] [] [] [] []]. Qed.

Lemma ascii_toUpperCase_no_lower (s : string) :
  no_lower (ascii_toUpperCase s) = true.
Proof.
  induction s as [|c r IH]; [done |]. cbn [ascii_toUpperCase no_lower].
  by rewrite upper_char_no_lower, IH.
Qed.

Lemma ascii_toUpperCase_own (s : string) :
  ascii_toUpperCase s ∉ Object_prototype.
Proof.
  pose proof (ascii_toUpperCase_no_lower s) as Hs.
  unfold Object_prototype. rewrite !not_elem_of_cons.
  repeat (split; [intros Heq; rewrite Heq in Hs; discriminate Hs |]).
  apply not_elem_of_nil.
Qed.

(** `getInputType("GTIFF")` on a response that has the keys `GTiff` and
    `gtiff`: the format of the key enumerated last. *)
Lemma findType_last_gtiff :
  _findType ascii_toUpperCase
    (FileTypes_new ascii_toUpperCase formats_response) "GTIFF" Input
  = FoundType (JStr "Geo-Tiff").
Proof.
  exact (findType_last ascii_toUpperCase ascii_toUpperCase_own
           formats_response "GTIFF" Input).
Defined.

(** ** Capabilities *)

(** The features of the example response: `listJobs` is supported because
    the endpoint `/jobs` lists `GET`. *)
Lemma Capabilities_new_hasFeature_jobs :
  ∃ es,
    CObject capabilities_data = CObject capabilities_data ∧
    truthy (api_version capabilities_data) = true ∧
    endpoints capabilities_data = Some es ∧
    ∀ methodName,
      hasFeature {| cap_data := capabilities_data;
                    features := capabilities_features |} methodName = true ↔
      ∃ feature e method,
        (methodName, feature) ∈ featureMap ∧ e ∈ es ∧
        method ∈ ep_methods e ∧
        ascii_toLowerCase (method +:+ " " +:+ ep_path e) = feature.
Proof.
  exact (Capabilities_new_hasFeature ascii_toLowerCase
           (CObject capabilities_data)
           {| cap_data := capabilities_data;
              features := capabilities_features |} eq_refl).
Defined.

(** ** Utilities *)

(** A base and a path, with and without the slash between them. *)
Lemma normalizeUrl_slashes_openeo :
  normalizeUrl "https://openeo.org" (VString "collections")
    = "https://openeo.org/collections" ∧
  normalizeUrl "https://openeo.org/" (VString "collections")
    = "https://openeo.org/collections" ∧
  normalizeUrl "https://openeo.org" (VString "/collections")
    = "https://openeo.org/collections" ∧
  normalizeUrl "https://openeo.org/" (VString "/collections")
    = "https://openeo.org/collections" ∧
  normalizeUrl "https://openeo.org" VNull = "https://openeo.org" ∧
  normalizeUrl "https://openeo.org/" VNull = "https://openeo.org".
Proof.
  exact (normalizeUrl_slashes "https://openeo.org" "collections"
           eq_refl eq_refl).
Defined.

(** `1.0.0` is above `0.4.2`. *)
Lemma compareVersionNumbers_numeric_100 :
  compareVersionNumbers (VString "1.0.0") (VString "0.4.2") = Some 1%Z.
Proof.
  refine (compareVersionNumbers_numeric "1.0.0" "0.4.2" eq_refl eq_refl _).
  intros [|[|[|i]]] a b Ha Hb; cbn in Ha, Hb; try discriminate Ha;
    injection Ha as <-; injection Hb as <-; reflexivity.
Defined.

(** `0.4.10` comes before `0.4.9`. *)
Lemma compareVersionNumbers_last_part_04 :
  compareVersionNumbers (VString "0.4.2") (VString "0.4.10") = Some 1%Z ∧
  compareVersionNumbers (VString "0.4.10") (VString "0.4.9") = Some (-1)%Z.
Proof.
  exact (compareVersionNumbers_last_part "0.4" "2" "10"
           eq_refl eq_refl eq_refl).
Defined.

(** The parameters `{job_id, a}` and `{a, job_id}` have the same hash. *)
Lemma hash_order_job :
  hash (HObject [("job_id", HString "abc"); ("a", HNumber "5")])
  = hash (HObject [("a", HNumber "5"); ("job_id", HString "abc")]).
Proof.
  apply hash_order; [| apply perm_swap].
  apply (bool_decide_unpack _). vm_compute. exact I.
Defined.
